(** * Geometry buffers of pixi.js: a shallow embedding of
      [src/plugins/geometry/src/Geometry.js]

    The file embeds the [Geometry] class (attribute registration, index
    registration, interleaving, destruction, cloning, the static merge) and
    the helper [interleaveTypedArrays], and proves properties of them.

    Modelling conventions.
    - JavaScript objects that are compared or mutated through references
      (typed arrays, [Buffer]s, [Geometry]s) live in a heap; a reference is
      the position of the object in its store and allocation appends.
    - A method is a function in a state and exception monad over the heap;
      a thrown exception carries the heap at the point of the throw.
    - A typed array is a constructor tag and the list of its elements.  An
      integer array holds the numeric values of its elements; a
      [Float32Array] holds the 32-bit patterns of its elements, and the two
      conversions between patterns and numbers are fields of [JSRuntime].
    - Numbers computed by the code (footprints, strides, offsets) are exact
      rationals extended with the infinities and NaN; rounding of doubles
      is not modelled.
    - [GLData.GL_SIZE_MAP] comes from another package and is a field of
      [JSRuntime].
    - The attribute map is kept by value in the geometry, as the list of its
      own properties in [for ... in] order; attribute names are ordinary
      property names. *)

From Stdlib Require Import QArith Qround Qcanon Ascii String.
From stdpp Require Import base decidable option list numbers strings.
From Stdlib Require Import ZifyNat.

Close Scope Q_scope.
Open Scope nat_scope.
Open Scope list_scope.

(** ** Numbers *)

(** A JavaScript number: a rational, an infinity or NaN. *)
Inductive Number :=
| Fin (q : Q)
| PosInf
| NegInf
| NaN.

Definition num_add (x y : Number) : Number :=
  match x, y with
  | NaN, _ | _, NaN => NaN
  | Fin a, Fin b => Fin (Qred (a + b))
  | PosInf, NegInf | NegInf, PosInf => NaN
  | PosInf, _ | _, PosInf => PosInf
  | NegInf, _ | _, NegInf => NegInf
  end.

(** [x / y], a zero divisor being [+0]. *)
Definition num_div (x y : Number) : Number :=
  match x, y with
  | NaN, _ | _, NaN => NaN
  | Fin a, Fin b =>
      if Qeq_bool b 0 then
        if Qeq_bool a 0 then NaN
        else if Qle_bool 0 a then PosInf else NegInf
      else Fin (Qred (a / b))
  | Fin _, _ => Fin 0
  | PosInf, Fin b => if Qle_bool 0 b then PosInf else NegInf
  | NegInf, Fin b => if Qle_bool 0 b then NegInf else PosInf
  | _, _ => NaN
  end.

Definition of_nat (n : nat) : Q := inject_Z (Z.of_nat n).

(** Truncation towards zero. *)
Definition Qtrunc (q : Q) : Z :=
  if Qle_bool 0 q then Qfloor q else Qceiling q.

(** ToInt32, the conversion behind [x | 0]. *)
Definition to_int32 (z : Z) : Z := ((z + 2 ^ 31) mod 2 ^ 32 - 2 ^ 31)%Z.

(** ** Typed arrays *)

Inductive ArrayKind :=
| Int8Array | Uint8Array | Int16Array | Uint16Array
| Int32Array | Uint32Array | Float32Array.

#[global] Instance ArrayKind_eq_dec : EqDecision ArrayKind.
Proof. solve_decision. Defined.

Definition BYTES_PER_ELEMENT (k : ArrayKind) : nat :=
  match k with
  | Int8Array | Uint8Array => 1
  | Int16Array | Uint16Array => 2
  | Int32Array | Uint32Array | Float32Array => 4
  end.

Definition is_signed (k : ArrayKind) : bool :=
  match k with
  | Int8Array | Int16Array | Int32Array => true
  | _ => false
  end.

(** The modular conversion of an integer stored into an integer array. *)
Definition wrap_int (k : ArrayKind) (z : Z) : Z :=
  let m := (2 ^ (8 * Z.of_nat (BYTES_PER_ELEMENT k)))%Z in
  if is_signed k then ((z + m / 2) mod m - m / 2)%Z else (z mod m)%Z.

Definition GLenum := Z.

(** What the embedding takes from the JavaScript runtime and from the
    [@pixi/gl] package. *)
Class JSRuntime := {
  (** [GLData.GL_SIZE_MAP]: the byte width of a scalar type, [None] for a
      type that is not in the table *)
  GL_SIZE_MAP : GLenum -> option N;
  (** the binary32 pattern of a number rounded to single precision *)
  f32_encode : Number -> Z;
  (** the number a binary32 pattern stands for *)
  f32_decode : Z -> Number
}.

Record TypedArray := {
  ctor : ArrayKind;
  elems : list Z
}.

Section Elements.
Context `{JSRuntime}.

(** The element stored by [array[i] = x]. *)
Definition encode_elem (k : ArrayKind) (x : Number) : Z :=
  match k with
  | Float32Array => f32_encode x
  | _ => match x with
         | Fin q => wrap_int k (Qtrunc q)
         | _ => 0%Z
         end
  end.

(** The number read by [array[i]]. *)
Definition decode_elem (k : ArrayKind) (v : Z) : Number :=
  match k with
  | Float32Array => f32_decode v
  | _ => Fin (inject_Z v)
  end.

(** The element stored by [out[k] = array[j]] when both are of kind [k]:
    the element is read as a number and stored again. *)
Definition copy_elem (k : ArrayKind) (v : Z) : Z :=
  encode_elem k (decode_elem k v).

(** [new K(values)] for a JavaScript array of numbers. *)
Definition array_from (k : ArrayKind) (xs : list Number) : TypedArray :=
  {| ctor := k; elems := map (encode_elem k) xs |}.
End Elements.

(** [new K(n)]: [n] zero elements. *)
Definition array_zeros (k : ArrayKind) (n : nat) : TypedArray :=
  {| ctor := k; elems := repeat 0%Z n |}.

(** ** Objects *)

(** References to typed arrays, to Buffers and to Geometries. *)
Abbreviation aref := nat (only parsing).
Abbreviation bref := nat (only parsing).
Abbreviation gref := nat (only parsing).

(** What the [data] field of a Buffer holds: nothing once released, a typed
    array, or a Buffer object ([addAttribute] and [addIndex] wrap whatever
    has no [data] of its own, a released Buffer included). *)
Inductive BufferData :=
| DataNull
| DataArray (a : aref)
| DataBuffer (b : bref).

Record Buffer := {
  data : BufferData;
  index : bool
}.

Record Attribute := {
  buffer : nat;
  size : N;
  normalized : bool;
  type : GLenum;
  stride : option Z;
  start : option Z;
  instance : bool
}.

(** The GPU-object cache: a plain object from renderer ids to vertex array
    object handles. *)
Definition VertexArrayObjects := list (nat * nat).

Record Geometry := {
  buffers : option (list bref);
  indexBuffer : option bref;
  attributes : option (list (string * Attribute));
  glVertexArrayObjects : option VertexArrayObjects
}.

Record Heap := {
  h_arrays : list TypedArray;
  h_buffers : list Buffer;
  h_geometries : list Geometry
}.

Definition empty_heap : Heap :=
  {| h_arrays := []; h_buffers := []; h_geometries := [] |}.

Definition with_arrays (f : list TypedArray -> list TypedArray) (h : Heap) : Heap :=
  {| h_arrays := f (h_arrays h); h_buffers := h_buffers h;
     h_geometries := h_geometries h |}.

Definition with_buffers (f : list Buffer -> list Buffer) (h : Heap) : Heap :=
  {| h_arrays := h_arrays h; h_buffers := f (h_buffers h);
     h_geometries := h_geometries h |}.

Definition with_geometries (f : list Geometry -> list Geometry) (h : Heap) : Heap :=
  {| h_arrays := h_arrays h; h_buffers := h_buffers h;
     h_geometries := f (h_geometries h) |}.

(** ** The monad of methods *)

Inductive exn :=
| Error (msg : string)
| TypeError
| RangeError.

Inductive Result (A : Type) :=
| Ok (a : A) (h : Heap)
| Throw (e : exn) (h : Heap).
Arguments Ok {A} a h.
Arguments Throw {A} e h.

Definition M (A : Type) := Heap -> Result A.

Definition ret {A} (a : A) : M A := fun h => Ok a h.
Definition throw {A} (e : exn) : M A := fun h => Throw e h.
Definition bind {A B} (m : M A) (k : A -> M B) : M B :=
  fun h => match m h with
           | Ok a h' => k a h'
           | Throw e h' => Throw e h'
           end.

Notation "x <- m ;; k" := (bind m (fun x => k))
  (at level 100, m at next level, right associativity).
Notation "m ;;; k" := (bind m (fun _ => k))
  (at level 100, right associativity).

(** A [for] loop over the elements of a list. *)
Fixpoint for_each {A} (f : A -> M unit) (l : list A) : M unit :=
  match l with
  | [] => ret tt
  | x :: l' => f x ;;; for_each f l'
  end.

(** Reading a property of [null] or [undefined] throws a TypeError. *)
Definition nonnull {A} (o : option A) : M A :=
  match o with
  | Some a => ret a
  | None => throw TypeError
  end.

Definition get_array (a : aref) : M TypedArray :=
  fun h => nonnull (h_arrays h !! a) h.
Definition get_buffer (b : bref) : M Buffer :=
  fun h => nonnull (h_buffers h !! b) h.
Definition get_geometry (g : gref) : M Geometry :=
  fun h => nonnull (h_geometries h !! g) h.

Definition alloc_array (t : TypedArray) : M aref :=
  fun h => Ok (length (h_arrays h)) (with_arrays (fun l => l ++ [t]) h).
Definition alloc_buffer (b : Buffer) : M bref :=
  fun h => Ok (length (h_buffers h)) (with_buffers (fun l => l ++ [b]) h).
Definition alloc_geometry (g : Geometry) : M gref :=
  fun h => Ok (length (h_geometries h)) (with_geometries (fun l => l ++ [g]) h).

Definition update_array (a : aref) (f : TypedArray -> TypedArray) : M unit :=
  fun h => Ok tt (with_arrays (fun l => alter f a l) h).
Definition update_buffer (b : bref) (f : Buffer -> Buffer) : M unit :=
  fun h => Ok tt (with_buffers (fun l => alter f b l) h).
Definition update_geometry (g : gref) (f : Geometry -> Geometry) : M unit :=
  fun h => Ok tt (with_geometries (fun l => alter f g l) h).

Definition set_data (d : BufferData) (b : Buffer) : Buffer :=
  {| data := d; index := index b |}.
Definition set_index (i : bool) (b : Buffer) : Buffer :=
  {| data := data b; index := i |}.
Definition set_buffer (i : nat) (a : Attribute) : Attribute :=
  {| buffer := i; size := size a; normalized := normalized a; type := type a;
     stride := stride a; start := start a; instance := instance a |}.
Definition set_buffers (bs : option (list bref)) (g : Geometry) : Geometry :=
  {| buffers := bs; indexBuffer := indexBuffer g; attributes := attributes g;
     glVertexArrayObjects := glVertexArrayObjects g |}.
Definition set_indexBuffer (ib : option bref) (g : Geometry) : Geometry :=
  {| buffers := buffers g; indexBuffer := ib; attributes := attributes g;
     glVertexArrayObjects := glVertexArrayObjects g |}.
Definition set_attributes (at_ : option (list (string * Attribute)))
    (g : Geometry) : Geometry :=
  {| buffers := buffers g; indexBuffer := indexBuffer g; attributes := at_;
     glVertexArrayObjects := glVertexArrayObjects g |}.
Definition set_glVertexArrayObjects (v : option VertexArrayObjects)
    (g : Geometry) : Geometry :=
  {| buffers := buffers g; indexBuffer := indexBuffer g;
     attributes := attributes g; glVertexArrayObjects := v |}.

(** ** Property maps and strings *)

Definition is_digit (c : ascii) : bool :=
  (48 <=? nat_of_ascii c) && (nat_of_ascii c <=? 57).

Fixpoint digits_value (s : string) (acc : N) : option N :=
  match s with
  | EmptyString => Some acc
  | String c s' =>
      if is_digit c
      then digits_value s' (acc * 10 + (N_of_ascii c - 48))%N
      else None
  end.

(** The array index a property name denotes, if it is the canonical decimal
    form of an integer below [2^32 - 1]. *)
Definition array_index (s : string) : option N :=
  match s with
  | EmptyString => None
  | String c s' =>
      if Ascii.eqb c "0" && negb (String.eqb s' EmptyString) then None
      else match digits_value s 0 with
           | Some n => if (n <? 2 ^ 32 - 1)%N then Some n else None
           | None => None
           end
  end.

Section PropertyMap.
Context {V : Type}.

(** [obj[k]] on own properties. *)
Fixpoint attr_lookup (k : string) (m : list (string * V)) : option V :=
  match m with
  | [] => None
  | (k', v) :: m' => if String.eqb k k' then Some v else attr_lookup k m'
  end.

(** The place of a new property: array indices come first in ascending
    order, the other names follow in creation order. *)
Fixpoint attr_insert_new (k : string) (v : V) (m : list (string * V))
    : list (string * V) :=
  match m with
  | [] => [(k, v)]
  | (k', v') :: m' =>
      match array_index k, array_index k' with
      | Some n, Some n' =>
          if (n <? n')%N then (k, v) :: m
          else (k', v') :: attr_insert_new k v m'
      | Some _, None => (k, v) :: m
      | None, _ => (k', v') :: attr_insert_new k v m'
      end
  end.

Fixpoint attr_replace (k : string) (v : V) (m : list (string * V))
    : list (string * V) :=
  match m with
  | [] => []
  | (k', v') :: m' =>
      if String.eqb k k' then (k', v) :: m'
      else (k', v') :: attr_replace k v m'
  end.

(** [obj[k] = v]: an existing property keeps its place. *)
Definition attr_set (k : string) (v : V) (m : list (string * V))
    : list (string * V) :=
  match attr_lookup k m with
  | Some _ => attr_replace k v m
  | None => attr_insert_new k v m
  end.
End PropertyMap.

(** [s.split(sep)] for a separator of one character. *)
Fixpoint split (sep : ascii) (s : string) : list string :=
  match s with
  | EmptyString => [EmptyString]
  | String c s' =>
      if Ascii.eqb c sep then EmptyString :: split sep s'
      else match split sep s' with
           | p :: ps => String c p :: ps
           | [] => [String c EmptyString]
           end
  end.

(** [l.indexOf(x)]: the first position of [x], [None] for [-1]. *)
Fixpoint indexOf (x : nat) (l : list nat) : option nat :=
  match l with
  | [] => None
  | y :: l' => if Nat.eqb x y then Some 0 else option_map S (indexOf x l')
  end.

(** ** Buffer and Attribute *)

(** Modelled from the spec: [Buffer.js] is not among the sources.  A Buffer
    is constructed from the array it owns and is empty by default; its index
    flag starts unset. *)
Definition Buffer_new (d : option BufferData) : M bref :=
  match d with
  | Some d => alloc_buffer {| data := d; index := false |}
  | None =>
      a <- alloc_array (array_zeros Float32Array 0) ;;
      alloc_buffer {| data := DataArray a; index := false |}
  end.

(** Modelled from the spec: [Buffer.js] is not among the sources.
    [destroy()] releases the array and does nothing on a released Buffer. *)
Definition Buffer_destroy (b : bref) : M unit :=
  get_buffer b ;;; update_buffer b (set_data DataNull).

(** Modelled from the spec: [Attribute.js] is not among the sources.  An
    Attribute stores its fields and does nothing else. *)
Definition Attribute_new (bufferIndex : nat) (size : N) (normalized : bool)
    (type : GLenum) (stride start : option Z) (instance : bool) : Attribute :=
  {| buffer := bufferIndex; size := size; normalized := normalized;
     type := type; stride := stride; start := start; instance := instance |}.

(** ** Geometry *)

(** The [buffer] argument of [addAttribute] and [addIndex]: missing, a
    JavaScript array of numbers, a typed array, or a Buffer. *)
Inductive BufferArg :=
| ArgNone
| ArgArray (xs : list Number)
| ArgTyped (a : aref)
| ArgBuffer (b : bref).

Definition separator : ascii := "|".

Section Methods.
Context `{JSRuntime}.

(** [new Geometry(buffers, attributes)] *)
Definition Geometry_new (bs : option (list bref))
    (attrs : option (list (string * Attribute))) : M gref :=
  alloc_geometry
    {| buffers := Some (default [] bs);
       indexBuffer := None;
       attributes := Some (default [] attrs);
       glVertexArrayObjects := Some [] |}.

(** The part of [addAttribute] below the test on [ids.length]. *)
Definition addAttribute_register (this : gref) (id : string) (buf : bref)
    (size : N) (normalised : bool) (type : GLenum) (stride start : option Z)
    (instance : bool) : M gref :=
  g <- get_geometry this ;;
  bs <- nonnull (buffers g) ;;
  bufferIndex <-
    match indexOf buf bs with
    | Some i => ret i
    | None =>
        update_geometry this (set_buffers (Some (bs ++ [buf]))) ;;;
        ret (length (bs ++ [buf]) - 1)
    end ;;
  g <- get_geometry this ;;
  attrs <- nonnull (attributes g) ;;
  update_geometry this
    (set_attributes
       (Some (attr_set id
                (Attribute_new bufferIndex size normalised type stride start
                   instance) attrs))) ;;;
  ret this.

(** The body of [addAttribute], its recursive calls being [self]. *)
Definition addAttribute_body
    (self : gref -> string -> BufferArg -> N -> bool -> GLenum ->
            option Z -> option Z -> bool -> M gref)
    (this : gref) (id : string) (arg : BufferArg) (size : N)
    (normalised : bool) (type : GLenum) (stride start : option Z)
    (instance : bool) : M gref :=
  buf <-
    match arg with
    | ArgNone =>
        throw (Error "You must pass a buffer when creating an attribute")
    | ArgArray xs =>
        a <- alloc_array (array_from Float32Array xs) ;;
        Buffer_new (Some (DataArray a))
    | ArgTyped a => Buffer_new (Some (DataArray a))
    | ArgBuffer b =>
        bu <- get_buffer b ;;
        match data bu with
        | DataNull => Buffer_new (Some (DataBuffer b))
        | _ => ret b
        end
    end ;;
  let ids := split separator id in
  if 1 <? length ids then
    for_each
      (fun idi =>
         self this idi (ArgBuffer buf) size normalised type None None
           false ;;; ret tt)
      ids ;;;
    ret this
  else
    addAttribute_register this id buf size normalised type stride start
      instance.

(** [addAttribute(id, buffer, size, normalised, type, stride, start,
    instance)].  A piece of [id.split('|')] has no separator, so that a
    recursive call makes none itself: the body is unrolled twice, and
    [addAttribute_eqn] below shows that the result satisfies the
    recursive equation of the source. *)
Definition addAttribute :=
  addAttribute_body
    (addAttribute_body (fun this _ _ _ _ _ _ _ _ => ret this)).

(** [getAttribute(id)]: [None] is [undefined]. *)
Definition getAttribute (this : gref) (id : string) : M (option bref) :=
  g <- get_geometry this ;;
  attrs <- nonnull (attributes g) ;;
  attribute <- nonnull (attr_lookup id attrs) ;;
  bs <- nonnull (buffers g) ;;
  ret (bs !! buffer attribute).

(** [addIndex(buffer)] *)
Definition addIndex (this : gref) (arg : BufferArg) : M gref :=
  buf <-
    match arg with
    | ArgNone => throw TypeError
    | ArgArray xs =>
        a <- alloc_array (array_from Uint16Array xs) ;;
        Buffer_new (Some (DataArray a))
    | ArgTyped a => Buffer_new (Some (DataArray a))
    | ArgBuffer b =>
        bu <- get_buffer b ;;
        match data bu with
        | DataNull => Buffer_new (Some (DataBuffer b))
        | _ => ret b
        end
    end ;;
  get_buffer buf ;;;
  update_buffer buf (set_index true) ;;;
  get_geometry this ;;;
  update_geometry this (set_indexBuffer (Some buf)) ;;;
  g <- get_geometry this ;;
  bs <- nonnull (buffers g) ;;
  match indexOf buf bs with
  | None => update_geometry this (set_buffers (Some (bs ++ [buf])))
  | Some _ => ret tt
  end ;;;
  ret this.

(** [getIndex()] *)
Definition getIndex (this : gref) : M (option bref) :=
  g <- get_geometry this ;;
  ret (indexBuffer g).

(** *** Interleaving *)

(** [(attribute.size * GLData.GL_SIZE_MAP[attribute.type]) / 4]: the
    footprint of an attribute in 32-bit words, NaN for a type that is not
    in the table. *)
Definition footprint (attribute : Attribute) : Number :=
  match GL_SIZE_MAP (type attribute) with
  | Some width =>
      Fin (Qred ((inject_Z (Z.of_N (size attribute))
                  * inject_Z (Z.of_N width)) / 4))
  | None => NaN
  end.

(** The bytes of an element of [n] bytes, the least significant first. *)
Definition le_bytes (n : nat) (v : Z) : list Z :=
  map (fun i => ((v / 256 ^ Z.of_nat i) mod 256)%Z) (seq 0 n).

Fixpoint le_value (bs : list Z) : Z :=
  match bs with
  | [] => 0%Z
  | b :: bs' => (b + 256 * le_value bs')%Z
  end.

(** [view[i] = v] through a view of kind [k] on an ArrayBuffer: nothing
    is written unless [i] is an index of the view. *)
Definition view_set (k : ArrayKind) (bytes : list Z) (i : option Z) (v : Z)
    : list Z :=
  let w := BYTES_PER_ELEMENT k in
  match i with
  | Some i =>
      if ((0 <=? i) && (i <? Z.of_nat (length bytes / w)))%Z
      then take (w * Z.to_nat i) bytes ++ le_bytes w v
           ++ drop (w * Z.to_nat i + w) bytes
      else bytes
  | None => bytes
  end.

(** [new Float32Array(buffer)]: the 32-bit words of an ArrayBuffer. *)
Fixpoint words (bytes : list Z) : list Z :=
  match bytes with
  | b0 :: b1 :: b2 :: b3 :: rest => le_value [b0; b1; b2; b3] :: words rest
  | _ => []
  end.

(** [indexStart + index] for the element at [j]; [None] when the sum is
    not an integer: [j % 0] is NaN, and so is any sum with NaN. *)
Definition dest_index (j : nat) (size stride littleOffset : Number)
    : option Z :=
  match size, stride, littleOffset with
  | Fin size, Fin stride, Fin littleOffset =>
      if Qeq_bool size 0 then None
      else
        let indexStart :=
          (inject_Z (to_int32 (Qtrunc (of_nat j / size))) * stride
           + littleOffset)%Q in
        let index :=
          (of_nat j - size * inject_Z (Qtrunc (of_nat j / size)))%Q in
        let i := Qred (indexStart + index) in
        if Pos.eqb (Qden i) 1 then Some (Qnum i) else None
  | _, _, _ => None
  end.

(** What [arrays] holds in [interleaveTypedArrays]: the [data] of a
    Buffer, read at the call. *)
Inductive ArrayArg :=
| IsNull
| IsArray (t : TypedArray)
| IsObject.

Definition is_null (a : ArrayArg) : bool :=
  match a with IsNull => true | _ => false end.

(** [array.length]; [None] is [undefined]. *)
Definition array_length (a : ArrayArg) : option nat :=
  match a with
  | IsArray t => Some (length (elems t))
  | _ => None
  end.

(** The inner loop of [interleaveTypedArrays] over the elements of one
    array, [j] being the index of the head of [vs]. *)
Fixpoint write_elems (k : ArrayKind) (size stride littleOffset : Number)
    (j : nat) (vs : list Z) (bytes : list Z) : list Z :=
  match vs with
  | [] => bytes
  | v :: vs' =>
      write_elems k size stride littleOffset (S j) vs'
        (view_set k bytes (dest_index j size stride littleOffset)
           (copy_elem k v))
  end.

(** The outer loop of [interleaveTypedArrays]. *)
Fixpoint write_arrays (stride littleOffset : Number)
    (arrays : list (ArrayArg * Number)) (bytes : list Z) : list Z :=
  match arrays with
  | [] => bytes
  | (array, size) :: rest =>
      write_arrays stride (num_add littleOffset size) rest
        match array with
        | IsArray t =>
            write_elems (ctor t) size stride littleOffset 0 (elems t) bytes
        | _ => bytes
        end
  end.

(** [interleaveTypedArrays(arrays, sizes)], [sizes] being as long as
    [arrays].  The views of the different constructors share one
    ArrayBuffer, a list of bytes here; [outSize] is [None] for NaN, which
    makes an empty ArrayBuffer. *)
Definition interleaveTypedArrays (arrays : list ArrayArg)
    (sizes : list Number) : M aref :=
  if existsb is_null arrays then throw TypeError
  else
    let stride := fold_left num_add (take (length arrays) sizes) (Fin 0) in
    let outSize :=
      fold_left
        (fun acc array =>
           match acc, array_length array with
           | Some n, Some l => Some (n + l)
           | _, _ => None
           end)
        arrays (Some 0) in
    let buffer := repeat 0%Z (default 0 outSize * 4) in
    let buffer :=
      write_arrays stride (Fin 0) (combine arrays sizes) buffer in
    alloc_array {| ctor := Float32Array; elems := words buffer |}.

Definition read_data (d : BufferData) : M ArrayArg :=
  match d with
  | DataNull => ret IsNull
  | DataArray a => t <- get_array a ;; ret (IsArray t)
  | DataBuffer _ => ret IsObject
  end.

(** [a !== b] for a Buffer and what [indexBuffer] holds. *)
Definition is_not (b : bref) (ib : option bref) : bool :=
  match ib with
  | Some b' => negb (Nat.eqb b b')
  | None => true
  end.

(** The loop of [interleave] over the properties of [this.attributes]:
    it collects the arrays and the footprints, and points every attribute
    to buffer [0]. *)
Fixpoint interleave_collect (this : gref) (props : list (string * Attribute))
    (arrays : list ArrayArg) (sizes : list Number)
    : M (list ArrayArg * list Number) :=
  match props with
  | [] => ret (arrays, sizes)
  | (i, attribute) :: props' =>
      g <- get_geometry this ;;
      bs <- nonnull (buffers g) ;;
      buf <- nonnull (bs !! buffer attribute) ;;
      bu <- get_buffer buf ;;
      array <- read_data (data bu) ;;
      attrs <- nonnull (attributes g) ;;
      update_geometry this
        (set_attributes
           (Some (attr_replace i (set_buffer 0 attribute) attrs))) ;;;
      interleave_collect this props' (arrays ++ [array])
        (sizes ++ [footprint attribute])
  end.

(** [interleave()] *)
Definition interleave (this : gref) : M gref :=
  g <- get_geometry this ;;
  bs <- nonnull (buffers g) ;;
  if Nat.eqb (length bs) 1
     || (Nat.eqb (length bs) 2 && bool_decide (is_Some (indexBuffer g)))
  then ret this
  else
    interleavedBuffer <- Buffer_new None ;;
    collected <-
      interleave_collect this (default [] (attributes g)) [] [] ;;
    a <- interleaveTypedArrays (fst collected) (snd collected) ;;
    update_buffer interleavedBuffer (set_data (DataArray a)) ;;;
    g <- get_geometry this ;;
    bs <- nonnull (buffers g) ;;
    for_each
      (fun b => if is_not b (indexBuffer g) then Buffer_destroy b else ret tt)
      bs ;;;
    update_geometry this (set_buffers (Some [interleavedBuffer])) ;;;
    match indexBuffer g with
    | Some ib =>
        update_geometry this (set_buffers (Some [interleavedBuffer; ib]))
    | None => ret tt
    end ;;;
    ret this.

(** *** Destruction *)

(** [destroy()].  The cache is a plain object: it has no [length], the
    condition [i < undefined] of the first loop is false and its body
    never runs. *)
Definition destroy (this : gref) : M unit :=
  g <- get_geometry this ;;
  nonnull (glVertexArrayObjects g) ;;;
  update_geometry this (set_glVertexArrayObjects None) ;;;
  bs <- nonnull (buffers g) ;;
  for_each Buffer_destroy bs ;;;
  update_geometry this (set_buffers None) ;;;
  ib <- nonnull (indexBuffer g) ;;
  Buffer_destroy ib ;;;
  update_geometry this (set_attributes None).

(** *** Clone *)

(** [data.slice()]: a new array with the same constructor and elements;
    neither [null] nor a Buffer has a [slice] method. *)
Definition slice (d : BufferData) : M aref :=
  match d with
  | DataArray a => t <- get_array a ;; alloc_array t
  | _ => throw TypeError
  end.

(** [clone()] *)
Definition clone (this : gref) : M gref :=
  geometry <- Geometry_new None None ;;
  g <- get_geometry this ;;
  bs <- nonnull (buffers g) ;;
  for_each
    (fun b =>
       bu <- get_buffer b ;;
       a <- slice (data bu) ;;
       nb <- Buffer_new (Some (DataArray a)) ;;
       update_geometry geometry
         (fun g' => set_buffers (Some (default [] (buffers g') ++ [nb])) g'))
    bs ;;;
  for_each
    (fun '(i, attrib) =>
       update_geometry geometry
         (fun g' =>
            set_attributes
              (Some (attr_set i
                       (Attribute_new (buffer attrib) (size attrib)
                          (normalized attrib) (type attrib) (stride attrib)
                          (start attrib) (instance attrib))
                       (default [] (attributes g')))) g'))
    (default [] (attributes g)) ;;;
  match indexBuffer g with
  | Some ib =>
      g' <- get_geometry geometry ;;
      let nib :=
        match indexOf ib bs with
        | Some i => default [] (buffers g') !! i
        | None => None
        end in
      update_geometry geometry (set_indexBuffer nib) ;;;
      nib <- nonnull nib ;;
      update_buffer nib (set_index true)
  | None => ret tt
  end ;;;
  ret geometry.
(** *** Merge *)

(** [data.length]: [None] is [undefined]; reading it from [null] throws. *)
Definition data_length (d : BufferData) : M (option nat) :=
  match d with
  | DataNull => throw TypeError
  | DataArray a => t <- get_array a ;; ret (Some (length (elems t)))
  | DataBuffer _ => ret None
  end.

(** [l[j] = x] on a JavaScript array of numbers, [None] being NaN or a
    hole. *)
Definition assign (j : nat) (x : option nat) (l : list (option nat))
    : list (option nat) :=
  if j <? length l then <[j:=x]> l
  else l ++ repeat None (j - length l) ++ [x].

(** The number in [l[j]], [None] when it is NaN or missing. *)
Definition number_at (l : list (option nat)) (j : nat) : option nat :=
  mjoin (l !! j).

(** Pass one of [merge] over the buffers of one geometry, from slot [j]. *)
Fixpoint merge_sizes (j : nat) (bs : list bref)
    (sizes offsets : list (option nat))
    : M (list (option nat) * list (option nat)) :=
  match bs with
  | [] => ret (sizes, offsets)
  | b :: bs' =>
      bu <- get_buffer b ;;
      len <- data_length (data bu) ;;
      let sizes :=
        assign j (option_map (Nat.add (default 0 (number_at sizes j))) len)
          sizes in
      merge_sizes (S j) bs' sizes (assign j (Some 0) offsets)
  end.

Fixpoint merge_pass_one (geometries : list gref)
    (sizes offsets : list (option nat))
    : M (list (option nat) * list (option nat)) :=
  match geometries with
  | [] => ret (sizes, offsets)
  | geometry :: rest =>
      g <- get_geometry geometry ;;
      bs <- nonnull (buffers g) ;;
      so <- merge_sizes 0 bs sizes offsets ;;
      merge_pass_one rest (fst so) (snd so)
  end.

(** What [arrays[i]] holds in [merge]: a typed array, or a Buffer when
    the last geometry has a Buffer for the data of slot [i]. *)
Inductive OutArray :=
| OutTyped (a : aref)
| OutObject (b : bref).

(** The loop of [merge] that builds the arrays of the output, from slot
    [i].  When [data] is a Buffer, [sizes[i]] is NaN and
    [new Buffer(NaN)] is modelled as a Buffer made without argument. *)
Fixpoint merge_build (geometryOut : gref) (i : nat) (bs : list bref)
    (sizes : list (option nat)) (arrays : list OutArray)
    : M (list OutArray) :=
  match bs with
  | [] => ret arrays
  | b :: bs' =>
      bu <- get_buffer b ;;
      array <-
        match data bu with
        | DataNull => throw TypeError
        | DataArray a =>
            t <- get_array a ;;
            na <- alloc_array
                    (array_zeros (ctor t) (default 0 (number_at sizes i))) ;;
            ret (OutTyped na)
        | DataBuffer _ =>
            ob <- Buffer_new None ;;
            ret (OutObject ob)
        end ;;
      nb <- Buffer_new
              (Some match array with
                    | OutTyped na => DataArray na
                    | OutObject ob => DataBuffer ob
                    end) ;;
      update_geometry geometryOut
        (fun g' => set_buffers (Some (default [] (buffers g') ++ [nb])) g') ;;;
      merge_build geometryOut (S i) bs' sizes (arrays ++ [array])
  end.

(** [target.set(source, offset)] on a typed array: elements of another
    constructor are converted, a Buffer as source has no elements. *)
Definition typed_set (target : aref) (source : BufferData) (offset : nat)
    : M unit :=
  t <- get_array target ;;
  match source with
  | DataNull => throw TypeError
  | DataArray sa =>
      st <- get_array sa ;;
      if length (elems t) <? offset + length (elems st)
      then throw RangeError
      else
        let conv v :=
          if decide (ctor st = ctor t) then v
          else encode_elem (ctor t) (decode_elem (ctor st) v) in
        update_array target
          (fun t =>
             {| ctor := ctor t;
                elems := take offset (elems t) ++ map conv (elems st)
                         ++ drop (offset + length (elems st)) (elems t) |})
  | DataBuffer _ =>
      if length (elems t) <? offset then throw RangeError else ret tt
  end.

(** Pass two of [merge] over the buffers of one geometry, from slot [j]. *)
Fixpoint merge_copy (j : nat) (bs : list bref) (arrays : list OutArray)
    (offsets : list (option nat)) : M (list (option nat)) :=
  match bs with
  | [] => ret offsets
  | b :: bs' =>
      target <- nonnull (arrays !! j) ;;
      bu <- get_buffer b ;;
      match target with
      | OutObject _ => throw TypeError
      | OutTyped a => typed_set a (data bu) (default 0 (number_at offsets j))
      end ;;;
      len <- data_length (data bu) ;;
      let offsets :=
        assign j
          match number_at offsets j, len with
          | Some o, Some l => Some (o + l)
          | _, _ => None
          end offsets in
      merge_copy (S j) bs' arrays offsets
  end.

Fixpoint merge_pass_two (geometries : list gref) (arrays : list OutArray)
    (offsets : list (option nat)) : M unit :=
  match geometries with
  | [] => ret tt
  | geometry :: rest =>
      g <- get_geometry geometry ;;
      bs <- nonnull (buffers g) ;;
      offsets <- merge_copy 0 bs arrays offsets ;;
      merge_pass_two rest arrays offsets
  end.

(** The loop of [merge] that finds a buffer other than the index buffer:
    the first such slot from [i] on, [0] when there is none. *)
Fixpoint find_bufferIndexToCount (i : nat) (bs : list bref) (ib : bref)
    : nat :=
  match bs with
  | [] => 0
  | b :: bs' =>
      if negb (Nat.eqb b ib) then i else find_bufferIndexToCount (S i) bs' ib
  end.

(** The loop of [merge] that sums the footprints of the attributes of
    slot [bufferIndexToCount]. *)
Definition merge_stride (attrs : list (string * Attribute))
    (bufferIndexToCount : nat) : Number :=
  fold_left
    (fun stride '(_, attribute) =>
       if Z.eqb (to_int32 (Z.of_nat (buffer attribute)))
            (Z.of_nat bufferIndexToCount)
       then num_add stride (footprint attribute)
       else stride)
    attrs (Fin 0).

(** [data[k] += offset] on the data of a Buffer; [k] is [None] for NaN.
    Outside the array the read is [undefined] and the write is lost. *)
Definition add_at (b : bref) (k : option nat) (offset : Number) : M unit :=
  bu <- get_buffer b ;;
  match data bu with
  | DataNull => throw TypeError
  | DataArray a =>
      t <- get_array a ;;
      match k with
      | Some k =>
          match elems t !! k with
          | Some v =>
              update_array a
                (fun t =>
                   {| ctor := ctor t;
                      elems :=
                        <[k:=encode_elem (ctor t)
                               (num_add (decode_elem (ctor t) v) offset)]>
                          (elems t) |})
          | None => ret tt
          end
      | None => ret tt
      end
  | DataBuffer _ => ret tt
  end.

(** The loop of [merge] that offsets the indices.  [geometry] is the
    variable of that name in the source: after the passes above it holds
    the last geometry. *)
Fixpoint merge_offset_indices (geometries : list gref) (geometry : Geometry)
    (outIndexBuffer : bref) (bufferIndexToCount : nat) (stride : Number)
    (offset : Number) (offset2 : option nat) : M unit :=
  match geometries with
  | [] => ret tt
  | gi :: rest =>
      g <- get_geometry gi ;;
      ib <- nonnull (indexBuffer g) ;;
      ibu <- get_buffer ib ;;
      len <- data_length (data ibu) ;;
      for_each
        (fun j =>
           add_at outIndexBuffer (option_map (Nat.add j) offset2) offset)
        (seq 0 (default 0 len)) ;;;
      bs <- nonnull (buffers geometry) ;;
      vb <- nonnull (bs !! bufferIndexToCount) ;;
      vbu <- get_buffer vb ;;
      vlen <- data_length (data vbu) ;;
      let offset :=
        num_add offset
          match vlen with
          | Some l => num_div (Fin (of_nat l)) stride
          | None => NaN
          end in
      let offset2 :=
        match offset2, len with
        | Some o, Some l => Some (o + l)
        | _, _ => None
        end in
      merge_offset_indices rest geometry outIndexBuffer bufferIndexToCount
        stride offset offset2
  end.

(** [Geometry.merge(geometries)] *)
Definition merge (geometries : list gref) : M gref :=
  geometryOut <- Geometry_new None None ;;
  so <- merge_pass_one geometries [] [] ;;
  geometry <- nonnull (last geometries) ;;
  g <- get_geometry geometry ;;
  bs <- nonnull (buffers g) ;;
  arrays <- merge_build geometryOut 0 bs (fst so) [] ;;
  merge_pass_two geometries arrays (snd so) ;;;
  update_geometry geometryOut (set_attributes (attributes g)) ;;;
  match indexBuffer g with
  | Some ib =>
      gout <- get_geometry geometryOut ;;
      let oib :=
        match indexOf ib bs with
        | Some i => default [] (buffers gout) !! i
        | None => None
        end in
      update_geometry geometryOut (set_indexBuffer oib) ;;;
      oib <- nonnull oib ;;
      update_buffer oib (set_index true) ;;;
      let bufferIndexToCount := find_bufferIndexToCount 0 bs ib in
      let stride :=
        merge_stride (default [] (attributes g)) bufferIndexToCount in
      merge_offset_indices geometries g oib bufferIndexToCount stride
        (Fin 0) (Some 0)
  | None => ret tt
  end ;;;
  ret geometryOut.
End Methods.

(** ** Specifications *)

(** A weakest precondition: [wp m h Q E] holds when [m], run in [h], returns
    a result and a heap in [Q], or throws an exception and a heap in [E]. *)
Definition wp {A} (m : M A) (h : Heap) (Q : A -> Heap -> Prop)
    (E : exn -> Heap -> Prop) : Prop :=
  match m h with
  | Ok a h' => Q a h'
  | Throw e h' => E e h'
  end.

(** The postconditions on exceptions of partial and of total correctness. *)
Definition may_throw : exn -> Heap -> Prop := fun _ _ => True.
Definition no_throw : exn -> Heap -> Prop := fun _ _ => False.

(** No orphan index buffer: an index buffer that is set is in the list of
    buffers. *)
Definition index_in_buffers (g : Geometry) : Prop :=
  forall ib, indexBuffer g = Some ib ->
    exists bs, buffers g = Some bs /\ ib ∈ bs.

(** [s] contains the character [c]. *)
Fixpoint contains (c : ascii) (s : string) : bool :=
  match s with
  | EmptyString => false
  | String c' s' => Ascii.eqb c' c || contains c s'
  end.

(** The references of an argument point into the heap. *)
Definition valid_arg (h : Heap) (arg : BufferArg) : Prop :=
  match arg with
  | ArgBuffer b => is_Some (h_buffers h !! b)
  | _ => True
  end.

(** The property of the geometry at [this], if there is one. *)
Definition at_geometry (this : nat) (R : Geometry -> Prop) (h : Heap) : Prop :=
  forall g, h_geometries h !! this = Some g -> R g.

(** The condition of the fast path of [interleave]: one buffer, or two
    buffers and an index buffer. *)
Definition already_interleaved (g : Geometry) : Prop :=
  exists bs, buffers g = Some bs /\
    (length bs = 1 \/ (length bs = 2 /\ is_Some (indexBuffer g))).

(** The buffers that [interleave] leaves: the interleaved buffer, followed
    by the index buffer if there is one. *)
Definition interleaved_buffers (g : Geometry) : Prop :=
  exists nb, buffers g
    = Some (nb :: match indexBuffer g with Some ib => [ib] | None => [] end).

(** The buffer list of a geometry once [buf] is registered in it, and the
    slot of [buf] in that list. *)
Definition with_buffer (buf : nat) (bs : list nat) : list nat :=
  match indexOf buf bs with
  | Some _ => bs
  | None => bs ++ [buf]
  end.

Definition slot_of (buf : nat) (bs : list nat) : nat :=
  match indexOf buf bs with
  | Some i => i
  | None => length bs
  end.

(** [g'] is [g] with [buf] registered, and with the attribute map [attrs']. *)
Definition registered (buf : nat) (bs : list nat)
    (attrs' : list (string * Attribute)) (g g' : Geometry) : Prop :=
  buffers g' = Some (with_buffer buf bs) /\
  attributes g' = Some attrs' /\
  indexBuffer g' = indexBuffer g /\
  glVertexArrayObjects g' = glVertexArrayObjects g.

(** The Buffer [buf] that [addAttribute] registers for its argument, and
    the arrays and Buffers of the heap [h'] after a call made in [h]: an
    array of numbers becomes a new Float32Array in a new Buffer; a typed
    array, or a Buffer without data, becomes the data of a new Buffer; a
    Buffer with data is registered itself, and nothing is allocated. *)
Definition buffer_of_arg `{JSRuntime} (h h' : Heap) (arg : BufferArg)
    (buf : nat) : Prop :=
  match arg with
  | ArgNone => False
  | ArgArray xs =>
      h_arrays h' = h_arrays h ++ [array_from Float32Array xs] /\
      h_buffers h'
      = h_buffers h
        ++ [{| data := DataArray (length (h_arrays h)); index := false |}] /\
      buf = length (h_buffers h)
  | ArgTyped a =>
      h_arrays h' = h_arrays h /\
      h_buffers h'
      = h_buffers h ++ [{| data := DataArray a; index := false |}] /\
      buf = length (h_buffers h)
  | ArgBuffer b =>
      h_arrays h' = h_arrays h /\
      match data <$> h_buffers h !! b with
      | Some DataNull =>
          h_buffers h'
          = h_buffers h ++ [{| data := DataBuffer b; index := false |}] /\
          buf = length (h_buffers h)
      | _ => h_buffers h' = h_buffers h /\ buf = b
      end
  end.

(** The same for [addIndex]: an array of numbers becomes a Uint16Array, and
    the Buffer registered is marked as an index buffer. *)
Definition index_of_arg `{JSRuntime} (h h' : Heap) (arg : BufferArg)
    (buf : nat) : Prop :=
  exists bu, h_buffers h' !! buf = Some bu /\ index bu = true /\
  match arg with
  | ArgNone => False
  | ArgArray xs =>
      h_arrays h' = h_arrays h ++ [array_from Uint16Array xs] /\
      h_buffers h'
      = h_buffers h
        ++ [{| data := DataArray (length (h_arrays h)); index := true |}] /\
      buf = length (h_buffers h)
  | ArgTyped a =>
      h_arrays h' = h_arrays h /\
      h_buffers h'
      = h_buffers h ++ [{| data := DataArray a; index := true |}] /\
      buf = length (h_buffers h)
  | ArgBuffer b =>
      h_arrays h' = h_arrays h /\
      match data <$> h_buffers h !! b with
      | Some DataNull =>
          h_buffers h'
          = h_buffers h ++ [{| data := DataBuffer b; index := true |}] /\
          buf = length (h_buffers h)
      | _ => h_buffers h' = alter (set_index true) b (h_buffers h) /\ buf = b
      end
  end.

(** A valid 32-bit pattern. *)
Definition word32 (w : Z) : Prop := (0 <= w < 2 ^ 32)%Z.

(** The bytes of an ArrayBuffer that holds the 32-bit words [ws]. *)
Definition word_bytes (ws : list Z) : list Z :=
  flat_map (le_bytes 4) ws.

(** Writing the elements [vs], the first of index [j], each to the word
    [d] of its index. *)
Fixpoint scatter (d : nat -> nat) (j : nat) (vs : list Z) (ws : list Z)
    : list Z :=
  match vs with
  | [] => ws
  | v :: vs' => scatter d (S j) vs' (<[d j:=v]> ws)
  end.

(** The words of attributes A, of two words, and B, of three words, in an
    interleaved buffer of five words per vertex. *)
Definition word_of_A (j : nat) : nat := 5 * (j / 2) + j mod 2.
Definition word_of_B (j : nat) : nat := 5 * (j / 3) + 2 + j mod 3.

(** The buffers [bs] hold, in this order, the typed arrays [ts]. *)
Definition holds_arrays (h : Heap) (bs : list nat) (ts : list TypedArray)
    : Prop :=
  Forall2
    (fun b t =>
       exists bu a, h_buffers h !! b = Some bu /\ data bu = DataArray a /\
                    h_arrays h !! a = Some t)
    bs ts.

(** The same, the buffers and their arrays being none of the first [nb]
    buffers and [na] arrays of the heap. *)
Definition holds_new_arrays (nb na : nat) (h : Heap) (bs : list nat)
    (ts : list TypedArray) : Prop :=
  Forall2
    (fun b t =>
       exists bu a, h_buffers h !! b = Some bu /\ data bu = DataArray a /\
                    h_arrays h !! a = Some t /\ nb <= b /\ na <= a)
    bs ts.

(** [h'] has the objects of [h], unchanged, and possibly more. *)
Definition extends (h h' : Heap) : Prop :=
  (exists l, h_arrays h' = h_arrays h ++ l) /\
  (exists l, h_buffers h' = h_buffers h ++ l) /\
  (exists l, h_geometries h' = h_geometries h ++ l).

Section Store.
Context `{JSRuntime}.

(** [array[i] = x] on a typed array: nothing is written outside the
    array. *)
Definition set_element (a : nat) (i : nat) (x : Number) : M unit :=
  update_array a
    (fun t =>
       {| ctor := ctor t;
          elems := <[i:=encode_elem (ctor t) x]> (elems t) |}).
End Store.

Section MergeSpec.
Context `{JSRuntime}.

(** The geometry at [g] has a vertex buffer, of constructor [K] and
    elements [vs], followed by a distinct index buffer, of constructor [KI]
    and elements [ixs], and the attribute map [attrs]. *)
Definition indexed_geometry (h : Heap) (g : nat)
    (attrs : list (string * Attribute)) (K KI : ArrayKind)
    (vs ixs : list Z) : Prop :=
  exists G v i bv bi av ai,
    h_geometries h !! g = Some G /\
    buffers G = Some [v; i] /\ indexBuffer G = Some i /\
    attributes G = Some attrs /\ v <> i /\
    h_buffers h !! v = Some bv /\ data bv = DataArray av /\
    h_arrays h !! av = Some {| ctor := K; elems := vs |} /\
    h_buffers h !! i = Some bi /\ data bi = DataArray ai /\
    h_arrays h !! ai = Some {| ctor := KI; elems := ixs |}.

(** [data.length / stride] for the vertex buffer of such a geometry: the
    amount by which [merge] advances the offset of the indices.  The stride
    is counted in 32-bit words, so that this is the number of vertices when
    the elements of the buffer are four bytes wide. *)
Definition vertex_count (attrs : list (string * Attribute)) (vs : list Z)
    : Number :=
  num_div (Fin (of_nat (length vs))) (merge_stride attrs 0).

(** The two buffers of a geometry with a vertex buffer [v] and an index
    buffer [i], the vertex buffer being in slot [s]: in slot [0] when the
    attributes were added first, in slot [1] when the index was. *)
Definition buffer_pair (s v i : nat) : list nat :=
  match s with
  | 0 => [v; i]
  | _ => [i; v]
  end.

(** The geometry at [g] has two buffers: a vertex buffer in slot [s], of
    constructor [K] and elements [vs], and a distinct index buffer, of
    constructor [KI] and elements [ixs]; its attribute map is [attrs], and
    every attribute reads the vertex buffer. *)
Definition mesh (s : nat) (h : Heap) (g : nat)
    (attrs : list (string * Attribute)) (K KI : ArrayKind)
    (vs ixs : list Z) : Prop :=
  exists G v i bv bi av ai,
    h_geometries h !! g = Some G /\
    buffers G = Some (buffer_pair s v i) /\ indexBuffer G = Some i /\
    attributes G = Some attrs /\ v <> i /\
    Forall (fun p => buffer p.2 = s) attrs /\
    h_buffers h !! v = Some bv /\ data bv = DataArray av /\
    h_arrays h !! av = Some {| ctor := K; elems := vs |} /\
    h_buffers h !! i = Some bi /\ data bi = DataArray ai /\
    h_arrays h !! ai = Some {| ctor := KI; elems := ixs |}.

(** The bytes of one vertex: the sum over the attributes of the number of
    components times the byte width of their type; [None] when a type is
    not in the table of widths. *)
Fixpoint vertex_bytes (attrs : list (string * Attribute)) : option N :=
  match attrs with
  | [] => Some 0%N
  | (_, attribute) :: rest =>
      match GL_SIZE_MAP (type attribute), vertex_bytes rest with
      | Some width, Some n => Some (size attribute * width + n)%N
      | _, _ => None
      end
  end.

(** The elements [vs] of a typed array of constructor [K] are the data of
    [P] vertices: its bytes are [P] times the bytes of one vertex. *)
Definition has_vertices (attrs : list (string * Attribute)) (K : ArrayKind)
    (vs : list Z) (P : nat) : Prop :=
  exists B, vertex_bytes attrs = Some B /\ (0 < B)%N /\
    length vs * BYTES_PER_ELEMENT K = P * N.to_nat B.
End MergeSpec.

(** ** A runtime for the examples *)

(** Rounding to the nearest integer, ties to even. *)
Definition round_half_even (q : Q) : Z :=
  let f := Qfloor q in
  match (q - inject_Z f ?= 1 # 2)%Q with
  | Lt => f
  | Gt => (f + 1)%Z
  | Eq => if Z.even f then f else (f + 1)%Z
  end.

Definition pow2 (e : Z) : Q :=
  if (0 <=? e)%Z then inject_Z (2 ^ e) else (1 / inject_Z (2 ^ (- e)))%Q.

(** The exponent of the binade of a positive rational. *)
Definition binade (q : Q) : Z :=
  let e := (Z.log2 (Qnum q) - Z.log2 (Zpos (Qden q)))%Z in
  if Qle_bool (pow2 e) q then e else (e - 1)%Z.

(** The binary32 pattern of a rational, rounded to nearest, ties to even. *)
Definition binary32_of_Q (q : Q) : Z :=
  if Qeq_bool q 0 then 0%Z
  else
    let s := if Qle_bool 0 q then 0%Z else (2 ^ 31)%Z in
    let a := if Qle_bool 0 q then q else (- q)%Q in
    let e := Z.max (binade a) (-126) in
    let m := round_half_even (a / pow2 (e - 23)) in
    let e' := if (m =? 2 ^ 24)%Z then (e + 1)%Z else e in
    let m' := if (m =? 2 ^ 24)%Z then (2 ^ 23)%Z else m in
    if (127 <? e')%Z then (s + 255 * 2 ^ 23)%Z
    else if (m' <? 2 ^ 23)%Z then (s + m')%Z
    else (s + (e' + 127) * 2 ^ 23 + (m' - 2 ^ 23))%Z.

Definition binary32_encode (x : Number) : Z :=
  match x with
  | Fin q => binary32_of_Q q
  | PosInf => (255 * 2 ^ 23)%Z
  | NegInf => (2 ^ 31 + 255 * 2 ^ 23)%Z
  | NaN => (255 * 2 ^ 23 + 2 ^ 22)%Z
  end.

Definition binary32_decode (w : Z) : Number :=
  let negative := (2 ^ 31 <=? w)%Z in
  let e := ((w / 2 ^ 23) mod 256)%Z in
  let m := (w mod 2 ^ 23)%Z in
  if (e =? 255)%Z then
    if (m =? 0)%Z then (if negative then NegInf else PosInf) else NaN
  else
    let a :=
      if (e =? 0)%Z then (inject_Z m * pow2 (-149))%Q
      else (inject_Z (2 ^ 23 + m) * pow2 (e - 150))%Q in
    Fin (Qred (if negative then - a else a)).

(** The byte widths of the scalar types of WebGL (BYTE to FLOAT) and
    single-precision conversions. *)
Definition example_runtime : JSRuntime :=
  {| GL_SIZE_MAP t :=
       if (t =? 5120)%Z || (t =? 5121)%Z then Some 1%N
       else if (t =? 5122)%Z || (t =? 5123)%Z then Some 2%N
       else if (t =? 5124)%Z || (t =? 5125)%Z || (t =? 5126)%Z then Some 4%N
       else None;
     f32_encode := binary32_encode;
     f32_decode := binary32_decode |}.

(** ** The operations of the no-orphan invariant *)

(** A call of one of the methods that set or copy the index buffer or the
    list of buffers. *)
Inductive Operation :=
| OpAddAttribute (this : gref) (id : string) (arg : BufferArg) (size : N)
    (normalised : bool) (type : GLenum) (stride start : option Z)
    (instance : bool)
| OpAddIndex (this : gref) (arg : BufferArg)
| OpInterleave (this : gref)
| OpClone (this : gref)
| OpMerge (geometries : list gref).

Section Operations.
Context `{JSRuntime}.

Definition perform (op : Operation) : M gref :=
  match op with
  | OpAddAttribute this id arg size normalised type stride start instance =>
      addAttribute this id arg size normalised type stride start instance
  | OpAddIndex this arg => addIndex this arg
  | OpInterleave this => interleave this
  | OpClone this => clone this
  | OpMerge geometries => merge geometries
  end.
End Operations.

(** The geometry that a call changes in place, if it changes one. *)
Definition receiver (op : Operation) : option gref :=
  match op with
  | OpAddAttribute this _ _ _ _ _ _ _ _ => Some this
  | OpAddIndex this _ => Some this
  | OpInterleave this => Some this
  | OpClone _ | OpMerge _ => None
  end.

(** The range of the elements of an integer typed array. *)
Definition min_int (k : ArrayKind) : Z :=
  if is_signed k then (- 2 ^ (8 * Z.of_nat (BYTES_PER_ELEMENT k) - 1))%Z
  else 0%Z.
Definition max_int (k : ArrayKind) : Z :=
  if is_signed k then (2 ^ (8 * Z.of_nat (BYTES_PER_ELEMENT k) - 1) - 1)%Z
  else (2 ^ (8 * Z.of_nat (BYTES_PER_ELEMENT k)) - 1)%Z.

(** ** Example scenes *)

Definition numbers (l : list Z) : list Number :=
  map (fun z => Fin (inject_Z z)) l.

(** The type tag of 32-bit floats. *)
Definition FLOAT : GLenum := 5126%Z.

(** The heap a program leaves, whether it returns or throws. *)
Definition heap_after {A} (m : M A) : Heap :=
  match m empty_heap with
  | Ok _ h => h
  | Throw _ h => h
  end.

(** A geometry of two vertices: positions of two floats and colours of
    three floats, each in a buffer of its own, and an index buffer. *)
Definition example_positions : list Number := numbers [0; 0; 100; 50]%Z.
Definition example_colours : list Number :=
  numbers [1; 0; 0; 0; 1; 0]%Z.

Definition example_scene : M gref :=
  g <- Geometry_new None None ;;
  addAttribute (H := example_runtime) g "aVertexPosition"
    (ArgArray example_positions) 2 false FLOAT None None false ;;;
  addAttribute (H := example_runtime) g "aColor"
    (ArgArray example_colours) 3 false FLOAT None None false ;;;
  addIndex (H := example_runtime) g (ArgArray (numbers [0; 1; 1]%Z)).

Definition example_heap : Heap := Eval vm_compute in heap_after example_scene.

(** The heap after the interleaving of that geometry. *)
Definition interleaved_heap : Heap :=
  Eval vm_compute in
    heap_after (g <- example_scene ;; interleave (H := example_runtime) g).

(** A geometry without index buffer. *)
Definition fresh_heap : Heap :=
  Eval vm_compute in heap_after (Geometry_new None None).

(** A geometry of one float per vertex with an index buffer; its vertex
    buffer is the typed array at [2 * n] and its index buffer the one at
    [2 * n + 1] when it is the [n]-th geometry made so in an empty heap. *)
Definition indexed_scene (vertices indices : list Z) : M gref :=
  g <- Geometry_new None None ;;
  addAttribute (H := example_runtime) g "aValue" (ArgArray (numbers vertices))
    1 false FLOAT None None false ;;;
  addIndex (H := example_runtime) g (ArgArray (numbers indices)).

(** Two geometries of three and of four vertices. *)
Definition unequal_heap : Heap :=
  Eval vm_compute in
    heap_after (indexed_scene [7; 8; 9]%Z [0; 1; 2]%Z ;;;
                indexed_scene [1; 2; 3; 4]%Z [0; 1; 2; 3]%Z).

(** Two geometries of three vertices each. *)
Definition triangles_heap : Heap :=
  Eval vm_compute in
    heap_after (indexed_scene [7; 8; 9]%Z [0; 1; 2]%Z ;;;
                indexed_scene [4; 5; 6]%Z [0; 1; 2]%Z).

(** The attribute map of these geometries. *)
Definition value_attributes : list (string * Attribute) :=
  [("aValue"%string, Attribute_new 0 1 false FLOAT None None false)].

(** Two geometries with the attribute map [attrs], each with the vertex
    data [vs] in a typed array of constructor [K], followed by the indices
    [ixs] in a typed array of constructor [KI]. *)
Definition pair_heap (attrs : list (string * Attribute)) (K KI : ArrayKind)
    (vs ixs : list Z) : Heap :=
  let vertices := {| ctor := K; elems := vs |} in
  let indices := {| ctor := KI; elems := ixs |} in
  let geometry v i :=
    {| buffers := Some [v; i]; indexBuffer := Some i;
       attributes := Some attrs; glVertexArrayObjects := Some [] |} in
  {| h_arrays := [vertices; indices; vertices; indices];
     h_buffers :=
       [{| data := DataArray 0; index := false |};
        {| data := DataArray 1; index := true |};
        {| data := DataArray 2; index := false |};
        {| data := DataArray 3; index := true |}];
     h_geometries := [geometry 0 1; geometry 2 3] |}.

(** The type tag of unsigned bytes. *)
Definition UNSIGNED_BYTE : GLenum := 5121%Z.

(** Colours of four normalised bytes, and positions of two floats. *)
Definition colour_attributes : list (string * Attribute) :=
  [("aColor"%string, Attribute_new 0 4 true UNSIGNED_BYTE None None false)].
Definition position_attributes : list (string * Attribute) :=
  [("aVertexPosition"%string, Attribute_new 0 2 false FLOAT None None false)].

(** * Properties *)

(** ** Rules of the weakest precondition *)

Section Rules.
Context {A B : Type}.
Implicit Types (Q : A -> Heap -> Prop) (E : exn -> Heap -> Prop).

Lemma wp_ret (a : A) h Q E : Q a h -> wp (ret a) h Q E.
Proof. done. Qed.

Lemma wp_throw e h Q E : E e h -> wp (@throw A e) h Q E.
Proof. done. Qed.

Lemma wp_bind (m : M B) (k : B -> M A) h Q E :
  wp m h (fun b h' => wp (k b) h' Q E) E -> wp (bind m k) h Q E.
Proof. unfold wp, bind. by destruct (m h). Qed.

Lemma wp_mono (m : M A) h Q Q' E E' :
  wp m h Q E ->
  (forall a h', Q a h' -> Q' a h') ->
  (forall e h', E e h' -> E' e h') ->
  wp m h Q' E'.
Proof. unfold wp. destruct (m h); auto. Qed.

Lemma wp_ok (m : M A) h Q E a h' : wp m h Q E -> m h = Ok a h' -> Q a h'.
Proof. unfold wp. intros Hwp Heq. by rewrite Heq in Hwp. Qed.

Lemma wp_total (m : M A) h Q :
  wp m h Q no_throw -> exists a h', m h = Ok a h' /\ Q a h'.
Proof. unfold wp. destruct (m h); [eauto | done]. Qed.

Lemma wp_nonnull (o : option A) h Q E :
  match o with Some a => Q a h | None => E TypeError h end ->
  wp (nonnull o) h Q E.
Proof. by destruct o. Qed.
End Rules.

Lemma wp_get_geometry g h Q E :
  match h_geometries h !! g with
  | Some x => Q x h
  | None => E TypeError h
  end -> wp (get_geometry g) h Q E.
Proof. unfold wp, get_geometry. by destruct (_ !! _). Qed.

Lemma wp_get_buffer b h Q E :
  match h_buffers h !! b with
  | Some x => Q x h
  | None => E TypeError h
  end -> wp (get_buffer b) h Q E.
Proof. unfold wp, get_buffer. by destruct (_ !! _). Qed.

Lemma wp_get_array a h Q E :
  match h_arrays h !! a with
  | Some x => Q x h
  | None => E TypeError h
  end -> wp (get_array a) h Q E.
Proof. unfold wp, get_array. by destruct (_ !! _). Qed.

Lemma wp_for_each {A} (I : Heap -> Prop) (f : A -> M unit) l h E :
  I h ->
  (forall x h, x ∈ l -> I h -> wp (f x) h (fun _ h' => I h') E) ->
  wp (for_each f l) h (fun _ h' => I h') E.
Proof.
  revert h. induction l as [|x l IH]; intros h HI Hf; [done|].
  simpl. apply wp_bind.
  eapply wp_mono; [apply Hf; [left | done] | | done].
  intros [] h' HI'. apply IH; [done|].
  intros y h'' Hy. apply Hf. by right.
Qed.

Lemma wp_any {A} (m : M A) h (Q : A -> Heap -> Prop) :
  (forall a h', m h = Ok a h' -> Q a h') -> wp m h Q may_throw.
Proof. unfold wp. destruct (m h); [auto | done]. Qed.

Lemma wp_run {A} (m : M A) h a h' (Q : A -> Heap -> Prop) :
  m h = Ok a h' -> wp m h Q may_throw -> Q a h'.
Proof. intros Hrun Hwp. by eapply wp_ok. Qed.

Lemma wp_alloc_array t h Q E :
  Q (length (h_arrays h)) (with_arrays (fun l => l ++ [t]) h) ->
  wp (alloc_array t) h Q E.
Proof. done. Qed.

Lemma wp_alloc_buffer b h Q E :
  Q (length (h_buffers h)) (with_buffers (fun l => l ++ [b]) h) ->
  wp (alloc_buffer b) h Q E.
Proof. done. Qed.

Lemma wp_alloc_geometry g h Q E :
  Q (length (h_geometries h)) (with_geometries (fun l => l ++ [g]) h) ->
  wp (alloc_geometry g) h Q E.
Proof. done. Qed.

Lemma wp_update_array a f h Q E :
  Q tt (with_arrays (fun l => alter f a l) h) -> wp (update_array a f) h Q E.
Proof. done. Qed.

Lemma wp_update_buffer b f h Q E :
  Q tt (with_buffers (fun l => alter f b l) h) -> wp (update_buffer b f) h Q E.
Proof. done. Qed.

Lemma wp_update_geometry g f h Q E :
  Q tt (with_geometries (fun l => alter f g l) h) ->
  wp (update_geometry g f) h Q E.
Proof. done. Qed.

Lemma wp_Buffer_new_some d h Q E :
  Q (length (h_buffers h))
    (with_buffers (fun l => l ++ [{| data := d; index := false |}]) h) ->
  wp (Buffer_new (Some d)) h Q E.
Proof. done. Qed.

Lemma wp_slice_array a h Q E :
  match h_arrays h !! a with
  | Some t => Q (length (h_arrays h)) (with_arrays (fun l => l ++ [t]) h)
  | None => E TypeError h
  end -> wp (slice (DataArray a)) h Q E.
Proof.
  intros HQ. unfold slice. apply wp_bind, wp_get_array.
  by destruct (_ !! _).
Qed.

Ltac wp_step :=
  lazymatch goal with
  | |- wp (Buffer_new (Some _)) _ _ _ => apply wp_Buffer_new_some
  | |- wp (slice (DataArray _)) _ _ _ => apply wp_slice_array
  | |- wp (bind _ _) _ _ _ => apply wp_bind
  | |- wp (ret _) _ _ _ => apply wp_ret
  | |- wp (throw _) _ _ _ => apply wp_throw
  | |- wp (nonnull _) _ _ _ => apply wp_nonnull
  | |- wp (get_geometry _) _ _ _ => apply wp_get_geometry
  | |- wp (get_buffer _) _ _ _ => apply wp_get_buffer
  | |- wp (get_array _) _ _ _ => apply wp_get_array
  | |- wp (alloc_array _) _ _ _ => apply wp_alloc_array
  | |- wp (alloc_buffer _) _ _ _ => apply wp_alloc_buffer
  | |- wp (alloc_geometry _) _ _ _ => apply wp_alloc_geometry
  | |- wp (update_array _ _) _ _ _ => apply wp_update_array
  | |- wp (update_buffer _ _) _ _ _ => apply wp_update_buffer
  | |- wp (update_geometry _ _) _ _ _ => apply wp_update_geometry
  end.

Ltac heap_simpl :=
  cbn [h_arrays h_buffers h_geometries with_arrays with_buffers
       with_geometries] in *.

Ltac wp_steps := repeat (wp_step; heap_simpl).

Ltac obj_simpl :=
  cbn [fmap option_fmap option_map buffers attributes indexBuffer
       glVertexArrayObjects set_buffers set_attributes set_indexBuffer
       set_glVertexArrayObjects data index set_data set_index] in *.

(** ** Lists, property maps and strings *)

Lemma indexOf_Some x l i : indexOf x l = Some i -> l !! i = Some x.
Proof.
  revert i. induction l as [|y l IH]; intros i; simpl; [done|].
  destruct (Nat.eqb_spec x y) as [->|Hne].
  - by intros [= <-].
  - destruct (indexOf x l) as [j|]; simpl; [|done].
    intros [= <-]. simpl. by apply IH.
Qed.

Lemma indexOf_None x l : indexOf x l = None -> x ∉ l.
Proof.
  induction l as [|y l IH]; simpl; [intros _; apply not_elem_of_nil|].
  destruct (Nat.eqb_spec x y) as [->|Hne]; [done|].
  destruct (indexOf x l) as [j|]; simpl; [done|].
  intros _. apply not_elem_of_cons. split; [done | by apply IH].
Qed.

Lemma elem_indexOf x l : x ∈ l -> exists i, indexOf x l = Some i.
Proof.
  intros Hin. destruct (indexOf x l) as [i|] eqn:Hi; [by exists i|].
  by apply indexOf_None in Hi.
Qed.

Lemma indexOf_elem x l i : indexOf x l = Some i -> x ∈ l.
Proof. intros Hi. eapply list_elem_of_lookup_2, indexOf_Some, Hi. Qed.

Lemma indexOf_app_l x l k i : indexOf x l = Some i -> indexOf x (l ++ k) = Some i.
Proof.
  revert i. induction l as [|y l IH]; intros i; simpl; [done|].
  destruct (Nat.eqb x y); [done|].
  destruct (indexOf x l) as [j|]; simpl; [|done].
  intros [= <-]. by rewrite (IH j).
Qed.

Lemma indexOf_snoc_None x l : indexOf x l = None -> indexOf x (l ++ [x]) = Some (length l).
Proof.
  induction l as [|y l IH]; simpl.
  - by rewrite Nat.eqb_refl.
  - destruct (Nat.eqb x y); [done|].
    destruct (indexOf x l) as [j|]; simpl; [done|].
    intros _. by rewrite IH.
Qed.

(** ** No orphan index buffer *)

Lemma index_in_buffers_set_attributes a g :
  index_in_buffers g -> index_in_buffers (set_attributes a g).
Proof. done. Qed.

Lemma index_in_buffers_snoc g bs b :
  buffers g = Some bs -> index_in_buffers g ->
  index_in_buffers (set_buffers (Some (bs ++ [b])) g).
Proof.
  intros Hbs Hg ib Hib. destruct (Hg ib Hib) as (bs' & Hbs' & Hin).
  exists (bs ++ [b]). split; [done|].
  rewrite Hbs in Hbs'. injection Hbs' as <-. apply elem_of_app. by left.
Qed.

Lemma at_geometry_alter this R R' f h :
  at_geometry this R h ->
  (forall g, h_geometries h !! this = Some g -> R g -> R' (f g)) ->
  at_geometry this R'
    (with_geometries (fun l => alter f this l) h).
Proof.
  intros HR Hf g. simpl. rewrite list_lookup_alter_eq.
  destruct (h_geometries h !! this) as [g0|] eqn:Hg; simpl; [|done].
  intros [= <-]. by apply Hf, HR.
Qed.

Section OrphanFree.
Context `{JSRuntime}.

Lemma index_in_buffers_addIndex this arg h r h' :
  addIndex this arg h = Ok r h' ->
  at_geometry this index_in_buffers h'.
Proof.
  intros Hrun.
  apply (wp_run _ _ _ _
            (fun _ h' => at_geometry this index_in_buffers h') Hrun).
  unfold addIndex. apply wp_bind, wp_any. intros buf h1 _.
  wp_steps.
  destruct (h_buffers h1 !! buf) as [bu|]; [|done]. wp_steps.
  destruct (h_geometries h1 !! this) as [g|] eqn:Hg; [|done]. wp_steps.
  rewrite list_lookup_alter_eq, Hg. simpl. wp_steps.
  destruct (buffers g) as [bs|] eqn:Hbs; [|done].
  destruct (indexOf buf bs) as [i|] eqn:Hi; wp_steps; intros g'; heap_simpl.
  - rewrite list_lookup_alter_eq, Hg. intros [= <-] ib [= <-].
    exists bs. split; [done|]. by eapply indexOf_elem.
  - rewrite !list_lookup_alter_eq, Hg. intros [= <-] ib [= <-].
    exists (bs ++ [buf]). split; [done|]. apply elem_of_app. right. by left.
Qed.

Lemma index_in_buffers_register this id buf size normalised type stride start
    instance h :
  at_geometry this index_in_buffers h ->
  wp (addAttribute_register this id buf size normalised type stride start
        instance) h
    (fun _ h' => at_geometry this index_in_buffers h') may_throw.
Proof.
  intros HI. unfold addAttribute_register. wp_steps.
  destruct (h_geometries h !! this) as [g|] eqn:Hg; [|done]. wp_steps.
  destruct (buffers g) as [bs|] eqn:Hbs; [|done]. wp_step.
  destruct (indexOf buf bs) as [i|] eqn:Hi; wp_steps.
  - rewrite Hg. wp_steps. destruct (attributes g); [|done]. wp_steps.
    eapply at_geometry_alter; [done|]. by intros.
  - rewrite list_lookup_alter_eq, Hg. simpl. wp_steps.
    destruct (attributes g); [|done]. wp_steps.
    eapply at_geometry_alter; [eapply at_geometry_alter; [done|]|].
    + intros g0 Hg0 Hinv. rewrite Hg in Hg0. injection Hg0 as <-.
      by apply index_in_buffers_snoc.
    + by intros.
Qed.

Lemma index_in_buffers_body self this id arg size normalised type stride start
    instance h :
  (forall this id arg size normalised type stride start instance h,
     at_geometry this index_in_buffers h ->
     wp (self this id arg size normalised type stride start instance) h
       (fun _ h' => at_geometry this index_in_buffers h') may_throw) ->
  at_geometry this index_in_buffers h ->
  wp (addAttribute_body self this id arg size normalised type stride start
        instance) h
    (fun _ h' => at_geometry this index_in_buffers h') may_throw.
Proof.
  intros Hself HI. unfold addAttribute_body. apply wp_bind.
  apply wp_mono with
    (Q := fun _ h' => at_geometry this index_in_buffers h') (E := may_throw);
    [|clear h HI|done].
  - destruct arg as [|xs|a|b]; unfold Buffer_new; wp_steps; try done.
    destruct (h_buffers h !! b) as [bu|]; [|done].
    destruct (data bu); unfold Buffer_new; wp_steps; done.
  - intros buf h HI. destruct (1 <? length (split separator id)).
    + apply wp_bind.
      eapply wp_mono;
        [apply (wp_for_each (at_geometry this index_in_buffers)); [done|]
        | |done].
      * intros idi h0 _ HI0. apply wp_bind.
        eapply wp_mono; [by apply Hself| |done]. by intros.
      * by intros.
    + by apply index_in_buffers_register.
Qed.

Lemma index_in_buffers_addAttribute this id arg size normalised type stride
    start instance h r h' :
  at_geometry this index_in_buffers h ->
  addAttribute this id arg size normalised type stride start instance h
  = Ok r h' ->
  at_geometry this index_in_buffers h'.
Proof.
  intros HI Hrun.
  apply (wp_run _ _ _ _
            (fun _ h' => at_geometry this index_in_buffers h') Hrun).
  apply index_in_buffers_body; [|done].
  intros. apply index_in_buffers_body; [|done].
  intros. by apply wp_ret.
Qed.
End OrphanFree.

(** ** Interleaving: the shape of the result *)

Lemma wp_Buffer_destroy_geometries b h :
  wp (Buffer_destroy b) h
    (fun _ h' => h_geometries h' = h_geometries h) may_throw.
Proof.
  unfold Buffer_destroy. wp_steps. destruct (h_buffers h !! b); [|done].
  by wp_steps.
Qed.

Lemma interleaved_buffers_already g :
  interleaved_buffers g -> already_interleaved g.
Proof.
  intros [nb Hbs]. eexists. split; [done|].
  destruct (indexBuffer g); simpl; eauto.
Qed.

Section InterleaveShape.
Context `{JSRuntime}.

Lemma interleave_fast this h g :
  h_geometries h !! this = Some g ->
  already_interleaved g ->
  interleave this h = Ok this h.
Proof.
  intros Hg (bs & Hbs & Hlen). unfold interleave, bind, get_geometry.
  rewrite Hg. simpl. rewrite Hbs. simpl.
  destruct Hlen as [->|[-> Hib]]; [done|].
  simpl. by rewrite bool_decide_eq_true_2.
Qed.

Lemma interleave_shape this h r h' :
  interleave this h = Ok r h' ->
  r = this /\
  exists g', h_geometries h' !! this = Some g' /\
    ((h' = h /\ already_interleaved g') \/ interleaved_buffers g').
Proof.
  intros Hrun.
  apply (wp_run _ _ _ _
            (fun r h' => r = this /\
               exists g', h_geometries h' !! this = Some g' /\
                 ((h' = h /\ already_interleaved g')
                  \/ interleaved_buffers g')) Hrun).
  unfold interleave. wp_steps.
  destruct (h_geometries h !! this) as [g|] eqn:Hg; [|done]. wp_steps.
  destruct (buffers g) as [bs|] eqn:Hbs; [|done].
  destruct (_ || _) eqn:Hfast.
  { wp_steps. split; [done|]. exists g. split; [done|]. left.
    split; [done|]. exists bs. split; [done|].
    apply orb_true_iff in Hfast as [Hl|Hl].
    - left. by apply Nat.eqb_eq.
    - apply andb_true_iff in Hl as [Hl Hib]. right.
      split; [by apply Nat.eqb_eq | by apply bool_decide_eq_true in Hib]. }
  clear Hfast. apply wp_bind, wp_any. intros nb h1 _.
  apply wp_bind, wp_any. intros collected h2 _.
  apply wp_bind, wp_any. intros a h3 _. wp_steps.
  destruct (h_geometries h3 !! this) as [g3|] eqn:Hg3; [|done]. wp_steps.
  destruct (buffers g3) as [bs3|] eqn:Hbs3; [|done]. wp_steps.
  eapply wp_mono;
    [apply (wp_for_each (fun h' => h_geometries h' = h_geometries h3));
     [done|] | |done].
  - intros b h4 _ Hh4. destruct (is_not b (indexBuffer g3)).
    + eapply wp_mono; [apply wp_Buffer_destroy_geometries| |done].
      simpl. intros _ h5 ->. done.
    + by wp_steps.
  - intros [] h4 Hh4. heap_simpl. wp_steps.
    destruct (indexBuffer g3) as [ib|] eqn:Hib; wp_steps.
    + split; [done|]. rewrite Hh4, !list_lookup_alter_eq, Hg3. simpl.
      eexists. split; [done|]. right. exists nb. simpl. by rewrite Hib.
    + split; [done|]. rewrite Hh4, !list_lookup_alter_eq, Hg3. simpl.
      eexists. split; [done|]. right. exists nb. simpl. by rewrite Hib.
Qed.

Lemma interleave_twice this h r h1 :
  interleave this h = Ok r h1 ->
  r = this /\ interleave this h1 = Ok this h1.
Proof.
  intros Hrun. destruct (interleave_shape _ _ _ _ Hrun)
    as (-> & g' & Hg' & Hcase).
  split; [done|]. eapply interleave_fast; [done|].
  destruct Hcase as [[_ Hfast]|Hnew]; [done|].
  by apply interleaved_buffers_already.
Qed.

Lemma index_in_buffers_interleave this h r h' :
  at_geometry this index_in_buffers h ->
  interleave this h = Ok r h' ->
  at_geometry this index_in_buffers h'.
Proof.
  intros HI Hrun. destruct (interleave_shape _ _ _ _ Hrun)
    as (-> & g' & Hg' & Hcase).
  intros g Hg. rewrite Hg' in Hg. injection Hg as <-.
  destruct Hcase as [[-> _]|[nb Hnew]]; [by apply HI|].
  intros ib Hib. rewrite Hib in Hnew. eexists. split; [done|].
  right. by left.
Qed.
End InterleaveShape.

(** ** What the loops of clone and merge leave unchanged *)

Ltac wp_case :=
  lazymatch goal with
  | |- match ?x with _ => _ end => destruct x eqn:?
  | |- wp (match ?x with _ => _ end) _ _ _ => destruct x eqn:?
  | |- wp (if ?x then _ else _) _ _ _ => destruct x eqn:?
  end.

Ltac wp_auto := repeat first [done | wp_step; heap_simpl | wp_case].

Section Frames.
Context `{JSRuntime}.

Lemma wp_data_length d h :
  wp (data_length d) h (fun _ h' => h' = h) may_throw.
Proof. unfold data_length. wp_auto. Qed.

Lemma wp_merge_sizes j bs sizes offsets h :
  wp (merge_sizes j bs sizes offsets) h (fun _ h' => h' = h) may_throw.
Proof.
  revert j sizes offsets. induction bs as [|b bs IH]; intros; simpl.
  - by wp_steps.
  - wp_steps. wp_case; [|done]. wp_step.
    eapply wp_mono; [apply wp_data_length| |done].
    intros len h' ->. apply IH.
Qed.

Lemma wp_merge_pass_one gs sizes offsets h :
  wp (merge_pass_one gs sizes offsets) h (fun _ h' => h' = h) may_throw.
Proof.
  revert sizes offsets. induction gs as [|g gs IH]; intros; simpl.
  - by wp_steps.
  - wp_steps. wp_case; [|done]. wp_steps. wp_case; [|done]. wp_step.
    eapply wp_mono; [apply wp_merge_sizes| |done].
    intros so h' ->. apply IH.
Qed.

Lemma wp_typed_set_geometries target source offset h :
  wp (typed_set target source offset) h
    (fun _ h' => h_geometries h' = h_geometries h) may_throw.
Proof. unfold typed_set. wp_auto. Qed.

Lemma wp_merge_copy_geometries j bs arrays offsets h :
  wp (merge_copy j bs arrays offsets) h
    (fun _ h' => h_geometries h' = h_geometries h) may_throw.
Proof.
  revert j offsets h. induction bs as [|b bs IH]; intros; simpl.
  - by wp_steps.
  - wp_steps. wp_case; [|done]. wp_steps. wp_case; [|done]. wp_step.
    apply wp_mono with
      (Q := fun _ h' => h_geometries h' = h_geometries h) (E := may_throw);
      [|intros [] h1 Hh1; wp_step; eapply wp_mono;
         [apply wp_data_length|intros len h2 ->|done];
         eapply wp_mono; [apply IH|intros ? h3 ->; exact Hh1|done]
       |done].
    wp_case; [apply wp_typed_set_geometries|done].
Qed.

Lemma wp_merge_pass_two_geometries gs arrays offsets h :
  wp (merge_pass_two gs arrays offsets) h
    (fun _ h' => h_geometries h' = h_geometries h) may_throw.
Proof.
  revert offsets h. induction gs as [|g gs IH]; intros; simpl.
  - by wp_steps.
  - wp_steps. wp_case; [|done]. wp_steps. wp_case; [|done]. wp_step.
    eapply wp_mono; [apply wp_merge_copy_geometries| |done].
    intros offs h1 Hh1. eapply wp_mono; [apply IH| |done].
    intros ? h2 ->. done.
Qed.

Lemma wp_add_at_geometries b k offset h :
  wp (add_at b k offset) h
    (fun _ h' => h_geometries h' = h_geometries h) may_throw.
Proof. unfold add_at. wp_auto. Qed.

Lemma wp_merge_offset_indices_geometries gs geometry oib count stride offset
    offset2 h :
  wp (merge_offset_indices gs geometry oib count stride offset offset2) h
    (fun _ h' => h_geometries h' = h_geometries h) may_throw.
Proof.
  revert offset offset2 h. induction gs as [|g gs IH]; intros; simpl.
  - by wp_steps.
  - wp_steps. wp_case; [|done]. wp_steps. wp_case; [|done]. wp_steps.
    wp_case; [|done]. wp_step.
    eapply wp_mono; [apply wp_data_length| |done]. intros len h1 ->.
    wp_step.
    eapply wp_mono;
      [apply (wp_for_each (fun h' => h_geometries h' = h_geometries h));
       [done|] | |done].
    + intros j h1 _ Hh1. eapply wp_mono; [apply wp_add_at_geometries| |done].
      simpl. by intros _ h2 ->.
    + intros [] h1 Hh1. wp_steps. wp_case; [|done]. wp_steps.
      wp_case; [|done]. wp_steps. wp_case; [|done]. wp_step.
      eapply wp_mono; [apply wp_data_length| |done]. intros vlen h2 ->.
      eapply wp_mono; [apply IH| |done]. by intros ? h3 ->.
Qed.
End Frames.

(** ** No orphan index buffer: clone and merge *)

Lemma lookup_snoc_new {A} (l : list A) x : (l ++ [x]) !! length l = Some x.
Proof. by rewrite lookup_app_r, Nat.sub_diag. Qed.

Lemma index_in_buffers_resolved (G : list Geometry) (out : nat) g i x :
  G !! out = Some g ->
  default [] (buffers g) !! i = Some x ->
  forall g', alter (set_indexBuffer (Some x)) out G !! out = Some g' ->
    index_in_buffers g'.
Proof.
  intros Hg Hx g'. rewrite list_lookup_alter_eq, Hg. intros [= <-] ib [= <-].
  simpl. destruct (buffers g) as [bs|]; [|done].
  exists bs. split; [done|]. by eapply list_elem_of_lookup_2.
Qed.

Lemma wp_Geometry_new bs attrs h Q E :
  (forall h0 out,
     h_arrays h0 = h_arrays h ->
     h_buffers h0 = h_buffers h ->
     h_geometries h0
     = h_geometries h ++ [{| buffers := Some (default [] bs);
                             indexBuffer := None;
                             attributes := Some (default [] attrs);
                             glVertexArrayObjects := Some [] |}] ->
     at_geometry out (fun g => indexBuffer g = None) h0 ->
     Q out h0) ->
  wp (Geometry_new bs attrs) h Q E.
Proof.
  intros HQ. unfold Geometry_new. wp_steps. apply HQ; try done.
  intros g. simpl. rewrite lookup_snoc_new. by intros [= <-].
Qed.

Section OrphanFreeNew.
Context `{JSRuntime}.

Lemma index_in_buffers_clone this h r h' :
  clone this h = Ok r h' -> at_geometry r index_in_buffers h'.
Proof.
  intros Hrun.
  apply (wp_run _ _ _ _
           (fun r h' => at_geometry r index_in_buffers h') Hrun).
  unfold clone. wp_step. apply wp_Geometry_new.
  clear Hrun. intros h0 geometry _ _ _ HJ. clear h. revert HJ.
  generalize h0. clear h0. intros h HJ. wp_steps.
  wp_case; [|done]. wp_steps. wp_case; [|done]. wp_step.
  apply wp_mono with
    (Q := fun _ h' => at_geometry geometry (fun g => indexBuffer g = None) h')
    (E := may_throw); [| |done].
  { apply (wp_for_each
             (at_geometry geometry (fun g => indexBuffer g = None)));
      [done|].
    intros b h1 _ HJ1. wp_steps. wp_case; [|done]. wp_step.
    unfold slice, Buffer_new. wp_case; wp_steps; try done.
    wp_case; [|done]. wp_steps.
    eapply at_geometry_alter; [done|]. by intros. }
  intros [] h1 HJ1. wp_step.
  apply wp_mono with
    (Q := fun _ h' => at_geometry geometry (fun g => indexBuffer g = None) h')
    (E := may_throw); [| |done].
  { apply (wp_for_each
             (at_geometry geometry (fun g => indexBuffer g = None)));
      [done|].
    intros [i attrib] h2 _ HJ2. wp_steps.
    eapply at_geometry_alter; [done|]. by intros. }
  intros [] h2 HJ2. wp_step. wp_case.
  - wp_steps. wp_case; [|done].
    destruct (indexOf _ _) as [i|]; [|by wp_steps].
    wp_steps. wp_case; [|done]. wp_steps.
    intros g'. heap_simpl. by eapply index_in_buffers_resolved.
  - wp_steps. intros g' Hg' ib Hib. by rewrite (HJ2 g' Hg') in Hib.
Qed.

Lemma wp_merge_build_no_index out i bs sizes arrays h :
  at_geometry out (fun g => indexBuffer g = None) h ->
  wp (merge_build out i bs sizes arrays) h
    (fun _ h' => at_geometry out (fun g => indexBuffer g = None) h')
    may_throw.
Proof.
  revert i arrays h. induction bs as [|b bs IH]; intros i arrays h HJ; simpl.
  - by wp_steps.
  - wp_steps. wp_case; [|done]. wp_step.
    apply wp_mono with
      (Q := fun _ h' => at_geometry out (fun g => indexBuffer g = None) h')
      (E := may_throw); [| |done].
    + unfold Buffer_new. wp_case; wp_steps; try done.
      wp_case; [|done]. by wp_steps.
    + intros array h1 HJ1. unfold Buffer_new. wp_steps. apply IH.
      eapply at_geometry_alter; [done|]. by intros.
Qed.

Lemma index_in_buffers_merge gs h r h' :
  merge gs h = Ok r h' -> at_geometry r index_in_buffers h'.
Proof.
  intros Hrun.
  apply (wp_run _ _ _ _
           (fun r h' => at_geometry r index_in_buffers h') Hrun).
  unfold merge. wp_step. apply wp_Geometry_new.
  clear Hrun. intros h0 out _ _ _ HJ. clear h. revert HJ.
  generalize h0. clear h0. intros h HJ. wp_step.
  eapply wp_mono; [apply wp_merge_pass_one| |done]. intros so h0 ->.
  wp_steps. wp_case; [|done]. wp_steps. wp_case; [|done]. wp_steps.
  wp_case; [|done]. wp_step.
  eapply wp_mono; [by apply wp_merge_build_no_index| |done].
  intros arrays h1 HJ1. wp_step.
  eapply wp_mono; [apply wp_merge_pass_two_geometries| |done].
  intros [] h2 Hh2. wp_steps. wp_case.
  - wp_steps. rewrite Hh2, list_lookup_alter_eq.
    destruct (h_geometries h1 !! out) as [g1|] eqn:Hg1; [|done]. simpl.
    destruct (indexOf _ _) as [i|]; [|by wp_steps].
    wp_steps. wp_case; [|done]. wp_steps.
    eapply wp_mono; [apply wp_merge_offset_indices_geometries| |done].
    intros [] h3 Hh3. wp_steps. intros g'. rewrite Hh3. heap_simpl.
    eapply (index_in_buffers_resolved _ _
              (set_attributes (attributes g) g1)); [|done].
    by rewrite Hh2, list_lookup_alter_eq, Hg1.
  - wp_steps. intros g'. heap_simpl. rewrite Hh2, list_lookup_alter_eq.
    destruct (h_geometries h1 !! out) as [g1|] eqn:Hg1; [|done].
    simpl. intros [= <-] ib Hib. simpl in Hib.
    by rewrite (HJ1 g1 Hg1) in Hib.
Qed.
End OrphanFreeNew.

(** ** Splitting names *)

Lemma split_nonempty sep s : split sep s <> [].
Proof.
  destruct s as [|c s]; simpl; [done|].
  destruct (Ascii.eqb c sep); [done|]. by destruct (split sep s).
Qed.

Lemma split_no_sep sep s : contains sep s = false -> split sep s = [s].
Proof.
  induction s as [|c s IH]; simpl; [done|].
  destruct (Ascii.eqb c sep); simpl; [done|]. by intros ->%IH.
Qed.

Lemma split_contains sep s :
  contains sep s = true -> (1 <? length (split sep s)) = true.
Proof.
  induction s as [|c s IH]; simpl; [done|].
  destruct (Ascii.eqb c sep); simpl.
  - intros _. pose proof (split_nonempty sep s).
    by destruct (split sep s).
  - intros Hc. specialize (IH Hc). by destruct (split sep s).
Qed.

Lemma split_parts sep s p : p ∈ split sep s -> contains sep p = false.
Proof.
  revert p. induction s as [|c s IH]; simpl; intros p.
  - by intros ->%list_elem_of_singleton.
  - destruct (Ascii.eqb c sep) eqn:Hc.
    + intros [->|Hp]%elem_of_cons; [done | by apply IH].
    + pose proof (split_nonempty sep s) as Hne.
      destruct (split sep s) as [|q qs]; [done|].
      intros [->|Hp]%elem_of_cons.
      * simpl. rewrite Hc. simpl. apply IH. by left.
      * apply IH. by right.
Qed.

Lemma contains_not_part sep s : contains sep s = true -> s ∉ split sep s.
Proof. intros Hc Hin. apply split_parts in Hin. congruence. Qed.

(** ** Property maps *)

Section PropertyMapLemmas.
Context {V : Type}.
Implicit Types (m : list (string * V)) (k : string) (v : V).

Lemma attr_lookup_replace_eq k v m :
  is_Some (attr_lookup k m) -> attr_lookup k (attr_replace k v m) = Some v.
Proof.
  induction m as [|[k' v'] m IH]; simpl; [by intros [? ?]|].
  destruct (String.eqb k k') eqn:Hk; simpl; rewrite Hk; [done|]. apply IH.
Qed.

Lemma attr_lookup_replace_ne k k' v m :
  k <> k' -> attr_lookup k' (attr_replace k v m) = attr_lookup k' m.
Proof.
  intros Hne. induction m as [|[k0 v0] m IH]; simpl; [done|].
  destruct (String.eqb_spec k k0) as [->|Hk]; simpl.
  - destruct (String.eqb_spec k' k0) as [->|Hk']; done.
  - by rewrite IH.
Qed.

Lemma attr_lookup_insert_new_eq k v m :
  attr_lookup k m = None -> attr_lookup k (attr_insert_new k v m) = Some v.
Proof.
  induction m as [|[k' v'] m IH]; simpl; [by rewrite String.eqb_refl|].
  destruct (String.eqb k k') eqn:Hk; [done|]. intros Hm.
  destruct (array_index k) as [n|], (array_index k') as [n'|]; simpl;
    [destruct (n <? n')%N; simpl|..];
    rewrite ?String.eqb_refl, ?Hk; auto.
Qed.

Lemma attr_lookup_insert_new_ne k k' v m :
  k <> k' -> attr_lookup k' (attr_insert_new k v m) = attr_lookup k' m.
Proof.
  intros Hne. apply String.eqb_neq in Hne. rewrite String.eqb_sym in Hne.
  induction m as [|[k0 v0] m IH]; simpl; [by rewrite Hne|].
  destruct (array_index k) as [n|], (array_index k0) as [n0|]; simpl;
    [destruct (n <? n0)%N; simpl|..]; rewrite ?Hne, ?IH; auto.
Qed.

Lemma attr_lookup_set_eq k v m : attr_lookup k (attr_set k v m) = Some v.
Proof.
  unfold attr_set. destruct (attr_lookup k m) eqn:Hm.
  - by apply attr_lookup_replace_eq.
  - by apply attr_lookup_insert_new_eq.
Qed.

Lemma attr_lookup_set_ne k k' v m :
  k <> k' -> attr_lookup k' (attr_set k v m) = attr_lookup k' m.
Proof.
  intros Hne. unfold attr_set. destruct (attr_lookup k m).
  - by apply attr_lookup_replace_ne.
  - by apply attr_lookup_insert_new_ne.
Qed.

Lemma attr_lookup_set_all v ks m k :
  attr_lookup k (foldl (fun m k => attr_set k v m) m ks)
  = if decide (k ∈ ks) then Some v else attr_lookup k m.
Proof.
  revert m. induction ks as [|k0 ks IH]; intros m; simpl.
  - done.
  - rewrite IH. destruct (decide (k ∈ ks)) as [Hin|Hnin].
    + rewrite decide_True; [done | by right].
    + destruct (decide (k0 = k)) as [->|Hne].
      * rewrite decide_True by left. apply attr_lookup_set_eq.
      * rewrite decide_False.
        -- by apply attr_lookup_set_ne.
        -- intros [->|?]%elem_of_cons; done.
Qed.
End PropertyMapLemmas.

(** ** Registration of attributes *)

Lemma indexOf_with_buffer buf bs :
  indexOf buf (with_buffer buf bs) = Some (slot_of buf bs).
Proof.
  unfold with_buffer, slot_of. destruct (indexOf buf bs) eqn:Hi; [done|].
  by apply indexOf_snoc_None.
Qed.

Lemma lookup_with_buffer buf bs :
  with_buffer buf bs !! slot_of buf bs = Some buf.
Proof. apply indexOf_Some, indexOf_with_buffer. Qed.

Lemma bind_ext {A B} (m : M A) (k k' : A -> M B) h :
  (forall a h', k a h' = k' a h') -> bind m k h = bind m k' h.
Proof. intros Hk. unfold bind. destruct (m h); auto. Qed.

Lemma bind_ext_l {A B} (m m' : M A) (k : A -> M B) h :
  m h = m' h -> bind m k h = bind m' k h.
Proof. unfold bind. by intros ->. Qed.

Lemma for_each_ext {A} (f f' : A -> M unit) l :
  (forall x h, x ∈ l -> f x h = f' x h) ->
  forall h, for_each f l h = for_each f' l h.
Proof.
  induction l as [|x l IH]; intros Hf h; simpl; [done|].
  unfold bind. rewrite Hf by left. destruct (f' x h); [|done].
  apply IH. intros y h' Hy. apply Hf. by right.
Qed.

Section Registration.
Context `{JSRuntime}.

Lemma register_total this p buf size normalised type stride start instance
    h g g2 bs bs2 attrs2 :
  h_geometries h !! this = Some g2 ->
  buffers g2 = Some bs2 ->
  bs2 = bs \/ bs2 = with_buffer buf bs ->
  attributes g2 = Some attrs2 ->
  indexBuffer g2 = indexBuffer g ->
  glVertexArrayObjects g2 = glVertexArrayObjects g ->
  wp (addAttribute_register this p buf size normalised type stride start
        instance) h
    (fun r h' =>
       r = this /\ h_arrays h' = h_arrays h /\ h_buffers h' = h_buffers h /\
       exists g', h_geometries h' !! this = Some g' /\
         registered buf bs
           (attr_set p
              (Attribute_new (slot_of buf bs) size normalised type stride
                 start instance) attrs2) g g')
    no_throw.
Proof.
  intros Hg Hbs Hcase Hattrs Hib Hvao. unfold addAttribute_register.
  wp_steps. rewrite Hg. wp_steps. rewrite Hbs. wp_step.
  assert ((indexOf buf bs2 = Some (slot_of buf bs)
           /\ bs2 = with_buffer buf bs)
          \/ (indexOf buf bs2 = None /\ bs2 = bs)) as [[Hi ->]|[Hi ->]].
  { destruct Hcase as [->| ->].
    - unfold with_buffer, slot_of. destruct (indexOf buf bs); eauto.
    - left. split; [apply indexOf_with_buffer | done]. }
  - rewrite Hi. wp_steps. rewrite Hg. wp_steps. rewrite Hattrs. wp_steps.
    repeat split; try done. rewrite list_lookup_alter_eq, Hg. simpl.
    eexists. split; [done|]. by repeat split.
  - rewrite Hi. wp_steps. rewrite list_lookup_alter_eq, Hg. simpl.
    wp_steps. rewrite Hattrs. wp_steps.
    repeat split; try done. rewrite !list_lookup_alter_eq, Hg. simpl.
    eexists. split; [done|].
    unfold registered, with_buffer, slot_of. rewrite Hi. simpl.
    rewrite length_app. simpl.
    replace (length bs + 1 - 1) with (length bs) by lia. by repeat split.
Qed.

Lemma addAttribute_body_ext self self' this id arg size normalised type
    stride start instance h :
  (forall idi buf h,
     idi ∈ split separator id ->
     self this idi (ArgBuffer buf) size normalised type None None false h
     = self' this idi (ArgBuffer buf) size normalised type None None false
         h) ->
  addAttribute_body self this id arg size normalised type stride start
    instance h
  = addAttribute_body self' this id arg size normalised type stride start
      instance h.
Proof.
  intros Hself. unfold addAttribute_body. apply bind_ext. intros buf h1.
  cbv zeta. destruct (1 <? length (split separator id)); [|done].
  apply bind_ext_l, for_each_ext. intros idi h2 Hidi.
  by apply bind_ext_l, Hself.
Qed.

(** A call of [addAttribute] on a name without separator makes no
    recursive call. *)
Lemma addAttribute_body_no_sep self self' this id arg size normalised type
    stride start instance h :
  contains separator id = false ->
  addAttribute_body self this id arg size normalised type stride start
    instance h
  = addAttribute_body self' this id arg size normalised type stride start
      instance h.
Proof.
  intros Hid. unfold addAttribute_body. by rewrite (split_no_sep _ _ Hid).
Qed.

(** The recursive equation of [addAttribute] in the source. *)
Lemma addAttribute_eqn this id arg size normalised type stride start
    instance h :
  addAttribute this id arg size normalised type stride start instance h
  = addAttribute_body addAttribute this id arg size normalised type stride
      start instance h.
Proof.
  unfold addAttribute at 1. apply addAttribute_body_ext.
  intros idi buf h' Hidi. unfold addAttribute.
  apply addAttribute_body_no_sep. by eapply split_parts.
Qed.

(** A call of [addAttribute] with a Buffer and a name without separator. *)
Lemma register_part_total self this buf bu size normalised type p h g g2 bs
    bs2 attrs2 :
  contains separator p = false ->
  h_buffers h !! buf = Some bu ->
  data bu <> DataNull ->
  h_geometries h !! this = Some g2 ->
  buffers g2 = Some bs2 ->
  bs2 = bs \/ bs2 = with_buffer buf bs ->
  attributes g2 = Some attrs2 ->
  indexBuffer g2 = indexBuffer g ->
  glVertexArrayObjects g2 = glVertexArrayObjects g ->
  wp (addAttribute_body self this p (ArgBuffer buf) size normalised type
        None None false) h
    (fun r h' =>
       r = this /\ h_arrays h' = h_arrays h /\ h_buffers h' = h_buffers h /\
       exists g', h_geometries h' !! this = Some g' /\
         registered buf bs
           (attr_set p
              (Attribute_new (slot_of buf bs) size normalised type None None
                 false) attrs2) g g')
    no_throw.
Proof.
  intros Hp Hbu Hdata Hg Hbs Hcase Hattrs Hib Hvao.
  unfold addAttribute_body. rewrite (split_no_sep _ p Hp). simpl.
  wp_steps. rewrite Hbu.
  apply wp_mono with
    (Q := fun b h' => b = buf /\ h' = h) (E := no_throw); [| |done].
  { destruct (data bu); [done|by wp_steps..]. }
  intros ? ? [-> ->]. by eapply register_total.
Qed.

Lemma register_parts_total this buf bu size normalised type ps h g g2 bs
    attrs2 :
  (forall p, p ∈ ps -> contains separator p = false) ->
  h_buffers h !! buf = Some bu ->
  data bu <> DataNull ->
  h_geometries h !! this = Some g2 ->
  registered buf bs attrs2 g g2 ->
  wp (for_each
        (fun idi =>
           addAttribute_body (fun this _ _ _ _ _ _ _ _ => ret this) this idi
             (ArgBuffer buf) size normalised type None None false ;;;
           ret tt) ps) h
    (fun _ h' =>
       h_arrays h' = h_arrays h /\ h_buffers h' = h_buffers h /\
       exists g', h_geometries h' !! this = Some g' /\
         registered buf bs
           (foldl
              (fun m p =>
                 attr_set p
                   (Attribute_new (slot_of buf bs) size normalised type None
                      None false) m)
              attrs2 ps) g g')
    no_throw.
Proof.
  revert h g2 attrs2. induction ps as [|p ps IH];
    intros h g2 attrs2 Hps Hbu Hdata Hg Hreg; simpl.
  - wp_steps. repeat split; try done. by exists g2.
  - wp_steps. destruct Hreg as (Hbs & Hattrs & Hib & Hvao).
    eapply wp_mono;
      [eapply register_part_total with (g := g) (bs := bs); eauto| |done].
    { apply Hps. by left. }
    intros r h1 (-> & Ha & Hb & g1 & Hg1 & Hreg1). wp_steps.
    eapply wp_mono; [apply (IH h1 g1)| |done].
    + intros q Hq. apply Hps. by right.
    + by rewrite Hb.
    + done.
    + done.
    + done.
    + simpl. intros _ h2 (Ha2 & Hb2 & g' & Hg' & Hreg').
      rewrite Ha2, Hb2. repeat split; try done. by exists g'.
Qed.

Lemma buffer_of_arg_frame h h1 h' arg buf :
  h_arrays h' = h_arrays h1 -> h_buffers h' = h_buffers h1 ->
  buffer_of_arg h h1 arg buf -> buffer_of_arg h h' arg buf.
Proof. unfold buffer_of_arg. intros -> ->. done. Qed.

Lemma addAttribute_split_total this id arg size normalised type stride start
    instance h g bs attrs :
  h_geometries h !! this = Some g ->
  buffers g = Some bs ->
  attributes g = Some attrs ->
  arg <> ArgNone ->
  valid_arg h arg ->
  contains separator id = true ->
  exists h' g' buf,
    addAttribute this id arg size normalised type stride start instance h
    = Ok this h' /\
    buffer_of_arg h h' arg buf /\
    h_geometries h' !! this = Some g' /\
    registered buf bs
      (foldl
         (fun m p =>
            attr_set p
              (Attribute_new (slot_of buf bs) size normalised type None None
                 false) m)
         attrs (split separator id)) g g'.
Proof.
  intros Hg Hbs Hattrs Harg Hvalid Hid.
  cut (wp (addAttribute this id arg size normalised type stride start
             instance) h
         (fun r h' =>
            r = this /\
            exists g' buf, buffer_of_arg h h' arg buf /\
              h_geometries h' !! this = Some g' /\
              registered buf bs
                (foldl
                   (fun m p =>
                      attr_set p
                        (Attribute_new (slot_of buf bs) size normalised type
                           None None false) m)
                   attrs (split separator id)) g g')
         no_throw).
  { intros (r & h' & Hrun & -> & g' & buf & Harg' & Hg' & Hreg)%wp_total.
    by exists h', g', buf. }
  unfold addAttribute. unfold addAttribute_body at 1. apply wp_bind.
  apply wp_mono with
    (Q := fun buf h1 =>
            h_geometries h1 = h_geometries h /\
            buffer_of_arg h h1 arg buf /\
            exists bu, h_buffers h1 !! buf = Some bu /\ data bu <> DataNull)
    (E := no_throw); [| |done].
  { destruct arg as [|xs|a|b]; unfold Buffer_new, buffer_of_arg; [done|..];
      wp_steps.
    - split_and!; [done..|]. rewrite lookup_snoc_new. by eexists.
    - split_and!; [done..|]. rewrite lookup_snoc_new. by eexists.
    - destruct Hvalid as [bu Hbu]. rewrite Hbu. simpl.
      destruct (data bu) eqn:Hdata; wp_steps; (split_and!; [done..|]).
      + rewrite lookup_snoc_new. by eexists.
      + exists bu. split; [done|]. by rewrite Hdata.
      + exists bu. split; [done|]. by rewrite Hdata. }
  intros buf h1 (Hh1 & Hbuf & bu & Hbu & Hdata). cbv zeta.
  rewrite (split_contains _ _ Hid).
  pose proof (split_nonempty separator id) as Hne.
  pose proof (split_parts separator id) as Hparts.
  destruct (split separator id) as [|p ps]; [done|]. simpl.
  wp_steps.
  eapply wp_mono;
    [eapply register_part_total with (g := g) (bs := bs) (bs2 := bs);
     eauto| |done].
  { apply Hparts. by left. }
  { by rewrite Hh1. }
  intros r h2 (-> & Ha & Hb & g2 & Hg2 & Hreg2). wp_steps.
  eapply wp_mono; [eapply (register_parts_total _ _ bu); eauto| |done].
  { intros q Hq. apply Hparts. by right. }
  { by rewrite Hb. }
  simpl. intros _ h3 (Ha3 & Hb3 & g' & Hg' & Hreg'). wp_steps.
  split; [done|]. exists g', buf. split_and!; [|done..].
  apply (buffer_of_arg_frame h h1); [congruence..|done].
Qed.
End Registration.

(** ** Words and bytes of an ArrayBuffer *)

Lemma le_bytes_4 v :
  le_bytes 4 v
  = [(v mod 256)%Z; ((v / 256) mod 256)%Z; ((v / 65536) mod 256)%Z;
     ((v / 16777216) mod 256)%Z].
Proof. unfold le_bytes. simpl. by rewrite Z.div_1_r. Qed.

Lemma le_value_le_bytes_4 v : word32 v -> le_value (le_bytes 4 v) = v.
Proof.
  unfold word32. intros Hv. rewrite le_bytes_4. simpl.
  Z.div_mod_to_equations. lia.
Qed.

Lemma word_bytes_cons w ws : word_bytes (w :: ws) = le_bytes 4 w ++ word_bytes ws.
Proof. done. Qed.

Lemma word_bytes_app ws1 ws2 :
  word_bytes (ws1 ++ ws2) = word_bytes ws1 ++ word_bytes ws2.
Proof. apply flat_map_app. Qed.

Lemma length_word_bytes ws : length (word_bytes ws) = length ws * 4.
Proof.
  induction ws as [|w ws IH]; [done|].
  rewrite word_bytes_cons, length_app, IH, le_bytes_4. simpl. lia.
Qed.

Lemma word_bytes_repeat n : word_bytes (repeat 0%Z n) = repeat 0%Z (n * 4).
Proof. induction n as [|n IH]; [done|]. simpl. by rewrite <- IH. Qed.

Lemma words_word_bytes ws : Forall word32 ws -> words (word_bytes ws) = ws.
Proof.
  induction 1 as [|w ws Hw Hws IH]; [done|].
  rewrite word_bytes_cons.
  replace (words (le_bytes 4 w ++ word_bytes ws))
    with (le_value (le_bytes 4 w) :: words (word_bytes ws))
    by (by rewrite le_bytes_4).
  by rewrite le_value_le_bytes_4, IH.
Qed.

Lemma take_word_bytes i ws : take (4 * i) (word_bytes ws) = word_bytes (take i ws).
Proof.
  revert ws. induction i as [|i IH]; intros ws; [done|].
  destruct ws as [|w ws]; [done|].
  replace (4 * S i) with (4 + 4 * i) by lia.
  rewrite word_bytes_cons, le_bytes_4. simpl take. rewrite IH.
  by rewrite word_bytes_cons, le_bytes_4.
Qed.

Lemma drop_word_bytes i ws : drop (4 * i) (word_bytes ws) = word_bytes (drop i ws).
Proof.
  revert ws. induction i as [|i IH]; intros ws; [done|].
  destruct ws as [|w ws]; [done|].
  replace (4 * S i) with (4 + 4 * i) by lia.
  rewrite word_bytes_cons, le_bytes_4. simpl drop. by rewrite IH.
Qed.

Lemma view_set_word_bytes ws i v :
  view_set Float32Array (word_bytes ws) (Some (Z.of_nat i)) v
  = word_bytes (<[i:=v]> ws).
Proof.
  unfold view_set. simpl BYTES_PER_ELEMENT.
  rewrite length_word_bytes, Nat.div_mul by done. rewrite Nat2Z.id.
  destruct (decide (i < length ws)) as [Hi|Hi].
  - rewrite (proj2 (Z.leb_le _ _)) by lia.
    rewrite (proj2 (Z.ltb_lt _ _)) by lia. cbn [andb].
    rewrite insert_take_drop by done.
    rewrite word_bytes_app, word_bytes_cons, take_word_bytes.
    replace (4 * i + 4) with (4 * S i) by lia. by rewrite drop_word_bytes.
  - rewrite (proj2 (Z.ltb_ge _ _)) by lia. rewrite andb_false_r.
    by rewrite list_insert_ge by lia.
Qed.

Lemma write_elems_word_bytes `{JSRuntime} size stride littleOffset d vs :
  forall j ws,
    (forall k, k < length vs ->
       dest_index (j + k) size stride littleOffset
       = Some (Z.of_nat (d (j + k)))) ->
    write_elems Float32Array size stride littleOffset j vs (word_bytes ws)
    = word_bytes (scatter d j (map (copy_elem Float32Array) vs) ws).
Proof.
  induction vs as [|v vs IH]; intros j ws Hd; [done|]. simpl.
  specialize (Hd 0) as Hd0. rewrite Nat.add_0_r in Hd0.
  rewrite Hd0 by (simpl; lia). rewrite view_set_word_bytes. apply IH.
  intros k Hk. replace (S j + k) with (j + S k) by lia. apply Hd. simpl. lia.
Qed.

(** ** Scattered writes *)

Lemma length_scatter d vs : forall j ws, length (scatter d j vs ws) = length ws.
Proof.
  induction vs as [|v vs IH]; intros j ws; [done|]. simpl.
  by rewrite IH, length_insert.
Qed.

Lemma scatter_lookup_other d vs p :
  forall j ws,
    (forall k, k < length vs -> d (j + k) <> p) ->
    scatter d j vs ws !! p = ws !! p.
Proof.
  induction vs as [|v vs IH]; intros j ws Hd; [done|]. simpl.
  rewrite IH.
  - apply list_lookup_insert_ne. specialize (Hd 0). rewrite Nat.add_0_r in Hd.
    apply Hd. simpl. lia.
  - intros k Hk. replace (S j + k) with (j + S k) by lia. apply Hd. simpl. lia.
Qed.

Lemma scatter_lookup_at d vs :
  forall j ws k,
    k < length vs ->
    d (j + k) < length ws ->
    (forall k', k < k' -> k' < length vs -> d (j + k') <> d (j + k)) ->
    scatter d j vs ws !! d (j + k) = vs !! k.
Proof.
  induction vs as [|v vs IH]; intros j ws k Hk Hlen Hinj; [simpl in Hk; lia|].
  simpl. destruct k as [|k].
  - rewrite Nat.add_0_r in *. rewrite scatter_lookup_other.
    + by apply list_lookup_insert_eq.
    + intros k' Hk'. replace (S j + k') with (j + S k') by lia.
      apply Hinj; simpl; lia.
  - replace (j + S k) with (S j + k) in * by lia.
    apply (IH (S j) (<[d j:=v]> ws) k).
    + simpl in Hk. lia.
    + by rewrite length_insert.
    + intros k' Hk1 Hk2. replace (S j + k') with (j + S k') by lia.
      apply Hinj; simpl; lia.
Qed.

Lemma Forall_scatter P d vs :
  forall j ws, Forall P vs -> Forall P ws -> Forall P (scatter d j vs ws).
Proof.
  induction vs as [|v vs IH]; intros j ws Hvs Hws; [done|]. simpl.
  inversion_clear Hvs. apply IH; [done|]. by apply Forall_insert.
Qed.

(** ** The index of an interleaved element *)

Lemma Qtrunc_div j p :
  Qtrunc (of_nat j / inject_Z (Z.pos p)) = (Z.of_nat j / Z.pos p)%Z.
Proof.
  unfold Qtrunc, of_nat, Qdiv, Qinv, inject_Z, Qmult, Qle_bool, Qfloor.
  cbn [Qnum Qden]. rewrite ?Z.mul_1_r, ?Pos.mul_1_l.
  by rewrite (proj2 (Z.leb_le _ _)) by lia.
Qed.

Lemma Qred_inject_Z z : Qred (inject_Z z) = inject_Z z.
Proof. apply Qred_identity. simpl. apply Z.gcd_1_r. Qed.

Lemma dest_index_int j s S L :
  (0 < s)%Z ->
  dest_index j (Fin (inject_Z s)) (Fin (inject_Z S)) (Fin (inject_Z L))
  = Some (to_int32 (Z.of_nat j / s) * S + L + Z.of_nat j mod s)%Z.
Proof.
  intros Hs. destruct s as [|p|p]; try lia. unfold dest_index.
  replace (Qeq_bool (inject_Z (Z.pos p)) 0) with false by done.
  rewrite Qtrunc_div. unfold Qminus, of_nat.
  rewrite <- !inject_Z_mult, <- inject_Z_opp, <- !inject_Z_plus.
  rewrite Qred_inject_Z. simpl. f_equal.
  rewrite (Z.mod_eq _ (Z.pos p)) by done. lia.
Qed.

(** ** Interleaving two float attributes *)

Lemma to_int32_small z : (- 2 ^ 31 <= z < 2 ^ 31)%Z -> to_int32 z = z.
Proof. unfold to_int32. lia. Qed.

Lemma dest_index_A j N :
  j < 2 * N -> (Z.of_nat N < 2 ^ 31)%Z ->
  dest_index j (Fin 2) (Fin 5) (Fin 0) = Some (Z.of_nat (word_of_A j)).
Proof.
  intros Hj HN. etrans; [exact (dest_index_int j 2 5 0 eq_refl)|].
  rewrite to_int32_small by lia. unfold word_of_A. f_equal. lia.
Qed.

Lemma dest_index_B j N :
  j < 3 * N -> (Z.of_nat N < 2 ^ 31)%Z ->
  dest_index j (Fin 3) (Fin 5) (Fin 2) = Some (Z.of_nat (word_of_B j)).
Proof.
  intros Hj HN. etrans; [exact (dest_index_int j 3 5 2 eq_refl)|].
  rewrite to_int32_small by lia. unfold word_of_B. f_equal. lia.
Qed.

Lemma write_arrays_A_B `{JSRuntime} xs ys N :
  length xs = 2 * N -> length ys = 3 * N -> (Z.of_nat N < 2 ^ 31)%Z ->
  write_arrays (Fin 5) (Fin 0)
    [(IsArray {| ctor := Float32Array; elems := xs |}, Fin 2);
     (IsArray {| ctor := Float32Array; elems := ys |}, Fin 3)]
    (repeat 0%Z ((length xs + length ys) * 4))
  = word_bytes
      (scatter word_of_B 0 (map (copy_elem Float32Array) ys)
         (scatter word_of_A 0 (map (copy_elem Float32Array) xs)
            (repeat 0%Z (5 * N)))).
Proof.
  intros Hxs Hys HN. replace (length xs + length ys) with (5 * N) by lia.
  rewrite <- word_bytes_repeat. simpl.
  rewrite (write_elems_word_bytes _ _ _ word_of_A)
    by (intros k Hk; apply (dest_index_A _ N); [simpl; lia | done]).
  change (num_add (Fin 0) (Fin 2)) with (Fin 2).
  by rewrite (write_elems_word_bytes _ _ _ word_of_B)
    by (intros k Hk; apply (dest_index_B _ N); [simpl; lia | done]).
Qed.

Lemma interleaved_A_B_length xs ys N :
  length
    (scatter word_of_B 0 ys (scatter word_of_A 0 xs (repeat 0%Z (5 * N))))
  = 5 * N.
Proof. by rewrite !length_scatter, repeat_length. Qed.

Lemma interleaved_A_B_lookup_A xs ys N v c :
  length xs = 2 * N -> length ys = 3 * N -> v < N -> c < 2 ->
  scatter word_of_B 0 ys (scatter word_of_A 0 xs (repeat 0%Z (5 * N)))
    !! (5 * v + c)
  = xs !! (2 * v + c).
Proof.
  intros Hxs Hys Hv Hc.
  rewrite scatter_lookup_other by (intros k _; unfold word_of_B; lia).
  replace (5 * v + c) with (word_of_A (0 + (2 * v + c)))
    by (unfold word_of_A; lia).
  apply scatter_lookup_at.
  - lia.
  - rewrite repeat_length. unfold word_of_A. lia.
  - intros k' Hk1 Hk2. unfold word_of_A. lia.
Qed.

Lemma interleaved_A_B_lookup_B xs ys N v c :
  length xs = 2 * N -> length ys = 3 * N -> v < N -> c < 3 ->
  scatter word_of_B 0 ys (scatter word_of_A 0 xs (repeat 0%Z (5 * N)))
    !! (5 * v + 2 + c)
  = ys !! (3 * v + c).
Proof.
  intros Hxs Hys Hv Hc.
  replace (5 * v + 2 + c) with (word_of_B (0 + (3 * v + c)))
    by (unfold word_of_B; lia).
  apply scatter_lookup_at.
  - lia.
  - rewrite length_scatter, repeat_length. unfold word_of_B. lia.
  - intros k' Hk1 Hk2. unfold word_of_B. lia.
Qed.

Lemma interleaved_A_B_word32 xs ys N :
  Forall word32 xs -> Forall word32 ys ->
  Forall word32
    (scatter word_of_B 0 ys (scatter word_of_A 0 xs (repeat 0%Z (5 * N)))).
Proof.
  intros Hxs Hys. apply Forall_scatter; [done|].
  apply Forall_scatter; [done|]. apply Forall_forall.
  intros w Hw%list_elem_of_In%repeat_spec. subst. unfold word32. lia.
Qed.

Lemma wp_Buffer_destroy_total b bu h :
  h_buffers h !! b = Some bu ->
  wp (Buffer_destroy b) h
    (fun _ h' =>
       h_arrays h' = h_arrays h /\ h_geometries h' = h_geometries h /\
       h_buffers h' = alter (set_data DataNull) b (h_buffers h))
    no_throw.
Proof. intros Hb. unfold Buffer_destroy. wp_steps. rewrite Hb. by wp_steps. Qed.

Section InterleaveTotal.
Context `{JSRuntime}.

Lemma footprint_float_2 A :
  size A = 2%N -> GL_SIZE_MAP (type A) = Some 4%N -> footprint A = Fin 2.
Proof. intros Hs Ht. unfold footprint. by rewrite Hs, Ht. Qed.

Lemma footprint_float_3 A :
  size A = 3%N -> GL_SIZE_MAP (type A) = Some 4%N -> footprint A = Fin 3.
Proof. intros Hs Ht. unfold footprint. by rewrite Hs, Ht. Qed.

(** The loop of [interleave] that destroys the buffers keeps the arrays,
    the geometries and every buffer that is not in the list. *)
Lemma wp_destroy_loop ib bs h :
  Forall (fun b => is_Some (h_buffers h !! b)) bs ->
  wp (for_each
        (fun b => if is_not b ib then Buffer_destroy b else ret tt) bs) h
    (fun _ h' =>
       h_arrays h' = h_arrays h /\ h_geometries h' = h_geometries h /\
       length (h_buffers h') = length (h_buffers h) /\
       forall b, b ∉ bs -> h_buffers h' !! b = h_buffers h !! b)
    no_throw.
Proof.
  intros Hlive.
  eapply wp_mono;
    [apply (wp_for_each
              (fun h' =>
                 h_arrays h' = h_arrays h /\
                 h_geometries h' = h_geometries h /\
                 length (h_buffers h') = length (h_buffers h) /\
                 forall b, b ∉ bs -> h_buffers h' !! b = h_buffers h !! b));
     [done|] | |done].
  - intros b h1 Hb (Ha & Hg & Hl & Hother).
    destruct (is_not b ib); [|by wp_steps].
    rewrite Forall_forall in Hlive.
    destruct (lookup_lt_is_Some_2 (h_buffers h1) b) as [bu Hbu].
    { rewrite Hl. apply lookup_lt_is_Some_1, Hlive. done. }
    eapply wp_mono; [by eapply wp_Buffer_destroy_total| |done].
    simpl. intros _ h2 (Ha2 & Hg2 & Hb2).
    rewrite Ha2, Hg2, Hb2, length_alter. repeat split; try done.
    intros b' Hb'. rewrite list_lookup_alter_ne; [by apply Hother|].
    by intros ->.
  - by intros [] h1.
Qed.

Lemma interleave_A_B_total this h g bs nameA nameB A B bA bB buA buB aA aB
    xs ys N :
  h_geometries h !! this = Some g ->
  buffers g = Some bs ->
  ~ already_interleaved g ->
  attributes g = Some [(nameA, A); (nameB, B)] ->
  nameA <> nameB ->
  size A = 2%N -> GL_SIZE_MAP (type A) = Some 4%N ->
  size B = 3%N -> GL_SIZE_MAP (type B) = Some 4%N ->
  bs !! buffer A = Some bA -> h_buffers h !! bA = Some buA ->
  data buA = DataArray aA ->
  h_arrays h !! aA = Some {| ctor := Float32Array; elems := xs |} ->
  bs !! buffer B = Some bB -> h_buffers h !! bB = Some buB ->
  data buB = DataArray aB ->
  h_arrays h !! aB = Some {| ctor := Float32Array; elems := ys |} ->
  length xs = 2 * N -> length ys = 3 * N ->
  Forall word32 (map (copy_elem Float32Array) xs) ->
  Forall word32 (map (copy_elem Float32Array) ys) ->
  (Z.of_nat N < 2 ^ 31)%Z ->
  Forall (fun b => is_Some (h_buffers h !! b)) bs ->
  wp (interleave this) h
    (fun r h' =>
       r = this /\
       exists g' nb bu a,
         h_geometries h' !! this = Some g' /\
         buffers g'
         = Some (nb :: match indexBuffer g with
                       | Some ib => [ib]
                       | None => []
                       end) /\
         attributes g'
         = Some [(nameA, set_buffer 0 A); (nameB, set_buffer 0 B)] /\
         h_buffers h' !! nb = Some bu /\ data bu = DataArray a /\
         h_arrays h' !! a
         = Some {| ctor := Float32Array;
                   elems :=
                     scatter word_of_B 0 (map (copy_elem Float32Array) ys)
                       (scatter word_of_A 0
                          (map (copy_elem Float32Array) xs)
                          (repeat 0%Z (5 * N))) |})
    no_throw.
Proof.
  intros Hg Hbs Hslow Hattrs Hne HsA HtA HsB HtB HbA HbuA HdA HaA HbB HbuB
    HdB HaB Hxs Hys Hwx Hwy HN Hlive.
  unfold interleave. wp_steps. rewrite Hg. wp_steps. rewrite Hbs.
  destruct (_ || _) eqn:Hfast.
  { exfalso. apply Hslow. exists bs. split; [done|].
    apply orb_true_iff in Hfast as [Hl|Hl].
    - left. by apply Nat.eqb_eq.
    - apply andb_true_iff in Hl as [Hl Hib]. right.
      split; [by apply Nat.eqb_eq | by apply bool_decide_eq_true in Hib]. }
  clear Hfast. unfold Buffer_new. wp_steps.
  rewrite Hattrs. simpl interleave_collect. wp_steps.
  rewrite Hg. wp_steps. rewrite Hbs. wp_steps. rewrite HbA. wp_steps.
  rewrite (lookup_app_l_Some _ _ _ _ HbuA). wp_steps. rewrite HdA.
  simpl read_data. wp_steps. rewrite (lookup_app_l_Some _ _ _ _ HaA).
  wp_steps. rewrite Hattrs. wp_steps.
  rewrite list_lookup_alter_eq, Hg. obj_simpl. wp_steps. rewrite Hbs.
  wp_steps. rewrite HbB. wp_steps.
  rewrite (lookup_app_l_Some _ _ _ _ HbuB). wp_steps. rewrite HdB.
  simpl read_data. wp_steps. rewrite (lookup_app_l_Some _ _ _ _ HaB).
  wp_steps. cbn [attr_replace]. rewrite String.eqb_refl.
  cbn [attr_replace]. rewrite (proj2 (String.eqb_neq nameB nameA)) by done.
  rewrite String.eqb_refl. cbn [fst snd app].
  rewrite (footprint_float_2 A), (footprint_float_3 B) by done.
  unfold interleaveTypedArrays. cbn [existsb is_null orb].
  cbn [length take combine fold_left array_length elems default].
  change (num_add (num_add (Fin 0) (Fin 2)) (Fin 3)) with (Fin 5).
  unfold id. rewrite Nat.add_0_l, (write_arrays_A_B xs ys N) by done.
  rewrite words_word_bytes by by apply interleaved_A_B_word32.
  wp_steps. rewrite !list_lookup_alter_eq, Hg. obj_simpl. wp_steps.
  rewrite Hbs. wp_steps.
  eapply wp_mono; [apply wp_destroy_loop| |done].
  { heap_simpl. eapply Forall_impl; [exact Hlive|]. intros b Hb.
    apply lookup_lt_is_Some_2. rewrite length_alter, length_app.
    apply lookup_lt_is_Some_1 in Hb. lia. }
  heap_simpl. intros [] h1 (Ha1 & Hg1 & Hl1 & Hb1).
  assert (length (h_buffers h) ∉ bs) as Hfresh.
  { intros Hin. rewrite Forall_forall in Hlive.
    apply Hlive, lookup_lt_is_Some_1 in Hin. lia. }
  apply wp_mono with
    (Q := fun r h' =>
            r = this /\
            h_arrays h' = h_arrays h1 /\ h_buffers h' = h_buffers h1 /\
            exists g', h_geometries h' !! this = Some g' /\
              buffers g'
              = Some (length (h_buffers h)
                      :: match indexBuffer g with
                         | Some ib => [ib]
                         | None => []
                         end) /\
              attributes g'
              = Some [(nameA, set_buffer 0 A); (nameB, set_buffer 0 B)])
    (E := no_throw); [| |done].
  { wp_steps. destruct (indexBuffer g) as [ib|]; wp_steps;
      (repeat split; try done);
      rewrite Hg1, !list_lookup_alter_eq, Hg; obj_simpl; by eexists. }
  intros r h2 (-> & Ha2 & Hb2 & g' & Hg' & Hbs' & Hattrs').
  split; [done|]. exists g', (length (h_buffers h)).
  exists {| data := DataArray
                      (length (h_arrays h ++ [array_zeros Float32Array 0]));
            index := false |}.
  exists (length (h_arrays h ++ [array_zeros Float32Array 0])).
  repeat split; try done.
  - rewrite Hb2, Hb1 by done. rewrite list_lookup_alter_eq.
    by rewrite lookup_snoc_new.
  - by rewrite Ha2, Ha1, lookup_snoc_new.
Qed.
End InterleaveTotal.

(** ** Clone *)

Lemma list_insert_alter_eq {A} (f : A -> A) (l : list A) i y :
  <[i:=y]> (alter f i l) = <[i:=y]> l.
Proof.
  revert i. induction l as [|x l IH]; intros [|i]; simpl; try done.
  f_equal. apply IH.
Qed.

Lemma list_alter_insert_eq {A} (f : A -> A) (l : list A) i x :
  l !! i = Some x -> alter f i l = <[i:=f x]> l.
Proof.
  revert i. induction l as [|y l IH]; intros [|i]; simpl; try done.
  - by intros [= ->].
  - intros Hi. f_equal. by apply IH.
Qed.

Lemma holds_arrays_grow h h' bs ts :
  (exists l, h_arrays h' = h_arrays h ++ l) ->
  (exists l, h_buffers h' = h_buffers h ++ l) ->
  holds_arrays h bs ts -> holds_arrays h' bs ts.
Proof.
  intros [la Ha] [lb Hb] Hlive.
  eapply Forall2_impl; [exact Hlive|].
  intros b t (bu & a & Hbu & Hd & Ht). exists bu, a.
  rewrite Ha, Hb. split_and!; [|done|]; by apply lookup_app_l_Some.
Qed.

Lemma holds_new_arrays_weaken nb na nb' na' h h' bs ts :
  nb' <= nb -> na' <= na ->
  (exists l, h_arrays h' = h_arrays h ++ l) ->
  (exists l, h_buffers h' = h_buffers h ++ l) ->
  holds_new_arrays nb na h bs ts -> holds_new_arrays nb' na' h' bs ts.
Proof.
  intros Hnb Hna [la Ha] [lb Hb] Hnew.
  eapply Forall2_impl; [exact Hnew|].
  intros b t (bu & a & Hbu & Hd & Ht & ? & ?). exists bu, a.
  rewrite Ha, Hb. split_and!; try done; try lia; by apply lookup_app_l_Some.
Qed.

Section Clone.
Context `{JSRuntime}.

(** The loop of [clone] over the buffers. *)
Lemma clone_buffers_total geometry bs :
  forall ts h gn nbs,
    holds_arrays h bs ts ->
    h_geometries h !! geometry = Some gn ->
    buffers gn = Some nbs ->
    wp (for_each
          (fun b =>
             bu <- get_buffer b ;;
             a <- slice (data bu) ;;
             nb <- Buffer_new (Some (DataArray a)) ;;
             update_geometry geometry
               (fun g' =>
                  set_buffers (Some (default [] (buffers g') ++ [nb])) g'))
          bs) h
      (fun _ h' =>
         (exists l, h_arrays h' = h_arrays h ++ l) /\
         (exists l, h_buffers h' = h_buffers h ++ l) /\
         exists nbs',
           h_geometries h'
           = <[geometry:=set_buffers (Some (nbs ++ nbs')) gn]>
               (h_geometries h) /\
           holds_new_arrays (length (h_buffers h)) (length (h_arrays h)) h'
             nbs' ts)
      no_throw.
Proof.
  induction bs as [|b bs IH]; intros ts h gn nbs Hlive Hgn Hnbs.
  - apply Forall2_nil_inv_l in Hlive as ->. simpl. wp_steps.
    split_and!; [exists []; by rewrite app_nil_r..|].
    exists []. split; [|by constructor]. rewrite app_nil_r.
    replace (set_buffers (Some nbs) gn) with gn
      by (destruct gn; simpl in *; by subst).
    by rewrite list_insert_id.
  - apply Forall2_cons_inv_l in Hlive
      as (t & ts' & (bu & a & Hbu & Hd & Ht) & Hlive & ->).
    simpl. wp_steps. rewrite Hbu. wp_steps. rewrite Hd. wp_steps.
    rewrite Ht. wp_steps.
    eapply wp_mono; [eapply (IH ts')| |done].
    + eapply holds_arrays_grow; [..|done]; heap_simpl; by eexists.
    + heap_simpl. rewrite list_lookup_alter_eq, Hgn. obj_simpl. by rewrite Hnbs.
    + done.
    + heap_simpl. intros [] h' ([la Ha] & [lb Hb] & nbs' & Hg' & Hnew).
      split_and!.
      * exists (t :: la). by rewrite Ha, <- app_assoc.
      * eexists (_ :: lb). by rewrite Hb, <- app_assoc.
      * exists (length (h_buffers h) :: nbs'). split.
        -- rewrite Hg', list_insert_alter_eq. f_equal. simpl.
           by rewrite <- app_assoc.
        -- constructor.
           ++ eexists _, _. split_and!.
              ** rewrite Hb. apply lookup_app_l_Some, lookup_snoc_new.
              ** done.
              ** rewrite Ha. apply lookup_app_l_Some, lookup_snoc_new.
              ** done.
              ** done.
           ++ eapply holds_new_arrays_weaken; [..|exact Hnew];
                rewrite ?length_app; simpl; try lia; by exists [];
                rewrite app_nil_r.
Qed.

Lemma clone_total this h g bs ts :
  h_geometries h !! this = Some g ->
  buffers g = Some bs ->
  holds_arrays h bs ts ->
  index_in_buffers g ->
  wp (clone this) h
    (fun r h' =>
       r = length (h_geometries h) /\
       (exists l, h_arrays h' = h_arrays h ++ l) /\
       (forall b, b < length (h_buffers h) ->
          h_buffers h' !! b = h_buffers h !! b) /\
       exists g' bs',
         h_geometries h' = h_geometries h ++ [g'] /\
         buffers g' = Some bs' /\
         holds_new_arrays (length (h_buffers h)) (length (h_arrays h)) h'
           bs' ts)
    no_throw.
Proof.
  intros Hg Hbs Hlive Hinv. unfold clone, Geometry_new. wp_steps.
  rewrite (lookup_app_l_Some _ _ _ _ Hg). wp_steps. rewrite Hbs. wp_steps.
  eapply wp_mono;
    [eapply (clone_buffers_total _ bs ts _ _ []); heap_simpl;
     [exact Hlive|apply lookup_snoc_new|done] | |done].
  heap_simpl. intros [] h1 ([la Ha] & [lb Hb] & nbs' & Hg1 & Hnew).
  rewrite app_nil_l in Hg1.
  replace (length (h_geometries h)) with (length (h_geometries h) + 0)
    in Hg1 at 1 by lia.
  rewrite insert_app_r in Hg1. simpl in Hg1. wp_step.
  apply wp_mono with
    (Q := fun _ h' =>
            h_arrays h' = h_arrays h1 /\ h_buffers h' = h_buffers h1 /\
            exists gx, h_geometries h' = h_geometries h ++ [gx] /\
              buffers gx = Some nbs' /\ indexBuffer gx = None)
    (E := no_throw); [| |done].
  { apply (wp_for_each
             (fun h' =>
                h_arrays h' = h_arrays h1 /\ h_buffers h' = h_buffers h1 /\
                exists gx, h_geometries h' = h_geometries h ++ [gx] /\
                  buffers gx = Some nbs' /\ indexBuffer gx = None)).
    - split_and!; try done. by eexists.
    - intros [i attrib] h2 _ (Ha2 & Hb2 & gx & Hg2 & Hbx & Hix). wp_steps.
      split_and!; try done. rewrite Hg2.
      replace (length (h_geometries h)) with (length (h_geometries h) + 0)
        by lia.
      rewrite alter_app_r. simpl. by eexists. }
  intros [] h2 (Ha2 & Hb2 & gx & Hg2 & Hbx & Hix). wp_step.
  assert (length bs = length nbs') as Hlen.
  { apply Forall2_length in Hlive, Hnew. lia. }
  destruct (indexBuffer g) as [ib|] eqn:Hib.
  - destruct (Hinv ib Hib) as (bs0 & Hbs0 & Hin).
    rewrite Hbs in Hbs0. injection Hbs0 as <-.
    apply elem_indexOf in Hin as [i Hi]. rewrite Hi.
    destruct (lookup_lt_is_Some_2 nbs' i) as [nib Hnib].
    { rewrite <- Hlen. by eapply lookup_lt_Some, indexOf_Some. }
    destruct (Forall2_lookup_l _ _ _ _ _ Hnew Hnib)
      as (t & Ht & bu & a & Hbu & Hd & Hat & Hfresh_b & Hfresh_a).
    wp_steps. rewrite Hg2, lookup_snoc_new. wp_steps. rewrite Hbx.
    simpl default. rewrite Hnib. wp_steps.
    split_and!; [done|exists la; congruence| |].
    + intros b Hb'. rewrite list_lookup_alter_ne by lia.
      rewrite Hb2, Hb. by apply lookup_app_l.
    + rewrite Hg2.
      replace (length (h_geometries h)) with (length (h_geometries h) + 0)
        by lia.
      rewrite alter_app_r. simpl. eexists _, nbs'.
      split_and!; [done|by obj_simpl|].
      eapply Forall2_impl; [exact Hnew|].
      intros b' t' (bu' & a' & Hbu' & Hd' & Hat' & ? & ?). heap_simpl.
      rewrite Ha2, Hb2.
      destruct (decide (nib = b')) as [<-|Hne].
      * rewrite Hbu in Hbu'. injection Hbu' as <-.
        exists (set_index true bu), a'. rewrite list_lookup_alter_eq, Hbu.
        by split_and!.
      * exists bu', a'. rewrite list_lookup_alter_ne by done. by split_and!.
  - wp_steps.
    split_and!; [done|exists la; congruence| |].
    + intros b Hb'. rewrite Hb2, Hb. by apply lookup_app_l.
    + exists gx, nbs'. split_and!; try done.
      eapply Forall2_impl; [exact Hnew|].
      intros b' t' (bu' & a' & Hbu' & Hd' & Hat' & ? & ?). heap_simpl.
      rewrite Ha2, Hb2. by exists bu', a'.
Qed.
End Clone.

(** ** Merge of two geometries *)

Lemma alter_new_0 {A} (f : A -> A) (l : list A) x k :
  alter f (length l) (l ++ x :: k) = l ++ f x :: k.
Proof.
  replace (length l) with (length l + 0) at 1 by lia. by rewrite alter_app_r.
Qed.

Lemma alter_new_1 {A} (f : A -> A) (l : list A) x y k :
  alter f (length l + 1) (l ++ x :: y :: k) = l ++ x :: f y :: k.
Proof. by rewrite alter_app_r. Qed.

Lemma lookup_new_0 {A} (l : list A) x k : (l ++ x :: k) !! length l = Some x.
Proof. by rewrite lookup_app_r, Nat.sub_diag. Qed.

Lemma lookup_new_1 {A} (l : list A) x y k :
  (l ++ x :: y :: k) !! (length l + 1) = Some y.
Proof.
  rewrite lookup_app_r by lia. by replace (length l + 1 - length l) with 1 by lia.
Qed.

Lemma num_add_int a b :
  num_add (Fin (inject_Z a)) (Fin (inject_Z b)) = Fin (inject_Z (a + b)).
Proof. simpl. by rewrite <- inject_Z_plus, Qred_inject_Z. Qed.

Lemma Qtrunc_inject_Z z : Qtrunc (inject_Z z) = z.
Proof.
  unfold Qtrunc, Qceiling. destruct (Qle_bool 0 (inject_Z z)).
  - apply Qfloor_Z.
  - rewrite <- inject_Z_opp, Qfloor_Z. lia.
Qed.

Section Offsets.
Context `{JSRuntime}.

(** Adding an integer offset to an element of an integer array. *)
Lemma add_int_offset k v p :
  k <> Float32Array ->
  encode_elem k (num_add (decode_elem k v) (Fin (inject_Z p)))
  = wrap_int k (v + p).
Proof.
  intros Hk. destruct k; try done; simpl decode_elem;
    rewrite num_add_int; simpl; by rewrite Qtrunc_inject_Z.
Qed.
End Offsets.

Lemma insert_new_0 {A} (l : list A) x y k :
  <[length l:=y]> (l ++ x :: k) = l ++ y :: k.
Proof.
  replace (length l) with (length l + 0) at 1 by lia. by rewrite insert_app_r.
Qed.

Lemma insert_new_1 {A} (l : list A) x y z k :
  <[length l + 1:=z]> (l ++ x :: y :: k) = l ++ x :: z :: k.
Proof. by rewrite insert_app_r. Qed.

Lemma drop_repeat_add {A} (x : A) n m : drop n (repeat x (n + m)) = repeat x m.
Proof. induction n as [|n IH]; [done|]. simpl. apply IH. Qed.

Section Copy.
Context `{JSRuntime}.

Lemma wp_data_length_array a t h0 :
  h_arrays h0 !! a = Some t ->
  wp (data_length (DataArray a)) h0
    (fun len h' => len = Some (length (elems t)) /\ h' = h0) no_throw.
Proof. intros Ha. cbn [data_length]. wp_steps. rewrite Ha. by wp_steps. Qed.

(** [target.set(source, offset)] between arrays of one constructor. *)
Lemma wp_typed_set_same target sa offset t st h0 :
  h_arrays h0 !! target = Some t ->
  h_arrays h0 !! sa = Some st ->
  ctor st = ctor t ->
  offset + length (elems st) <= length (elems t) ->
  wp (typed_set target (DataArray sa) offset) h0
    (fun _ h' =>
       h_arrays h'
       = <[target:={| ctor := ctor t;
                      elems := take offset (elems t) ++ elems st
                               ++ drop (offset + length (elems st))
                                    (elems t) |}]> (h_arrays h0) /\
       h_buffers h' = h_buffers h0 /\ h_geometries h' = h_geometries h0)
    no_throw.
Proof.
  intros Ht Hst Hctor Hlen. unfold typed_set. wp_steps. rewrite Ht.
  wp_steps. rewrite Hst.
  rewrite (proj2 (Nat.ltb_ge _ _)) by done. wp_steps.
  split_and!; try done. rewrite (list_alter_insert_eq _ _ _ _ Ht).
  destruct (decide (ctor st = ctor t)); [|done]. by rewrite map_id.
Qed.

(** Pass two of [merge] over a geometry of two buffers. *)
Lemma merge_copy_two v i bv bi av ai sv si a0 a1 t0 t1 o0 o1 h0 :
  h_buffers h0 !! v = Some bv -> data bv = DataArray av ->
  h_arrays h0 !! av = Some sv ->
  h_buffers h0 !! i = Some bi -> data bi = DataArray ai ->
  h_arrays h0 !! ai = Some si ->
  h_arrays h0 !! a0 = Some t0 -> h_arrays h0 !! a1 = Some t1 ->
  a0 <> a1 -> a0 <> av -> a0 <> ai -> a1 <> ai ->
  ctor sv = ctor t0 -> ctor si = ctor t1 ->
  o0 + length (elems sv) <= length (elems t0) ->
  o1 + length (elems si) <= length (elems t1) ->
  wp (merge_copy 0 [v; i] [OutTyped a0; OutTyped a1] [Some o0; Some o1]) h0
    (fun offsets h' =>
       offsets = [Some (o0 + length (elems sv));
                  Some (o1 + length (elems si))] /\
       h_arrays h'
       = <[a1:={| ctor := ctor t1;
                  elems := take o1 (elems t1) ++ elems si
                           ++ drop (o1 + length (elems si)) (elems t1) |}]>
           (<[a0:={| ctor := ctor t0;
                     elems := take o0 (elems t0) ++ elems sv
                              ++ drop (o0 + length (elems sv))
                                   (elems t0) |}]> (h_arrays h0)) /\
       h_buffers h' = h_buffers h0 /\ h_geometries h' = h_geometries h0)
    no_throw.
Proof.
  intros Hv Hdv Hav Hi Hdi Hai Ha0 Ha1 Hne01 Hne0v Hne0i Hne1i Hc0 Hc1 Hl0
    Hl1.
  cbn [merge_copy]. wp_steps. cbn [lookup list_lookup]. wp_steps.
  rewrite Hv. wp_steps. rewrite Hdv.
  eapply wp_mono; [by eapply wp_typed_set_same| |done].
  cbn beta. intros [] h1 (Harr1 & Hbuf1 & Hgeo1). wp_steps.
  eapply wp_mono; [eapply (wp_data_length_array av sv)| |done].
  { by rewrite Harr1, list_lookup_insert_ne. }
  cbn beta. intros len ? (-> & ->). wp_steps. rewrite Hbuf1, Hi. wp_steps.
  rewrite Hdi.
  eapply wp_mono; [eapply (wp_typed_set_same _ _ _ t1 si)| |done].
  { by rewrite Harr1, list_lookup_insert_ne. }
  { by rewrite Harr1, list_lookup_insert_ne. }
  { done. }
  { done. }
  cbn beta. intros [] h2 (Harr2 & Hbuf2 & Hgeo2). wp_steps.
  eapply wp_mono; [eapply (wp_data_length_array ai si)| |done].
  { rewrite Harr2, list_lookup_insert_ne by done.
    by rewrite Harr1, list_lookup_insert_ne. }
  cbn beta. intros len ? (-> & ->). wp_steps.
  split_and!; [done|by rewrite Harr2, Harr1|congruence..].
Qed.

(** [data[k] += p] for an integer [p] on an integer array. *)
Lemma wp_add_at_int b bu a t k v p h0 :
  h_buffers h0 !! b = Some bu -> data bu = DataArray a ->
  h_arrays h0 !! a = Some t ->
  ctor t <> Float32Array ->
  elems t !! k = Some v ->
  wp (add_at b (Some k) (Fin (inject_Z p))) h0
    (fun _ h' =>
       h_arrays h'
       = <[a:={| ctor := ctor t;
                 elems := <[k:=wrap_int (ctor t) (v + p)]> (elems t) |}]>
           (h_arrays h0) /\
       h_buffers h' = h_buffers h0 /\ h_geometries h' = h_geometries h0)
    no_throw.
Proof.
  intros Hb Hd Ha Hk Hv. unfold add_at. wp_steps. rewrite Hb. wp_steps.
  rewrite Hd. wp_steps. rewrite Ha. rewrite Hv. wp_steps.
  split_and!; try done. rewrite (list_alter_insert_eq _ _ _ _ Ha).
  by rewrite add_int_offset.
Qed.

(** The inner loop of the renumbering of [merge]: [p] is added to the [m]
    elements from [s + o] on. *)
Lemma wp_add_block b bu a K' p o m :
  forall s es h0,
    h_buffers h0 !! b = Some bu -> data bu = DataArray a ->
    h_arrays h0 !! a = Some {| ctor := K'; elems := es |} ->
    K' <> Float32Array ->
    s + o + m <= length es ->
    wp (for_each
          (fun j =>
             add_at b (option_map (Nat.add j) (Some o))
               (Fin (inject_Z p)))
          (seq s m)) h0
      (fun _ h' =>
         h_arrays h'
         = <[a:={| ctor := K';
                   elems := take (s + o) es
                            ++ map (fun v => wrap_int K' (v + p))
                                 (take m (drop (s + o) es))
                            ++ drop (s + o + m) es |}]> (h_arrays h0) /\
         h_buffers h' = h_buffers h0 /\ h_geometries h' = h_geometries h0)
      no_throw.
Proof.
  induction m as [|m IH]; intros s es h0 Hb Hd Ha HK Hlen.
  - simpl. wp_steps. split_and!; try done.
    rewrite Nat.add_0_r, take_drop. by rewrite list_insert_id.
  - cbn [seq for_each option_map]. wp_steps.
    destruct (lookup_lt_is_Some_2 es (s + o)) as [v Hv]; [lia|].
    eapply wp_mono;
      [eapply (wp_add_at_int b bu a {| ctor := K'; elems := es |});
       eauto| |done].
    cbn beta. cbn [ctor elems]. intros [] h1 (Harr1 & Hbuf1 & Hgeo1).
    eapply wp_mono;
      [eapply (IH (S s) (<[s + o:=wrap_int K' (v + p)]> es))| |done].
    + by rewrite Hbuf1.
    + done.
    + rewrite Harr1. apply list_lookup_insert_eq. by eapply lookup_lt_Some.
    + done.
    + rewrite length_insert. lia.
    + cbn beta. intros [] h2 (Harr2 & Hbuf2 & Hgeo2).
      split_and!; [|congruence..].
      rewrite Harr2, Harr1, list_insert_insert_eq. do 2 f_equal.
      change (S s + o) with (S (s + o)).
      rewrite (take_S_r _ _ (wrap_int K' (v + p)))
        by (apply list_lookup_insert_eq; lia).
      rewrite take_insert_ge by lia.
      rewrite !drop_insert_lt by lia.
      rewrite (drop_S es _ _ Hv). simpl.
      rewrite <- app_assoc. simpl.
      by replace (S (s + o + m)) with (s + o + S m) by lia.
Qed.
End Copy.

Section MergePair.
Context `{JSRuntime}.
Variables (h : Heap) (g1 g2 : nat) (G1 G2 : Geometry).
Variables (v1 i1 v2 i2 av1 ai1 av2 ai2 : nat) (bv1 bi1 bv2 bi2 : Buffer).
Variables (attrs : list (string * Attribute)) (K KI : ArrayKind).
Variables (vs1 vs2 ixs1 ixs2 : list Z) (P : Z).
Hypothesis HKI : KI <> Float32Array.
Hypothesis Hg1 : h_geometries h !! g1 = Some G1.
Hypothesis Hbs1 : buffers G1 = Some [v1; i1].
Hypothesis Hib1 : indexBuffer G1 = Some i1.
Hypothesis Hv1 : h_buffers h !! v1 = Some bv1.
Hypothesis Hdv1 : data bv1 = DataArray av1.
Hypothesis Hav1 : h_arrays h !! av1 = Some {| ctor := K; elems := vs1 |}.
Hypothesis Hi1 : h_buffers h !! i1 = Some bi1.
Hypothesis Hdi1 : data bi1 = DataArray ai1.
Hypothesis Hai1 : h_arrays h !! ai1 = Some {| ctor := KI; elems := ixs1 |}.
Hypothesis Hg2 : h_geometries h !! g2 = Some G2.
Hypothesis Hbs2 : buffers G2 = Some [v2; i2].
Hypothesis Hib2 : indexBuffer G2 = Some i2.
Hypothesis Hat2 : attributes G2 = Some attrs.
Hypothesis Hne2 : v2 <> i2.
Hypothesis Hv2 : h_buffers h !! v2 = Some bv2.
Hypothesis Hdv2 : data bv2 = DataArray av2.
Hypothesis Hav2 : h_arrays h !! av2 = Some {| ctor := K; elems := vs2 |}.
Hypothesis Hi2 : h_buffers h !! i2 = Some bi2.
Hypothesis Hdi2 : data bi2 = DataArray ai2.
Hypothesis Hai2 : h_arrays h !! ai2 = Some {| ctor := KI; elems := ixs2 |}.
Hypothesis HP : vertex_count attrs vs2 = Fin (inject_Z P).

Ltac solve_lookup := repeat first [eassumption | apply lookup_app_l_Some].

Ltac lk :=
  repeat match goal with
  | Heq : ?l !! ?i = Some _ |- context [?l !! ?i] => rewrite Heq
  | |- context [(?l ++ ?k) !! ?i] =>
      erewrite (lookup_app_l_Some l k i) by solve_lookup
  end.

Ltac old_lookups Hgrown :=
  let la := fresh "la" in let lb := fresh "lb" in let lg := fresh "lg" in
  let Ha := fresh "Ha" in let Hb := fresh "Hb" in let Hg := fresh "Hg" in
  destruct Hgrown as ([la Ha] & [lb Hb] & [lg Hg]);
  pose proof (lookup_app_l_Some _ la _ _ Hav1);
  pose proof (lookup_app_l_Some _ la _ _ Hai1);
  pose proof (lookup_app_l_Some _ la _ _ Hav2);
  pose proof (lookup_app_l_Some _ la _ _ Hai2);
  pose proof (lookup_app_l_Some _ lb _ _ Hv1);
  pose proof (lookup_app_l_Some _ lb _ _ Hi1);
  pose proof (lookup_app_l_Some _ lb _ _ Hv2);
  pose proof (lookup_app_l_Some _ lb _ _ Hi2);
  pose proof (lookup_app_l_Some _ lg _ _ Hg1);
  pose proof (lookup_app_l_Some _ lg _ _ Hg2);
  rewrite <- ?Ha, <- ?Hb, <- ?Hg in *.

Lemma merge_pass_one_pair h0 :
  extends h h0 ->
  wp (merge_pass_one [g1; g2] [] []) h0
    (fun so h' =>
       so = ([Some (length vs1 + length vs2);
              Some (length ixs1 + length ixs2)], [Some 0; Some 0])
       /\ h' = h0)
    no_throw.
Proof.
  intros Hgrown. old_lookups Hgrown.
  cbn [merge_pass_one]. wp_steps.
  repeat match goal with Heq : _ !! _ = Some _ |- _ => rewrite Heq end.
  wp_steps. rewrite Hbs1. wp_steps.
  cbn [merge_sizes]. wp_steps.
  repeat match goal with Heq : _ !! _ = Some _ |- _ => rewrite Heq end.
  wp_steps. rewrite Hdv1. cbn [data_length]. wp_steps.
  repeat match goal with Heq : _ !! _ = Some _ |- _ => rewrite Heq end.
  wp_steps.
  repeat match goal with Heq : _ !! _ = Some _ |- _ => rewrite Heq end.
  wp_steps. rewrite Hdi1. cbn [data_length]. wp_steps.
  repeat match goal with Heq : _ !! _ = Some _ |- _ => rewrite Heq end.
  wp_steps.
  repeat match goal with Heq : _ !! _ = Some _ |- _ => rewrite Heq end.
  wp_steps. rewrite Hbs2. wp_steps.
  cbn [merge_sizes]. wp_steps.
  repeat match goal with Heq : _ !! _ = Some _ |- _ => rewrite Heq end.
  wp_steps. rewrite Hdv2. cbn [data_length]. wp_steps.
  repeat match goal with Heq : _ !! _ = Some _ |- _ => rewrite Heq end.
  wp_steps.
  repeat match goal with Heq : _ !! _ = Some _ |- _ => rewrite Heq end.
  wp_steps. rewrite Hdi2. cbn [data_length]. wp_steps.
  repeat match goal with Heq : _ !! _ = Some _ |- _ => rewrite Heq end.
  wp_steps. split; [|done]. simpl. do 3 f_equal.
Qed.

Lemma merge_build_pair h0 out gout n m :
  extends h h0 ->
  h_geometries h0 !! out = Some gout ->
  buffers gout = Some [] ->
  wp (merge_build out 0 [v2; i2] [Some n; Some m] []) h0
    (fun arrays h1 =>
       arrays = [OutTyped (length (h_arrays h0));
                 OutTyped (length (h_arrays h0) + 1)] /\
       h_arrays h1
       = h_arrays h0 ++ [array_zeros K n; array_zeros KI m] /\
       h_buffers h1
       = h_buffers h0
         ++ [{| data := DataArray (length (h_arrays h0)); index := false |};
             {| data := DataArray (length (h_arrays h0) + 1);
                index := false |}] /\
       h_geometries h1
       = <[out:=set_buffers
                  (Some [length (h_buffers h0); length (h_buffers h0) + 1])
                  gout]> (h_geometries h0))
    no_throw.
Proof.
  intros Hgrown Hout Hnone. old_lookups Hgrown.
  cbn [merge_build]. wp_steps. lk. wp_steps. rewrite Hdv2. wp_steps. lk.
  wp_steps. lk. wp_steps. rewrite Hdi2. wp_steps. lk. wp_steps.
  unfold id. rewrite <- !app_assoc, !length_app. simpl length.
  split_and!; try done.
  assert (out < length (h_geometries h0)) as Hlt by by eapply lookup_lt_Some.
  rewrite (list_alter_insert_eq _ _ _ _ Hout).
  erewrite list_alter_insert_eq by by apply list_lookup_insert_eq.
  rewrite list_insert_insert_eq. obj_simpl. by rewrite Hnone.
Qed.

Lemma merge_pass_two_pair h0 h1 :
  extends h h0 ->
  h_arrays h1
  = h_arrays h0 ++ [array_zeros K (length vs1 + length vs2);
                    array_zeros KI (length ixs1 + length ixs2)] ->
  (exists l, h_buffers h1 = h_buffers h0 ++ l) ->
  h_geometries h1 !! g1 = Some G1 ->
  h_geometries h1 !! g2 = Some G2 ->
  wp (merge_pass_two [g1; g2]
        [OutTyped (length (h_arrays h0));
         OutTyped (length (h_arrays h0) + 1)] [Some 0; Some 0]) h1
    (fun _ h2 =>
       h_arrays h2
       = h_arrays h0 ++ [{| ctor := K; elems := vs1 ++ vs2 |};
                         {| ctor := KI; elems := ixs1 ++ ixs2 |}] /\
       h_buffers h2 = h_buffers h1 /\
       h_geometries h2 = h_geometries h1)
    no_throw.
Proof.
  intros Hgrown Harr [lb1 Hbuf] Hg1' Hg2'. old_lookups Hgrown.
  assert (av1 < length (h_arrays h0)) by by eapply lookup_lt_Some.
  assert (ai1 < length (h_arrays h0)) by by eapply lookup_lt_Some.
  assert (av2 < length (h_arrays h0)) by by eapply lookup_lt_Some.
  assert (ai2 < length (h_arrays h0)) by by eapply lookup_lt_Some.
  cbn [merge_pass_two]. wp_steps. rewrite Hg1'. wp_steps. rewrite Hbs1.
  wp_step.
  eapply wp_mono;
    [eapply (merge_copy_two v1 i1 bv1 bi1 av1 ai1
               {| ctor := K; elems := vs1 |}
               {| ctor := KI; elems := ixs1 |}
               (length (h_arrays h0)) (length (h_arrays h0) + 1)
               (array_zeros K (length vs1 + length vs2))
               (array_zeros KI (length ixs1 + length ixs2)) 0 0);
     rewrite ?Harr, ?Hbuf; try done; try lia;
     try (by apply lookup_app_l_Some);
     try apply lookup_new_0; try apply lookup_new_1;
     simpl; rewrite ?repeat_length; lia
    | |done].
  cbn beta. intros offsets h2 (-> & Harr2 & Hbuf2 & Hgeo2).
  rewrite Harr, insert_new_0, insert_new_1 in Harr2.
  cbn [elems ctor array_zeros take app] in Harr2.
  rewrite !Nat.add_0_l, !drop_repeat_add in Harr2.
  wp_steps. rewrite Hgeo2, Hg2'. wp_steps. rewrite Hbs2. wp_step.
  eapply wp_mono;
    [eapply (merge_copy_two v2 i2 bv2 bi2 av2 ai2
               {| ctor := K; elems := vs2 |}
               {| ctor := KI; elems := ixs2 |}
               (length (h_arrays h0)) (length (h_arrays h0) + 1)
               {| ctor := K; elems := vs1 ++ repeat 0%Z (length vs2) |}
               {| ctor := KI; elems := ixs1 ++ repeat 0%Z (length ixs2) |}
               (0 + length vs1) (0 + length ixs1));
     rewrite ?Harr2, ?Hbuf2, ?Hbuf; try done; try lia;
     try (by apply lookup_app_l_Some);
     try apply lookup_new_0; try apply lookup_new_1;
     simpl; rewrite ?length_app, ?repeat_length; lia
    | |done].
  cbn beta. intros offsets h3 (-> & Harr3 & Hbuf3 & Hgeo3). wp_steps.
  split_and!; [|congruence..].
  rewrite Harr3, Harr2, insert_new_0, insert_new_1.
  cbn [elems ctor].
  rewrite !Nat.add_0_l, !take_app_length, !drop_app_add.
  rewrite !drop_ge by (rewrite repeat_length; lia). by rewrite !app_nil_r.
Qed.

End MergePair.

(** The loop of [merge] that renumbers the indices, for two geometries.
    [aout] is the array of the indices of the result and [s] the slot of the
    buffer whose length is counted. *)
Section MergeOffsets.
Context `{JSRuntime}.
Variables (h : Heap) (g1 g2 : nat) (G1 G2 : Geometry).
Variables (i1 i2 v2 ai1 ai2 av2 : nat) (bi1 bi2 bv2 : Buffer).
Variables (bs2 : list nat) (s : nat).
Variables (attrs : list (string * Attribute)) (K KI : ArrayKind).
Variables (vs2 ixs1 ixs2 : list Z) (P : Z).
Hypothesis HKI : KI <> Float32Array.
Hypothesis Hg1 : h_geometries h !! g1 = Some G1.
Hypothesis Hib1 : indexBuffer G1 = Some i1.
Hypothesis Hi1 : h_buffers h !! i1 = Some bi1.
Hypothesis Hdi1 : data bi1 = DataArray ai1.
Hypothesis Hai1 : h_arrays h !! ai1 = Some {| ctor := KI; elems := ixs1 |}.
Hypothesis Hg2 : h_geometries h !! g2 = Some G2.
Hypothesis Hib2 : indexBuffer G2 = Some i2.
Hypothesis Hbs2 : buffers G2 = Some bs2.
Hypothesis Hs : bs2 !! s = Some v2.
Hypothesis Hv2 : h_buffers h !! v2 = Some bv2.
Hypothesis Hdv2 : data bv2 = DataArray av2.
Hypothesis Hav2 : h_arrays h !! av2 = Some {| ctor := K; elems := vs2 |}.
Hypothesis Hi2 : h_buffers h !! i2 = Some bi2.
Hypothesis Hdi2 : data bi2 = DataArray ai2.
Hypothesis Hai2 : h_arrays h !! ai2 = Some {| ctor := KI; elems := ixs2 |}.
Hypothesis HP :
  num_div (Fin (of_nat (length vs2))) (merge_stride attrs s)
  = Fin (inject_Z P).

Lemma merge_offset_indices_pair h3 oib bu aout :
  (forall a t, h_arrays h !! a = Some t -> h_arrays h3 !! a = Some t) ->
  length (h_arrays h) <= aout ->
  h_arrays h3 !! aout = Some {| ctor := KI; elems := ixs1 ++ ixs2 |} ->
  (forall b x, h_buffers h !! b = Some x -> h_buffers h3 !! b = Some x) ->
  h_buffers h3 !! oib = Some bu ->
  data bu = DataArray aout ->
  h_geometries h3 !! g1 = Some G1 ->
  h_geometries h3 !! g2 = Some G2 ->
  wp (merge_offset_indices [g1; g2] G2 oib s (merge_stride attrs s) (Fin 0)
        (Some 0)) h3
    (fun _ h' =>
       h_arrays h'
       = <[aout:={| ctor := KI;
                    elems := map (fun v => wrap_int KI (v + 0)%Z) ixs1
                             ++ map (fun v => wrap_int KI (v + (0 + P))%Z)
                                  ixs2 |}]> (h_arrays h3) /\
       h_buffers h' = h_buffers h3 /\ h_geometries h' = h_geometries h3)
    no_throw.
Proof.
  intros Holda Hfresh Hout Hold Hoib Hdata Hg1' Hg2'.
  assert (forall a t x, h_arrays h !! a = Some t ->
            <[aout:=x]> (h_arrays h3) !! a = Some t) as Holdi.
  { intros a t x Hat. rewrite list_lookup_insert_ne; [by apply Holda|].
    apply lookup_lt_Some in Hat. lia. }
  assert (aout < length (h_arrays h3)) as Hlt by by eapply lookup_lt_Some.
  cbn [merge_offset_indices]. wp_steps. rewrite Hg1'. wp_steps. rewrite Hib1.
  wp_steps. rewrite (Hold _ _ Hi1). wp_steps. rewrite Hdi1.
  eapply wp_mono;
    [eapply (wp_data_length_array ai1 {| ctor := KI; elems := ixs1 |})
    | |done].
  { by apply Holda. }
  cbn beta. intros len ? (-> & ->). cbn [default elems]. wp_step.
  eapply wp_mono;
    [eapply (wp_add_block oib bu aout KI 0%Z 0
               (length ixs1) 0 (ixs1 ++ ixs2)); try done
    | |done].
  { rewrite length_app. lia. }
  cbn beta. intros [] h4 (Harr4 & Hbuf4 & Hgeo4).
  cbn [Nat.add] in Harr4.
  rewrite take_0, drop_0, take_app_length, drop_app_length, app_nil_l
    in Harr4.
  wp_steps. rewrite Hbs2. wp_steps. rewrite Hs. wp_steps.
  rewrite Hbuf4, (Hold _ _ Hv2). wp_steps. rewrite Hdv2.
  eapply wp_mono;
    [eapply (wp_data_length_array av2 {| ctor := K; elems := vs2 |})
    | |done].
  { rewrite Harr4. by apply Holdi. }
  cbn beta. intros len ? (-> & ->). cbn [elems].
  rewrite HP.
  change (Fin 0) with (Fin (inject_Z 0)). rewrite num_add_int.
  (* the second geometry *)
  cbn [merge_offset_indices]. wp_steps. rewrite Hgeo4, Hg2'. wp_steps.
  rewrite Hib2. wp_steps. rewrite Hbuf4, (Hold _ _ Hi2). wp_steps.
  rewrite Hdi2.
  eapply wp_mono;
    [eapply (wp_data_length_array ai2 {| ctor := KI; elems := ixs2 |})
    | |done].
  { rewrite Harr4. by apply Holdi. }
  cbn beta. intros len ? (-> & ->). cbn [default elems]. wp_step.
  eapply wp_mono;
    [eapply (wp_add_block oib bu aout KI (0 + P)%Z
               (0 + length ixs1) (length ixs2) 0
               (map (fun v => wrap_int KI (v + 0)%Z) ixs1 ++ ixs2));
     try done
    | |done].
  { by rewrite Hbuf4. }
  { rewrite Harr4. by apply list_lookup_insert_eq. }
  { rewrite length_app, length_map. lia. }
  cbn beta. intros [] h5 (Harr5 & Hbuf5 & Hgeo5).
  rewrite Harr4, list_insert_insert_eq in Harr5.
  rewrite !Nat.add_0_l in Harr5.
  rewrite <- (length_map (fun v => wrap_int KI (v + 0)%Z) ixs1) in Harr5 at 1 2 3.
  rewrite take_app_length, drop_app_length, drop_app_add in Harr5.
  rewrite take_ge, drop_ge, app_nil_r in Harr5 by lia.
  wp_steps. rewrite Hs. wp_steps.
  rewrite Hbuf5, Hbuf4, (Hold _ _ Hv2). wp_steps. rewrite Hdv2.
  eapply wp_mono;
    [eapply (wp_data_length_array av2 {| ctor := K; elems := vs2 |})
    | |done].
  { rewrite Harr5. by apply Holdi. }
  cbn beta. intros len ? (-> & ->). wp_steps.
  split_and!; [done|congruence..].
Qed.
End MergeOffsets.

(** [merge] of two geometries whose vertex buffer comes first. *)
Section MergeVertexFirst.
Context `{JSRuntime}.
Variables (h : Heap) (g1 g2 : nat) (G1 G2 : Geometry).
Variables (v1 i1 v2 i2 av1 ai1 av2 ai2 : nat) (bv1 bi1 bv2 bi2 : Buffer).
Variables (attrs : list (string * Attribute)) (K KI : ArrayKind).
Variables (vs1 vs2 ixs1 ixs2 : list Z) (P : Z).
Hypothesis HKI : KI <> Float32Array.
Hypothesis Hg1 : h_geometries h !! g1 = Some G1.
Hypothesis Hbs1 : buffers G1 = Some [v1; i1].
Hypothesis Hib1 : indexBuffer G1 = Some i1.
Hypothesis Hv1 : h_buffers h !! v1 = Some bv1.
Hypothesis Hdv1 : data bv1 = DataArray av1.
Hypothesis Hav1 : h_arrays h !! av1 = Some {| ctor := K; elems := vs1 |}.
Hypothesis Hi1 : h_buffers h !! i1 = Some bi1.
Hypothesis Hdi1 : data bi1 = DataArray ai1.
Hypothesis Hai1 : h_arrays h !! ai1 = Some {| ctor := KI; elems := ixs1 |}.
Hypothesis Hg2 : h_geometries h !! g2 = Some G2.
Hypothesis Hbs2 : buffers G2 = Some [v2; i2].
Hypothesis Hib2 : indexBuffer G2 = Some i2.
Hypothesis Hat2 : attributes G2 = Some attrs.
Hypothesis Hne2 : v2 <> i2.
Hypothesis Hv2 : h_buffers h !! v2 = Some bv2.
Hypothesis Hdv2 : data bv2 = DataArray av2.
Hypothesis Hav2 : h_arrays h !! av2 = Some {| ctor := K; elems := vs2 |}.
Hypothesis Hi2 : h_buffers h !! i2 = Some bi2.
Hypothesis Hdi2 : data bi2 = DataArray ai2.
Hypothesis Hai2 : h_arrays h !! ai2 = Some {| ctor := KI; elems := ixs2 |}.
Hypothesis HP :
  num_div (Fin (of_nat (length vs2))) (merge_stride attrs 0)
  = Fin (inject_Z P).
Hypothesis Hall : Forall (fun p => buffer p.2 = 0) attrs.

Lemma merge_pair_body :
  wp (merge [g1; g2]) h
    (fun out h' =>
       out = length (h_geometries h) /\ extends h h' /\
       mesh 0 h' out attrs K KI (vs1 ++ vs2)
         (map (fun v => wrap_int KI (v + 0)%Z) ixs1
          ++ map (fun v => wrap_int KI (v + (0 + P))%Z) ixs2))
    no_throw.
Proof.
  unfold merge, Geometry_new. wp_step. apply wp_alloc_geometry.
  set (gnew := {| buffers := Some (default [] None); indexBuffer := None;
                  attributes := Some (default [] None);
                  glVertexArrayObjects := Some [] |}).
  set (h0 := with_geometries (fun l => l ++ [gnew]) h).
  assert (extends h h0) as Hgrown.
  { split_and!; [exists []|exists []|exists [gnew]]; simpl;
      by rewrite ?app_nil_r. }
  assert (g1 < length (h_geometries h)) by by eapply lookup_lt_Some.
  assert (g2 < length (h_geometries h)) by by eapply lookup_lt_Some.
  wp_step.
  eapply wp_mono;
    [by eapply (merge_pass_one_pair h g1 g2 G1 G2 v1 i1 v2 i2 av1 ai1 av2
                  ai2 bv1 bi1 bv2 bi2 K KI vs1 vs2 ixs1 ixs2)
    | |done].
  cbn beta. intros so ? (-> & ->). cbn [fst snd last]. wp_steps.
  assert (h_geometries h0 !! g2 = Some G2) as ->
    by by apply lookup_app_l_Some.
  wp_steps. rewrite Hbs2. wp_step.
  eapply wp_mono;
    [eapply (merge_build_pair h g1 g2 G1 G2 v1 i1 v2 i2 av1 ai1 av2 ai2
               bv1 bi1 bv2 bi2 K KI vs1 vs2 ixs1 ixs2) with
       (h0 := h0) (out := length (h_geometries h)) (gout := gnew);
     [done..|apply lookup_snoc_new|done]
    | |done].
  cbn beta. intros arrays h1 (-> & Harr1 & Hbuf1 & Hgeo1). wp_step.
  eapply wp_mono;
    [eapply (merge_pass_two_pair h g1 g2 G1 G2 v1 i1 v2 i2 av1 ai1 av2 ai2
               bv1 bi1 bv2 bi2 K KI vs1 vs2 ixs1 ixs2) with
       (h0 := h0) (h1 := h1); try done
    | |done].
  { by eexists. }
  { rewrite Hgeo1, list_lookup_insert_ne by lia.
    by apply lookup_app_l_Some. }
  { rewrite Hgeo1, list_lookup_insert_ne by lia.
    by apply lookup_app_l_Some. }
  cbn beta. intros [] h2 (Harr2 & Hbuf2 & Hgeo2). wp_steps.
  rewrite Hib2. wp_steps.
  rewrite list_lookup_alter_eq, Hgeo2, Hgeo1.
  rewrite list_lookup_insert_eq
    by (simpl; rewrite length_app; simpl; lia).
  obj_simpl. cbn [indexOf].
  rewrite (proj2 (Nat.eqb_neq i2 v2)) by done. rewrite Nat.eqb_refl.
  cbn [option_map default lookup list_lookup]. wp_steps.
  cbn [find_bufferIndexToCount].
  rewrite (proj2 (Nat.eqb_neq v2 i2)) by done. cbn [negb]. rewrite Hat2.
  cbn [default].
  eapply wp_mono;
    [eapply (merge_offset_indices_pair h g1 g2 G1 G2 i1 i2 v2 ai1 ai2 av2
               bi1 bi2 bv2 [v2; i2] 0 attrs K KI vs2 ixs1 ixs2 P) with
       (aout := length (h_arrays h0) + 1)
       (bu := set_index true
                {| data := DataArray (length (h_arrays h0) + 1);
                   index := false |}); try done
    | |done].
  - heap_simpl. intros a t Hat. rewrite Harr2.
    by apply lookup_app_l_Some.
  - simpl. lia.
  - heap_simpl. rewrite Harr2. apply lookup_new_1.
  - heap_simpl. intros b x Hb. rewrite Hbuf2, Hbuf1.
    rewrite list_lookup_alter_ne
      by (apply lookup_lt_Some in Hb; simpl; lia).
    by apply lookup_app_l_Some.
  - heap_simpl. rewrite Hbuf2, Hbuf1.
    rewrite list_lookup_alter_eq. by rewrite lookup_new_1.
  - heap_simpl. rewrite !list_lookup_alter_ne by lia.
    rewrite Hgeo2, Hgeo1, list_lookup_insert_ne by lia.
    by apply lookup_app_l_Some.
  - heap_simpl. rewrite !list_lookup_alter_ne by lia.
    rewrite Hgeo2, Hgeo1, list_lookup_insert_ne by lia.
    by apply lookup_app_l_Some.
  - cbn beta. heap_simpl. intros [] h3 (Harr3 & Hbuf3 & Hgeo3). wp_steps.
    split; [done|].
    rewrite Harr2, insert_new_1 in Harr3.
    rewrite Hbuf2, Hbuf1 in Hbuf3. rewrite Hgeo2, Hgeo1 in Hgeo3.
    change (h_buffers h0) with (h_buffers h) in *.
    change (h_arrays h0) with (h_arrays h) in *.
    change (h_geometries h0) with (h_geometries h ++ [gnew]) in *.
    rewrite alter_new_1 in Hbuf3.
    rewrite insert_new_0, !alter_new_0 in Hgeo3.
    split; [split_and!; by eexists|].
    eexists _, (length (h_buffers h)), (length (h_buffers h) + 1),
      _, _, (length (h_arrays h)), (length (h_arrays h) + 1).
    rewrite Hgeo3, Hbuf3, Harr3.
    rewrite lookup_new_0, !lookup_new_1, !(lookup_new_0 _ _ [_]).
    split_and!; try done. lia.
Qed.
End MergeVertexFirst.

(** [merge] of two geometries whose index buffer comes first. *)
Section MergeIndexFirst.
Context `{JSRuntime}.
Variables (h : Heap) (g1 g2 : nat) (G1 G2 : Geometry).
Variables (v1 i1 v2 i2 av1 ai1 av2 ai2 : nat) (bv1 bi1 bv2 bi2 : Buffer).
Variables (attrs : list (string * Attribute)) (K KI : ArrayKind).
Variables (vs1 vs2 ixs1 ixs2 : list Z) (P : Z).
Hypothesis HKI : KI <> Float32Array.
Hypothesis Hg1 : h_geometries h !! g1 = Some G1.
Hypothesis Hbs1 : buffers G1 = Some [i1; v1].
Hypothesis Hib1 : indexBuffer G1 = Some i1.
Hypothesis Hv1 : h_buffers h !! v1 = Some bv1.
Hypothesis Hdv1 : data bv1 = DataArray av1.
Hypothesis Hav1 : h_arrays h !! av1 = Some {| ctor := K; elems := vs1 |}.
Hypothesis Hi1 : h_buffers h !! i1 = Some bi1.
Hypothesis Hdi1 : data bi1 = DataArray ai1.
Hypothesis Hai1 : h_arrays h !! ai1 = Some {| ctor := KI; elems := ixs1 |}.
Hypothesis Hg2 : h_geometries h !! g2 = Some G2.
Hypothesis Hbs2 : buffers G2 = Some [i2; v2].
Hypothesis Hib2 : indexBuffer G2 = Some i2.
Hypothesis Hat2 : attributes G2 = Some attrs.
Hypothesis Hne2 : v2 <> i2.
Hypothesis Hv2 : h_buffers h !! v2 = Some bv2.
Hypothesis Hdv2 : data bv2 = DataArray av2.
Hypothesis Hav2 : h_arrays h !! av2 = Some {| ctor := K; elems := vs2 |}.
Hypothesis Hi2 : h_buffers h !! i2 = Some bi2.
Hypothesis Hdi2 : data bi2 = DataArray ai2.
Hypothesis Hai2 : h_arrays h !! ai2 = Some {| ctor := KI; elems := ixs2 |}.
Hypothesis HP :
  num_div (Fin (of_nat (length vs2))) (merge_stride attrs 1)
  = Fin (inject_Z P).
Hypothesis Hall : Forall (fun p => buffer p.2 = 1) attrs.

Lemma merge_pair_body_index_first :
  wp (merge [g1; g2]) h
    (fun out h' =>
       out = length (h_geometries h) /\ extends h h' /\
       mesh 1 h' out attrs K KI (vs1 ++ vs2)
         (map (fun v => wrap_int KI (v + 0)%Z) ixs1
          ++ map (fun v => wrap_int KI (v + (0 + P))%Z) ixs2))
    no_throw.
Proof.
  unfold merge, Geometry_new. wp_step. apply wp_alloc_geometry.
  set (gnew := {| buffers := Some (default [] None); indexBuffer := None;
                  attributes := Some (default [] None);
                  glVertexArrayObjects := Some [] |}).
  set (h0 := with_geometries (fun l => l ++ [gnew]) h).
  assert (extends h h0) as Hgrown.
  { split_and!; [exists []|exists []|exists [gnew]]; simpl;
      by rewrite ?app_nil_r. }
  assert (g1 < length (h_geometries h)) by by eapply lookup_lt_Some.
  assert (g2 < length (h_geometries h)) by by eapply lookup_lt_Some.
  assert (i2 <> v2) as Hne2' by by intros ->.
  wp_step.
  eapply wp_mono;
    [by eapply (merge_pass_one_pair h g1 g2 G1 G2 i1 v1 i2 v2 ai1 av1 ai2
                  av2 bi1 bv1 bi2 bv2 KI K ixs1 ixs2 vs1 vs2)
    | |done].
  cbn beta. intros so ? (-> & ->). cbn [fst snd last]. wp_steps.
  assert (h_geometries h0 !! g2 = Some G2) as ->
    by by apply lookup_app_l_Some.
  wp_steps. rewrite Hbs2. wp_step.
  eapply wp_mono;
    [eapply (merge_build_pair h g1 g2 G1 G2 i1 v1 i2 v2 ai1 av1 ai2 av2
               bi1 bv1 bi2 bv2 KI K ixs1 ixs2 vs1 vs2) with
       (h0 := h0) (out := length (h_geometries h)) (gout := gnew);
     [done..|apply lookup_snoc_new|done]
    | |done].
  cbn beta. intros arrays h1 (-> & Harr1 & Hbuf1 & Hgeo1). wp_step.
  eapply wp_mono;
    [eapply (merge_pass_two_pair h g1 g2 G1 G2 i1 v1 i2 v2 ai1 av1 ai2 av2
               bi1 bv1 bi2 bv2 KI K ixs1 ixs2 vs1 vs2) with
       (h0 := h0) (h1 := h1); try done
    | |done].
  { by eexists. }
  { rewrite Hgeo1, list_lookup_insert_ne by lia.
    by apply lookup_app_l_Some. }
  { rewrite Hgeo1, list_lookup_insert_ne by lia.
    by apply lookup_app_l_Some. }
  cbn beta. intros [] h2 (Harr2 & Hbuf2 & Hgeo2). wp_steps.
  rewrite Hib2. wp_steps.
  rewrite list_lookup_alter_eq, Hgeo2, Hgeo1.
  rewrite list_lookup_insert_eq
    by (simpl; rewrite length_app; simpl; lia).
  obj_simpl. cbn [indexOf]. rewrite Nat.eqb_refl.
  cbn [option_map default lookup list_lookup]. wp_steps.
  cbn [find_bufferIndexToCount]. rewrite Nat.eqb_refl.
  rewrite (proj2 (Nat.eqb_neq v2 i2)) by done. cbn [negb]. rewrite Hat2.
  cbn [default].
  eapply wp_mono;
    [eapply (merge_offset_indices_pair h g1 g2 G1 G2 i1 i2 v2 ai1 ai2 av2
               bi1 bi2 bv2 [i2; v2] 1 attrs K KI vs2 ixs1 ixs2 P) with
       (aout := length (h_arrays h0))
       (bu := set_index true
                {| data := DataArray (length (h_arrays h0));
                   index := false |}); try done
    | |done].
  - heap_simpl. intros a t Hat. rewrite Harr2.
    by apply lookup_app_l_Some.
  - heap_simpl. rewrite Harr2. apply lookup_new_0.
  - heap_simpl. intros b x Hb. rewrite Hbuf2, Hbuf1.
    rewrite list_lookup_alter_ne
      by (apply lookup_lt_Some in Hb; simpl; lia).
    by apply lookup_app_l_Some.
  - heap_simpl. rewrite Hbuf2, Hbuf1.
    rewrite list_lookup_alter_eq. by rewrite lookup_new_0.
  - heap_simpl. rewrite !list_lookup_alter_ne by lia.
    rewrite Hgeo2, Hgeo1, list_lookup_insert_ne by lia.
    by apply lookup_app_l_Some.
  - heap_simpl. rewrite !list_lookup_alter_ne by lia.
    rewrite Hgeo2, Hgeo1, list_lookup_insert_ne by lia.
    by apply lookup_app_l_Some.
  - cbn beta. heap_simpl. intros [] h3 (Harr3 & Hbuf3 & Hgeo3). wp_steps.
    split; [done|].
    rewrite Harr2, insert_new_0 in Harr3.
    rewrite Hbuf2, Hbuf1 in Hbuf3. rewrite Hgeo2, Hgeo1 in Hgeo3.
    change (h_buffers h0) with (h_buffers h) in *.
    change (h_arrays h0) with (h_arrays h) in *.
    change (h_geometries h0) with (h_geometries h ++ [gnew]) in *.
    rewrite alter_new_0 in Hbuf3.
    rewrite insert_new_0, !alter_new_0 in Hgeo3.
    split; [split_and!; by eexists|].
    eexists _, (length (h_buffers h) + 1), (length (h_buffers h)),
      _, _, (length (h_arrays h) + 1), (length (h_arrays h)).
    rewrite Hgeo3, Hbuf3, Harr3.
    rewrite lookup_new_0, !lookup_new_1, !(lookup_new_0 _ _ [_]).
    split_and!; try done. lia.
Qed.
End MergeIndexFirst.

(** * The claims of the specification *)

(** ** Destruction *)

Lemma wp_destroy_all bs h :
  Forall (fun b => is_Some (h_buffers h !! b)) bs ->
  wp (for_each Buffer_destroy bs) h
    (fun _ h' =>
       h_arrays h' = h_arrays h /\ h_geometries h' = h_geometries h /\
       length (h_buffers h') = length (h_buffers h))
    no_throw.
Proof.
  intros Hbs. unfold wp.
  rewrite (for_each_ext Buffer_destroy
             (fun b => if is_not b None then Buffer_destroy b else ret tt))
    by done.
  eapply wp_mono; [by apply wp_destroy_loop| |done].
  cbn beta. intros _ h' (? & ? & ? & _). done.
Qed.

(** C1: [destroy()] on a geometry without index buffer does not complete.
    It releases the cache and the buffers, sets [buffers] to null, and then
    throws a TypeError at [this.indexBuffer.destroy()]; the attribute map is
    not cleared. *)
Theorem destroy_without_index_throws this h g bs :
  h_geometries h !! this = Some g ->
  indexBuffer g = None ->
  is_Some (glVertexArrayObjects g) ->
  buffers g = Some bs ->
  Forall (fun b => is_Some (h_buffers h !! b)) bs ->
  wp (destroy this) h
    (fun _ _ => False)
    (fun e h' =>
       e = TypeError /\
       exists g', h_geometries h' !! this = Some g' /\
         glVertexArrayObjects g' = None /\ buffers g' = None /\
         attributes g' = attributes g).
Proof.
  intros Hg Hib [vao Hvao] Hbs Hlive. unfold destroy. wp_steps.
  rewrite Hg. wp_steps. rewrite Hvao. wp_steps. rewrite Hbs. wp_steps.
  eapply wp_mono; [apply wp_destroy_all; by heap_simpl| |done].
  cbn beta. intros [] h1 (_ & Hgeo & _). wp_steps. rewrite Hib.
  unfold nonnull, throw, wp. split; [done|].
  heap_simpl. rewrite Hgeo. heap_simpl.
  rewrite !list_lookup_alter_eq, Hg. by eexists.
Qed.

Lemma destroy_without_index_throws_witness :
  wp (destroy 0) fresh_heap
    (fun _ _ => False)
    (fun e h' =>
       e = TypeError /\
       exists g', h_geometries h' !! 0 = Some g' /\
         glVertexArrayObjects g' = None /\ buffers g' = None /\
         attributes g' = Some []).
Proof.
  apply (destroy_without_index_throws 0 fresh_heap
           {| buffers := Some []; indexBuffer := None; attributes := Some [];
              glVertexArrayObjects := Some [] |} []);
    [reflexivity | reflexivity | by eexists | reflexivity | constructor].
Defined.

(** ** Merge: the offsets of the indices *)

(** C2: [merge] does not advance the running offset by the vertex count of
    the geometry it has just processed: it reads the count from the variable
    [geometry], which holds the last geometry.  Merging a geometry of three
    vertices (indices 0, 1, 2) with one of four vertices (indices 0, 1, 2, 3)
    offsets the indices of the second by four, where the first geometry
    contributes three vertices. *)
Theorem merge_offsets_by_last_geometry :
  vertex_count (H := example_runtime) value_attributes
    [1088421888; 1090519040; 1091567616]%Z = Fin 3 /\
  exists h',
    merge (H := example_runtime) [0; 1] unequal_heap = Ok 2 h' /\
    indexed_geometry unequal_heap 0 value_attributes Float32Array Uint16Array
      [1088421888; 1090519040; 1091567616]%Z [0; 1; 2]%Z /\
    indexed_geometry unequal_heap 1 value_attributes Float32Array Uint16Array
      [1065353216; 1073741824; 1077936128; 1082130432]%Z [0; 1; 2; 3]%Z /\
    indexed_geometry h' 2 value_attributes Float32Array Uint16Array
      [1088421888; 1090519040; 1091567616;
       1065353216; 1073741824; 1077936128; 1082130432]%Z
      [0; 1; 2; 4; 5; 6; 7]%Z.
Proof.
  split; [reflexivity|]. eexists. split; [vm_compute; reflexivity|].
  split_and!; do 7 eexists; split_and!; try reflexivity; lia.
Qed.

(** ** Registration without a buffer *)

(** C9: [addAttribute] without a buffer throws the error of its first
    statement at once, in the heap it was called in: neither the buffers nor
    the attributes of the geometry have changed. *)
Theorem addAttribute_without_buffer `{JSRuntime} this id size normalised type
    stride start instance h :
  addAttribute this id ArgNone size normalised type stride start instance h
  = Throw (Error "You must pass a buffer when creating an attribute") h.
Proof. reflexivity. Qed.

(** ** Attribute lookup *)

(** C10: for a name of the attribute map, [getAttribute] returns the entry
    of the buffer list at the [buffer] index of the attribute, that is a
    Buffer and not the Attribute, and changes nothing. *)
Theorem getAttribute_returns_buffer h this g attrs bs name a :
  h_geometries h !! this = Some g ->
  attributes g = Some attrs ->
  buffers g = Some bs ->
  attr_lookup name attrs = Some a ->
  getAttribute this name h = Ok (bs !! buffer a) h.
Proof.
  intros Hg Ha Hb Hl. unfold getAttribute, bind, get_geometry.
  rewrite Hg. simpl. rewrite Ha. simpl. rewrite Hl. simpl. by rewrite Hb.
Qed.

Lemma getAttribute_returns_buffer_witness :
  getAttribute 0 "aColor" example_heap = Ok (Some 1) example_heap.
Proof.
  exact (getAttribute_returns_buffer example_heap 0 _ _ [0; 1; 2] "aColor"
           (Attribute_new 1 3 false FLOAT None None false)
           eq_refl eq_refl eq_refl eq_refl).
Defined.

(** ** Interleaving twice *)

(** C5: when [interleave()] returns, it returns the geometry it was called
    on, and a second call returns at once by the fast path: it returns the
    same geometry and leaves the whole heap, hence the list of buffers and
    the buffer indices of the attributes, as the first call left it. *)
Theorem interleave_idempotent `{JSRuntime} this h r h1 :
  interleave this h = Ok r h1 ->
  r = this /\ interleave this h1 = Ok this h1 /\
  exists g, h_geometries h1 !! this = Some g /\ already_interleaved g.
Proof.
  intros Hrun. destruct (interleave_twice _ _ _ _ Hrun) as [-> Hsnd].
  split_and!; [done..|].
  destruct (interleave_shape _ _ _ _ Hrun) as (_ & g & Hg & Hshape).
  exists g. split; [done|].
  destruct Hshape as [[_ ?]|?]; [done|by apply interleaved_buffers_already].
Qed.

Lemma interleave_idempotent_witness :
  interleave (H := example_runtime) 0 interleaved_heap = Ok 0 interleaved_heap.
Proof.
  refine (proj1 (proj2 (interleave_idempotent (H := example_runtime)
                          0 example_heap 0 interleaved_heap _))).
  vm_compute. reflexivity.
Defined.

(** ** No orphan index buffer *)

Section Receiver.
Context `{JSRuntime}.

Lemma addIndex_returns_this this arg h r h' :
  addIndex this arg h = Ok r h' -> r = this.
Proof.
  intros Hrun. apply (wp_run _ _ _ _ (fun r _ => r = this) Hrun).
  unfold addIndex. apply wp_bind, wp_any. intros buf h1 _.
  do 5 (apply wp_bind, wp_any; intros ? ? _).
  apply wp_bind, wp_any. intros bs h2 _.
  apply wp_bind, wp_any. intros ? ? _. by wp_steps.
Qed.

Lemma register_returns_this this id buf size normalised type stride start
    instance h r h' :
  addAttribute_register this id buf size normalised type stride start
    instance h = Ok r h' -> r = this.
Proof.
  intros Hrun. apply (wp_run _ _ _ _ (fun r _ => r = this) Hrun).
  unfold addAttribute_register.
  do 6 (apply wp_bind, wp_any; intros ? ? _). by wp_steps.
Qed.

Lemma addAttribute_returns_this this id arg size normalised type stride
    start instance h r h' :
  addAttribute this id arg size normalised type stride start instance h
  = Ok r h' -> r = this.
Proof.
  intros Hrun. apply (wp_run _ _ _ _ (fun r _ => r = this) Hrun).
  unfold addAttribute, addAttribute_body at 1.
  apply wp_bind, wp_any. intros buf h1 _.
  destruct (1 <? length (split separator id)).
  - apply wp_bind, wp_any. intros ? ? _. by wp_steps.
  - apply wp_any. intros ? ?. apply register_returns_this.
Qed.

Lemma perform_receiver op this h r h' :
  receiver op = Some this -> perform op h = Ok r h' -> r = this.
Proof.
  destruct op; simpl; intros [= <-] Hrun.
  - by eapply addAttribute_returns_this.
  - by eapply addIndex_returns_this.
  - by eapply interleave_shape.
Qed.

Lemma perform_index_in_buffers op h r h' :
  (forall this,
     receiver op = Some this -> at_geometry this index_in_buffers h) ->
  perform op h = Ok r h' ->
  at_geometry r index_in_buffers h'.
Proof.
  intros Hpre Hrun.
  destruct (receiver op) as [this|] eqn:Hop.
  - rewrite (perform_receiver _ _ _ _ _ Hop Hrun).
    specialize (Hpre this eq_refl).
    destruct op; simplify_eq/=.
    + by eapply index_in_buffers_addAttribute.
    + by eapply index_in_buffers_addIndex.
    + by eapply index_in_buffers_interleave.
  - destruct op; simplify_eq/=.
    + by eapply index_in_buffers_clone.
    + by eapply index_in_buffers_merge.
Qed.
End Receiver.

(** C7: if the index buffer of the geometry a call works on is among its
    buffers, or if the call makes a new geometry, then in the geometry that
    [addAttribute], [addIndex], [interleave], [clone] or [merge] returns an
    index buffer that is set is an element of the list of buffers. *)
Theorem no_orphan_index_buffer `{JSRuntime} op h r h' :
  (forall this,
     receiver op = Some this -> at_geometry this index_in_buffers h) ->
  perform op h = Ok r h' ->
  forall g ib, h_geometries h' !! r = Some g -> indexBuffer g = Some ib ->
    exists bs, buffers g = Some bs /\ ib ∈ bs.
Proof.
  intros Hpre Hrun g ib Hg. by apply (perform_index_in_buffers op h r h').
Qed.

Lemma no_orphan_index_buffer_witness :
  exists bs, Some [3; 2] = Some bs /\ 2 ∈ bs.
Proof.
  refine (no_orphan_index_buffer (H := example_runtime) (OpInterleave 0)
            example_heap 0 interleaved_heap _ _
            {| buffers := Some [3; 2]; indexBuffer := Some 2;
               attributes :=
                 Some [("aVertexPosition"%string,
                        Attribute_new 0 2 false FLOAT None None false);
                       ("aColor"%string,
                        Attribute_new 0 3 false FLOAT None None false)];
               glVertexArrayObjects := Some [] |} 2 _ _).
  - intros this [= <-] g0 [= <-] ib [= <-]. exists [0; 1; 2].
    split; [reflexivity|]. by apply list_elem_of_lookup_2 with 2.
  - vm_compute. reflexivity.
  - reflexivity.
  - reflexivity.
Defined.

(** ** Registration under several names *)

(** C8: [addAttribute] with a buffer argument and a name that contains the
    separator returns the geometry.  The Buffer it registers is the one of
    the argument: the Buffer passed, or one new Buffer made of the array or
    typed array passed, and the call allocates nothing else.  That Buffer is
    then in the list of buffers, appended once if it was not there; every
    piece of the name is registered with the slot of that Buffer, the given
    size, normalisation and type, and no stride, start or instancing; and the
    entry of the whole name is as it was. *)
Theorem addAttribute_split_names `{JSRuntime} this id arg size normalised type
    stride start instance h g bs attrs :
  h_geometries h !! this = Some g ->
  buffers g = Some bs ->
  attributes g = Some attrs ->
  arg <> ArgNone ->
  valid_arg h arg ->
  contains separator id = true ->
  exists h' g' buf slot bs' attrs',
    addAttribute this id arg size normalised type stride start instance h
    = Ok this h' /\
    buffer_of_arg h h' arg buf /\
    h_geometries h' !! this = Some g' /\
    buffers g' = Some bs' /\ attributes g' = Some attrs' /\
    (bs' = bs \/ ((buf ∉ bs) /\ bs' = bs ++ [buf])) /\
    bs' !! slot = Some buf /\
    (forall p, p ∈ split separator id ->
       attr_lookup p attrs'
       = Some (Attribute_new slot size normalised type None None false)) /\
    attr_lookup id attrs' = attr_lookup id attrs.
Proof.
  intros Hg Hbs Hattrs Harg Hvalid Hsep.
  destruct (addAttribute_split_total this id arg size normalised type stride
              start instance h g bs attrs)
    as (h' & g' & buf & Hrun & Hbuf & Hg' & Hbs' & Hattrs' & _); try done.
  exists h', g', buf, (slot_of buf bs), (with_buffer buf bs). eexists.
  split_and!; try done.
  - unfold with_buffer. destruct (indexOf buf bs) eqn:Hi; [by left|right].
    split; [by apply indexOf_None|done].
  - apply lookup_with_buffer.
  - intros p Hp. rewrite attr_lookup_set_all. by rewrite decide_True.
  - rewrite attr_lookup_set_all. rewrite decide_False; [done|].
    by apply contains_not_part.
Qed.

Lemma addAttribute_split_names_witness :
  exists h' g' buf slot bs' attrs',
    addAttribute (H := example_runtime) 0 "aPosition|aNormal"
      (ArgArray example_positions) 2 false FLOAT None None false fresh_heap
    = Ok 0 h' /\
    buffer_of_arg (H := example_runtime) fresh_heap h'
      (ArgArray example_positions) buf /\
    h_geometries h' !! 0 = Some g' /\
    buffers g' = Some bs' /\ attributes g' = Some attrs' /\
    (bs' = [] \/ ((buf ∉ []) /\ bs' = [] ++ [buf])) /\
    bs' !! slot = Some buf /\
    (forall p, p ∈ split separator "aPosition|aNormal" ->
       attr_lookup p attrs'
       = Some (Attribute_new slot 2 false FLOAT None None false)) /\
    attr_lookup "aPosition|aNormal" attrs' = attr_lookup "aPosition|aNormal" [].
Proof.
  apply (addAttribute_split_names (H := example_runtime) 0 "aPosition|aNormal"
           (ArgArray example_positions) 2 false FLOAT None None false
           fresh_heap
           {| buffers := Some []; indexBuffer := None; attributes := Some [];
              glVertexArrayObjects := Some [] |} [] []);
    [reflexivity | reflexivity | reflexivity | discriminate | exact I
    | reflexivity].
Defined.

(** ** The layout of an interleaved buffer *)



(** ** Merge of two indexed geometries *)

Lemma wrap_int_in_range k z :
  (min_int k <= z <= max_int k)%Z -> wrap_int k z = z.
Proof.
  unfold min_int, max_int, wrap_int.
  destruct k; cbn; intros Hz; rewrite ?Z.mod_small by lia; lia.
Qed.

Lemma mesh_index s s' h g attrs attrs' K K' KI KI' vs vs' ixs ixs' :
  mesh s h g attrs K KI vs ixs ->
  mesh s' h g attrs' K' KI' vs' ixs' ->
  ixs = ixs'.
Proof.
  intros (G & v & i & bv & bi & av & ai & HG & _ & Hib & _ & _ & _ & _ & _
          & _ & Hbi & Hdi & Hai).
  intros (G' & v' & i' & bv' & bi' & av' & ai' & HG' & _ & Hib' & _ & _ & _
          & _ & _ & _ & Hbi' & Hdi' & Hai').
  congruence.
Qed.

Lemma mesh_vertices s s' h g attrs attrs' K K' KI KI' vs vs' ixs ixs' :
  mesh s h g attrs K KI vs ixs ->
  mesh s' h g attrs' K' KI' vs' ixs' ->
  vs = vs'.
Proof.
  intros (G & v & i & bv & bi & av & ai & HG & Hbs & Hib & _ & Hne & _ & Hbv
          & Hdv & Hav & _).
  intros (G' & v' & i' & bv' & bi' & av' & ai' & HG' & Hbs' & Hib' & _ & Hne'
          & _ & Hbv' & Hdv' & Hav' & _).
  assert (i = i') as <- by congruence.
  assert (v = v') as <-.
  { rewrite HG in HG'. injection HG' as <-. rewrite Hbs in Hbs'.
    destruct s as [|s], s' as [|s']; simpl in Hbs'; congruence. }
  congruence.
Qed.

Section MergeTwo.
Context `{JSRuntime}.

(** The stride that [merge] computes is a quarter of the bytes of a
    vertex. *)
Lemma merge_stride_from s attrs :
  (Z.of_nat s < 2 ^ 31)%Z ->
  Forall (fun p => buffer p.2 = s) attrs ->
  forall B q,
    vertex_bytes attrs = Some B ->
    fold_left
      (fun stride '(_, attribute) =>
         if Z.eqb (to_int32 (Z.of_nat (buffer attribute))) (Z.of_nat s)
         then num_add stride (footprint attribute)
         else stride)
      attrs (Fin (Qred q))
    = Fin (Qred (q + inject_Z (Z.of_N B) / 4)).
Proof.
  intros Hs. induction 1 as [|[name a] attrs Ha _ IH]; intros B q HB.
  - injection HB as <-. simpl. f_equal. apply Qred_complete.
    unfold Qdiv. change (inject_Z (Z.of_N 0)) with 0%Q. ring.
  - simpl in HB, Ha. cbn [fold_left]. rewrite Ha.
    rewrite to_int32_small by lia. rewrite Z.eqb_refl.
    unfold footprint.
    destruct (GL_SIZE_MAP (type a)) as [w|]; [|done].
    destruct (vertex_bytes attrs) as [n|]; [|done].
    injection HB as <-. cbn [num_add]. rewrite (IH n) by done.
    f_equal. apply Qred_complete. rewrite !Qred_correct.
    rewrite N2Z.inj_add, N2Z.inj_mul, inject_Z_plus, inject_Z_mult.
    field.
Qed.

Lemma merge_stride_vertex_bytes s attrs B :
  (Z.of_nat s < 2 ^ 31)%Z ->
  Forall (fun p => buffer p.2 = s) attrs ->
  vertex_bytes attrs = Some B ->
  merge_stride attrs s = Fin (Qred (0 + inject_Z (Z.of_N B) / 4)).
Proof.
  intros Hs Hall HB. unfold merge_stride.
  change (Fin 0) with (Fin (Qred 0)). by apply merge_stride_from.
Qed.

(** In a typed array of four-byte elements the offset that [merge] adds is
    the number of vertices. *)
Lemma offset_of_vertices s attrs K vs P :
  (Z.of_nat s < 2 ^ 31)%Z ->
  Forall (fun p => buffer p.2 = s) attrs ->
  BYTES_PER_ELEMENT K = 4 ->
  has_vertices attrs K vs P ->
  num_div (Fin (of_nat (length vs))) (merge_stride attrs s)
  = Fin (inject_Z (Z.of_nat P)).
Proof.
  intros Hs Hall HK (B & HB & Hpos & Hlen). rewrite HK in Hlen.
  rewrite (merge_stride_vertex_bytes s attrs B) by done.
  assert (~ (0 + inject_Z (Z.of_N B) / 4 == 0)%Q) as Hne.
  { rewrite Qplus_0_l. unfold Qdiv. intros Hz.
    apply Qmult_integral in Hz as [Hz|Hz]; [|done].
    unfold Qeq in Hz. simpl in Hz. lia. }
  unfold num_div.
  destruct (Qeq_bool (Qred (0 + inject_Z (Z.of_N B) / 4)) 0) eqn:Hz.
  { apply Qeq_bool_eq in Hz. by rewrite Qred_correct in Hz. }
  f_equal. rewrite <- (Qred_inject_Z (Z.of_nat P)). apply Qred_complete.
  rewrite Qred_correct, Qplus_0_l. unfold of_nat.
  assert (Z.of_nat (length vs) * 4 = Z.of_nat P * Z.of_N B)%Z as Hlen'
    by lia.
  assert (inject_Z (Z.of_nat (length vs)) * 4
          == inject_Z (Z.of_nat P) * inject_Z (Z.of_N B))%Q as Hq.
  { change 4%Q with (inject_Z 4). rewrite <- !inject_Z_mult.
    by rewrite Hlen'. }
  assert (~ (inject_Z (Z.of_N B) == 0)%Q) as HB0.
  { intros Hz'. unfold Qeq in Hz'. simpl in Hz'. lia. }
  assert (inject_Z (Z.of_nat (length vs))
          == inject_Z (Z.of_nat P) * inject_Z (Z.of_N B) / 4)%Q as ->
    by (rewrite <- Hq; field).
  by field.
Qed.

Lemma has_vertices_app attrs K vs1 vs2 P1 P2 :
  has_vertices attrs K vs1 P1 ->
  has_vertices attrs K vs2 P2 ->
  has_vertices attrs K (vs1 ++ vs2) (P1 + P2).
Proof.
  intros (B & HB & Hpos & H1) (B' & HB' & _ & H2).
  assert (B' = B) as -> by congruence.
  exists B. split_and!; [done..|]. rewrite length_app. lia.
Qed.

Lemma merge_pair_total s h g1 g2 attrs K KI vs1 vs2 ixs1 ixs2 P :
  s <= 1 ->
  KI <> Float32Array ->
  mesh s h g1 attrs K KI vs1 ixs1 ->
  mesh s h g2 attrs K KI vs2 ixs2 ->
  num_div (Fin (of_nat (length vs2))) (merge_stride attrs s)
  = Fin (inject_Z P) ->
  exists h',
    merge [g1; g2] h = Ok (length (h_geometries h)) h' /\
    extends h h' /\
    mesh s h' (length (h_geometries h)) attrs K KI (vs1 ++ vs2)
      (map (wrap_int KI) ixs1
       ++ map (fun v => wrap_int KI (v + P)%Z) ixs2).
Proof.
  intros Hs HKI
    (G1 & v1 & i1 & bv1 & bi1 & av1 & ai1 & Hg1 & Hbs1 & Hib1 & _ & _ & _
     & Hv1 & Hdv1 & Hav1 & Hi1 & Hdi1 & Hai1)
    (G2 & v2 & i2 & bv2 & bi2 & av2 & ai2 & Hg2 & Hbs2 & Hib2 & Hat2 & Hne2
     & Hall & Hv2 & Hdv2 & Hav2 & Hi2 & Hdi2 & Hai2) HP.
  assert (exists h',
            merge [g1; g2] h = Ok (length (h_geometries h)) h' /\
            extends h h' /\
            mesh s h' (length (h_geometries h)) attrs K KI (vs1 ++ vs2)
              (map (fun v => wrap_int KI (v + 0)%Z) ixs1
               ++ map (fun v => wrap_int KI (v + (0 + P))%Z) ixs2))
    as (h' & Hrun & Hext & Hout).
  { destruct s as [|[|s]]; [| |lia]; simpl in Hbs1, Hbs2.
    - destruct (wp_total _ _ _
                  (merge_pair_body h g1 g2 G1 G2 v1 i1 v2 i2 av1 ai1 av2
                     ai2 bv1 bi1 bv2 bi2 attrs K KI vs1 vs2 ixs1 ixs2 P HKI
                     Hg1 Hbs1 Hib1 Hv1 Hdv1 Hav1 Hi1 Hdi1 Hai1 Hg2 Hbs2
                     Hib2 Hat2 Hne2 Hv2 Hdv2 Hav2 Hi2 Hdi2 Hai2 HP Hall))
        as (out & h' & Hrun & -> & Hext & Hout).
      by exists h'.
    - destruct (wp_total _ _ _
                  (merge_pair_body_index_first h g1 g2 G1 G2 v1 i1 v2 i2
                     av1 ai1 av2 ai2 bv1 bi1 bv2 bi2 attrs K KI vs1 vs2
                     ixs1 ixs2 P HKI Hg1 Hbs1 Hib1 Hv1 Hdv1 Hav1 Hi1 Hdi1
                     Hai1 Hg2 Hbs2 Hib2 Hat2 Hne2 Hv2 Hdv2 Hav2 Hi2 Hdi2
                     Hai2 HP Hall))
        as (out & h' & Hrun & -> & Hext & Hout).
      by exists h'. }
  exists h'. split_and!; [done..|].
  rewrite (map_ext (fun v => wrap_int KI (v + 0)%Z) (wrap_int KI)),
    (map_ext (fun v => wrap_int KI (v + (0 + P))%Z)
       (fun v => wrap_int KI (v + P)%Z)) in Hout;
    [exact Hout|..]; intros v; f_equal; lia.
Qed.
End MergeTwo.




(** ** Clone *)

Lemma holds_arrays_frame h h' bs ts :
  (forall a t, h_arrays h !! a = Some t -> h_arrays h' !! a = Some t) ->
  (forall b bu, h_buffers h !! b = Some bu -> h_buffers h' !! b = Some bu) ->
  holds_arrays h bs ts -> holds_arrays h' bs ts.
Proof.
  intros Ha Hb Hlive. eapply Forall2_impl; [exact Hlive|].
  intros b t (bu & a & Hbu & Hd & Ht). exists bu, a. auto.
Qed.

Lemma holds_new_arrays_holds nb na h bs ts :
  holds_new_arrays nb na h bs ts -> holds_arrays h bs ts.
Proof.
  intros Hnew. eapply Forall2_impl; [exact Hnew|].
  intros b t (bu & a & ? & ? & ? & _). by exists bu, a.
Qed.

Lemma holds_new_arrays_elem nb na h bs ts b bu a :
  holds_new_arrays nb na h bs ts ->
  b ∈ bs -> h_buffers h !! b = Some bu -> data bu = DataArray a ->
  nb <= b /\ na <= a.
Proof.
  intros Hnew Hin Hbu Hd.
  apply list_elem_of_lookup_1 in Hin as [i Hi].
  destruct (Forall2_lookup_l _ _ _ _ _ Hnew Hi)
    as (t & _ & bu' & a' & Hbu' & Hd' & _ & ? & ?).
  assert (a = a') as -> by congruence. by split.
Qed.

(** C6: on a geometry whose buffers hold typed arrays, and whose index
    buffer, if set, is one of them, [clone()] returns a new geometry.  Its
    buffers hold, in the same order, arrays with the elements of the
    original's; these buffers and arrays are new objects of the heap, the
    objects that were there are unchanged, and storing into an element of
    the data of a buffer of the clone leaves the data of the original's
    buffers as it was. *)
Theorem clone_independent `{JSRuntime} this h g bs ts :
  h_geometries h !! this = Some g ->
  buffers g = Some bs ->
  holds_arrays h bs ts ->
  index_in_buffers g ->
  exists r h' g' bs',
    clone this h = Ok r h' /\
    r = length (h_geometries h) /\
    h_geometries h' = h_geometries h ++ [g'] /\
    buffers g' = Some bs' /\
    holds_new_arrays (length (h_buffers h)) (length (h_arrays h)) h' bs' ts /\
    holds_arrays h' bs ts /\
    forall b' bu a' i x h'',
      b' ∈ bs' -> h_buffers h' !! b' = Some bu -> data bu = DataArray a' ->
      set_element a' i x h' = Ok tt h'' ->
      holds_arrays h'' bs ts /\ h_geometries h'' !! this = Some g.
Proof.
  intros Hg Hbs Hlive Hinv.
  destruct (wp_total _ _ _ (clone_total this h g bs ts Hg Hbs Hlive Hinv))
    as (r & h' & Hrun & -> & [la Ha] & Hb & g' & bs' & Hgeo & Hbs' & Hnew).
  assert (holds_arrays h' bs ts) as Hlive'.
  { apply (holds_arrays_frame h); [| |done].
    - intros a t Hat. rewrite Ha. by apply lookup_app_l_Some.
    - intros b bu Hbu. rewrite Hb; [done|]. by eapply lookup_lt_Some. }
  exists (length (h_geometries h)), h', g', bs'. split_and!; try done.
  intros b' bu a' i x h'' Hin Hbu Hd [= <-].
  destruct (holds_new_arrays_elem _ _ _ _ _ _ _ _ Hnew Hin Hbu Hd)
    as [_ Hna].
  split.
  - apply (holds_arrays_frame h); [| |done].
    + intros a t Hat. simpl. rewrite Ha.
      rewrite list_lookup_alter_ne
        by (apply lookup_lt_Some in Hat; lia).
      by apply lookup_app_l_Some.
    + intros b bu' Hbu'. simpl. rewrite Hb; [done|]. by eapply lookup_lt_Some.
  - simpl. rewrite Hgeo. by apply lookup_app_l_Some.
Qed.

Lemma clone_independent_witness :
  exists r h' g' bs',
    clone 0 example_heap = Ok r h' /\
    r = 1 /\
    h_geometries h' = h_geometries example_heap ++ [g'] /\
    buffers g' = Some bs' /\
    holds_new_arrays 3 3 h' bs' (h_arrays example_heap) /\
    holds_arrays h' [0; 1; 2] (h_arrays example_heap) /\
    forall b' bu a' i x h'',
      b' ∈ bs' -> h_buffers h' !! b' = Some bu -> data bu = DataArray a' ->
      set_element (H := example_runtime) a' i x h' = Ok tt h'' ->
      holds_arrays h'' [0; 1; 2] (h_arrays example_heap) /\
      h_geometries h'' !! 0 = h_geometries example_heap !! 0.
Proof.
  apply (clone_independent (H := example_runtime) 0 example_heap _ [0; 1; 2]
           (h_arrays example_heap) eq_refl eq_refl).
  - repeat constructor; by do 2 eexists.
  - intros ib [= <-]. exists [0; 1; 2]. split; [reflexivity|].
    by apply list_elem_of_lookup_2 with 2.
Defined.

(** * Further properties of the code *)

(** ** Lookup of a missing attribute *)



(** ** Merge of no geometry *)

(** X2: [merge] of an empty array throws a TypeError: after the loops over
    the geometries, which do nothing, [geometry] is still undefined and
    [geometry.buffers] is read.  The new geometry has been made by then, and
    nothing else has changed. *)
Theorem merge_nothing `{JSRuntime} h :
  merge [] h
  = Throw TypeError
      (with_geometries
         (fun l => l ++ [{| buffers := Some []; indexBuffer := None;
                            attributes := Some [];
                            glVertexArrayObjects := Some [] |}]) h).
Proof. reflexivity. Qed.

(** ** Interleaving an interleaved geometry *)

(** X3: [interleave()] on a geometry with one buffer, or with two buffers
    and an index buffer, returns the geometry at once and changes nothing,
    whatever its attributes are. *)
Theorem interleave_already_interleaved `{JSRuntime} this h g :
  h_geometries h !! this = Some g ->
  already_interleaved g ->
  interleave this h = Ok this h.
Proof. apply interleave_fast. Qed.

Lemma interleave_already_interleaved_witness :
  interleave (H := example_runtime) 0 (pair_heap value_attributes
                                         Float32Array Uint16Array
                                         [0; 0; 0]%Z [0; 1; 2]%Z)
  = Ok 0 (pair_heap value_attributes Float32Array Uint16Array
            [0; 0; 0]%Z [0; 1; 2]%Z).
Proof.
  apply (interleave_already_interleaved (H := example_runtime) 0 _
           {| buffers := Some [0; 1]; indexBuffer := Some 1;
              attributes := Some value_attributes;
              glVertexArrayObjects := Some [] |}); [reflexivity|].
  exists [0; 1]. split; [reflexivity|]. right. split; [reflexivity|].
  by eexists.
Defined.

(** ** Registration under one name *)

(** X4: [addAttribute] with a buffer argument and a name without separator
    returns the geometry.  The Buffer it registers is the one of the
    argument: the Buffer passed, or one new Buffer made of the array or
    typed array passed.  That Buffer is appended to the list of buffers
    unless it is there already, and the name is bound to an attribute with
    the slot of the Buffer and the size, normalisation, type, stride, start
    and instancing of the call; an attribute of that name is replaced, the
    other attributes, the index buffer and the cache are unchanged. *)
Theorem addAttribute_one_name `{JSRuntime} this id arg size normalised type
    stride start instance h g bs attrs :
  h_geometries h !! this = Some g ->
  buffers g = Some bs ->
  attributes g = Some attrs ->
  arg <> ArgNone ->
  valid_arg h arg ->
  contains separator id = false ->
  exists h' g' buf slot bs' attrs',
    addAttribute this id arg size normalised type stride start instance h
    = Ok this h' /\
    buffer_of_arg h h' arg buf /\
    h_geometries h' !! this = Some g' /\
    buffers g' = Some bs' /\ attributes g' = Some attrs' /\
    (bs' = bs \/ ((buf ∉ bs) /\ bs' = bs ++ [buf])) /\
    bs' !! slot = Some buf /\
    attr_lookup id attrs'
    = Some (Attribute_new slot size normalised type stride start instance) /\
    (forall name, name <> id -> attr_lookup name attrs' = attr_lookup name attrs)
    /\
    indexBuffer g' = indexBuffer g /\
    glVertexArrayObjects g' = glVertexArrayObjects g.
Proof.
  intros Hg Hbs Hattrs Harg Hvalid Hid.
  cut (wp (addAttribute this id arg size normalised type stride start
             instance) h
         (fun r h' =>
            r = this /\
            exists g' buf, buffer_of_arg h h' arg buf /\
              h_geometries h' !! this = Some g' /\
              registered buf bs
                (attr_set id
                   (Attribute_new (slot_of buf bs) size normalised type
                      stride start instance) attrs) g g')
         no_throw).
  { intros (r & h' & Hrun & -> & g' & buf & Harg' & Hg'
            & Hbs' & Hattrs' & Hib' & Hvao')%wp_total.
    exists h', g', buf, (slot_of buf bs), (with_buffer buf bs). eexists.
    split_and!; try done.
    - unfold with_buffer. destruct (indexOf buf bs) eqn:Hi; [by left|right].
      split; [by apply indexOf_None|done].
    - apply lookup_with_buffer.
    - apply attr_lookup_set_eq.
    - intros name Hname. by apply attr_lookup_set_ne. }
  unfold addAttribute. unfold addAttribute_body at 1. apply wp_bind.
  apply wp_mono with
    (Q := fun buf h1 =>
            h_geometries h1 = h_geometries h /\
            buffer_of_arg h h1 arg buf)
    (E := no_throw); [| |done].
  { destruct arg as [|xs|a|b]; unfold Buffer_new, buffer_of_arg; [done|..];
      wp_steps; try done.
    destruct Hvalid as [bu Hbu]. rewrite Hbu. simpl.
    destruct (data bu) eqn:Hdata; by wp_steps. }
  intros buf h1 (Hh1 & Hbuf). cbv zeta.
  rewrite (split_no_sep _ _ Hid). simpl.
  eapply wp_mono;
    [eapply register_total with (g := g) (bs := bs) (bs2 := bs); eauto
    | |done].
  { by rewrite Hh1. }
  intros r h2 (-> & Ha & Hb & g2 & Hg2 & Hreg2).
  split; [done|]. exists g2, buf. split_and!; [|done..].
  by apply (buffer_of_arg_frame h h1).
Qed.

Lemma addAttribute_one_name_witness :
  exists h' g' buf slot bs' attrs',
    addAttribute (H := example_runtime) 0 "aColor" (ArgBuffer 0) 3 true
      UNSIGNED_BYTE (Some 12%Z) (Some 8%Z) false example_heap
    = Ok 0 h' /\
    buffer_of_arg (H := example_runtime) example_heap h' (ArgBuffer 0) buf /\
    h_geometries h' !! 0 = Some g' /\
    buffers g' = Some bs' /\ attributes g' = Some attrs' /\
    (bs' = [0; 1; 2] \/ ((buf ∉ [0; 1; 2]) /\ bs' = [0; 1; 2] ++ [buf])) /\
    bs' !! slot = Some buf /\
    attr_lookup "aColor" attrs'
    = Some (Attribute_new slot 3 true UNSIGNED_BYTE (Some 12%Z) (Some 8%Z)
              false) /\
    (forall name, name <> "aColor"%string ->
       attr_lookup name attrs'
       = attr_lookup name
           [("aVertexPosition"%string,
             Attribute_new 0 2 false FLOAT None None false);
            ("aColor"%string,
             Attribute_new 1 3 false FLOAT None None false)]) /\
    indexBuffer g' = Some 2 /\
    glVertexArrayObjects g' = Some [].
Proof.
  apply (addAttribute_one_name (H := example_runtime) 0 "aColor" (ArgBuffer 0)
           3 true UNSIGNED_BYTE (Some 12%Z) (Some 8%Z) false example_heap
           {| buffers := Some [0; 1; 2]; indexBuffer := Some 2;
              attributes :=
                Some [("aVertexPosition"%string,
                       Attribute_new 0 2 false FLOAT None None false);
                      ("aColor"%string,
                       Attribute_new 1 3 false FLOAT None None false)];
              glVertexArrayObjects := Some [] |});
    [reflexivity | reflexivity | reflexivity | discriminate | by eexists
    | reflexivity].
Defined.

(** ** The index buffer *)

(** X5: [addIndex] with a buffer argument returns the geometry and makes
    the Buffer of the argument its index buffer: the Buffer passed, or one
    new Buffer made of the typed array passed or of a new Uint16Array of the
    numbers passed.  That Buffer is marked as an index buffer and is appended
    to the list of buffers unless it is there already; the attributes and
    the cache are unchanged, and [getIndex] then returns that Buffer. *)
Theorem addIndex_sets_index `{JSRuntime} this arg h g bs :
  h_geometries h !! this = Some g ->
  buffers g = Some bs ->
  arg <> ArgNone ->
  valid_arg h arg ->
  exists h' g' buf bs',
    addIndex this arg h = Ok this h' /\
    index_of_arg h h' arg buf /\
    h_geometries h' !! this = Some g' /\
    indexBuffer g' = Some buf /\
    buffers g' = Some bs' /\
    (bs' = bs \/ ((buf ∉ bs) /\ bs' = bs ++ [buf])) /\
    buf ∈ bs' /\
    attributes g' = attributes g /\
    glVertexArrayObjects g' = glVertexArrayObjects g /\
    getIndex this h' = Ok (Some buf) h'.
Proof.
  intros Hg Hbs Harg Hvalid.
  cut (wp (addIndex this arg) h
         (fun r h' =>
            r = this /\
            exists g' buf bs',
              index_of_arg h h' arg buf /\
              h_geometries h' !! this = Some g' /\
              indexBuffer g' = Some buf /\
              buffers g' = Some bs' /\
              (bs' = bs \/ ((buf ∉ bs) /\ bs' = bs ++ [buf])) /\
              buf ∈ bs' /\
              attributes g' = attributes g /\
              glVertexArrayObjects g' = glVertexArrayObjects g)
         no_throw).
  { intros (r & h' & Hrun & -> & g' & buf & bs' & Hbuf & Hg' & Hib & Hrest)
      %wp_total.
    exists h', g', buf, bs'. split_and!; try tauto.
    unfold getIndex, bind, get_geometry. rewrite Hg'. simpl. by rewrite Hib. }
  unfold addIndex. apply wp_bind.
  apply wp_mono with
    (Q := fun buf h1 =>
            h_geometries h1 = h_geometries h /\
            exists bu, h_buffers h1 !! buf = Some bu /\
              index_of_arg h
                (with_buffers (fun l => alter (set_index true) buf l) h1)
                arg buf)
    (E := no_throw); [| |done].
  { destruct arg as [|xs|a|b]; unfold Buffer_new, index_of_arg; [done|..];
      wp_steps.
    - split; [done|]. rewrite lookup_snoc_new. eexists. split; [done|].
      heap_simpl. rewrite alter_new_0, lookup_new_0. eexists. by split_and!.
    - split; [done|]. rewrite lookup_snoc_new. eexists. split; [done|].
      heap_simpl. rewrite alter_new_0, lookup_new_0. eexists. by split_and!.
    - destruct Hvalid as [bu Hbu]. rewrite Hbu. simpl.
      destruct (data bu) eqn:Hdata; wp_steps; (split; [done|]).
      + rewrite lookup_snoc_new. eexists. split; [done|].
        heap_simpl. rewrite alter_new_0, lookup_new_0. eexists. by split_and!.
      + exists bu. split; [done|]. heap_simpl.
        rewrite list_lookup_alter_eq, Hbu. simpl. eexists. by split_and!.
      + exists bu. split; [done|]. heap_simpl.
        rewrite list_lookup_alter_eq, Hbu. simpl. eexists. by split_and!. }
  intros buf h1 (Hh1 & bu & Hbu & Hbuf). wp_steps. rewrite Hbu. wp_steps.
  rewrite Hh1, Hg. wp_steps. rewrite list_lookup_alter_eq, Hh1, Hg.
  obj_simpl. wp_steps. rewrite Hbs. wp_steps.
  destruct (indexOf buf bs) as [i|] eqn:Hi; wp_steps.
  - split; [done|]. heap_simpl. rewrite list_lookup_alter_eq, Hh1, Hg.
    eexists _, buf, bs. obj_simpl. split_and!; try done; [by left|].
    by eapply indexOf_elem.
  - split; [done|]. heap_simpl. rewrite !list_lookup_alter_eq, Hh1, Hg.
    eexists _, buf, (bs ++ [buf]). obj_simpl. split_and!; try done.
    + right. split; [by apply indexOf_None|done].
    + apply elem_of_app. right. by apply list_elem_of_singleton.
Qed.

Lemma addIndex_sets_index_witness :
  exists h' g' buf bs',
    addIndex (H := example_runtime) 0 (ArgArray (numbers [0; 1; 65538]%Z))
      fresh_heap = Ok 0 h' /\
    index_of_arg (H := example_runtime) fresh_heap h'
      (ArgArray (numbers [0; 1; 65538]%Z)) buf /\
    h_geometries h' !! 0 = Some g' /\
    indexBuffer g' = Some buf /\
    buffers g' = Some bs' /\
    (bs' = [] \/ ((buf ∉ []) /\ bs' = [] ++ [buf])) /\
    buf ∈ bs' /\
    attributes g' = Some [] /\
    glVertexArrayObjects g' = Some [] /\
    getIndex 0 h' = Ok (Some buf) h'.
Proof.
  apply (addIndex_sets_index (H := example_runtime) 0
           (ArgArray (numbers [0; 1; 65538]%Z)) fresh_heap
           {| buffers := Some []; indexBuffer := None; attributes := Some [];
              glVertexArrayObjects := Some [] |} []);
    [reflexivity | reflexivity | discriminate | exact I].
Defined.

(** ** Destruction of an indexed geometry *)

Lemma lookup_release_all bs : forall (l : list Buffer) b,
  foldl (fun l b => alter (set_data DataNull) b l) l bs !! b
  = if decide (b ∈ bs) then set_data DataNull <$> l !! b else l !! b.
Proof.
  induction bs as [|b0 bs IH]; intros l b; simpl; [done|].
  rewrite IH. destruct (decide (b = b0)) as [->|Hne].
  - rewrite list_lookup_alter_eq.
    rewrite (decide_True (P := b0 ∈ b0 :: bs)) by left.
    destruct (decide (b0 ∈ bs)); [|done]. by destruct (l !! b0).
  - rewrite list_lookup_alter_ne by done.
    destruct (decide (b ∈ bs)) as [Hin|Hin].
    + by rewrite decide_True by by right.
    + rewrite decide_False; [done|]. by intros [->|?]%elem_of_cons.
Qed.

Lemma wp_release_all bs : forall h,
  Forall (fun b => is_Some (h_buffers h !! b)) bs ->
  wp (for_each Buffer_destroy bs) h
    (fun _ h' =>
       h_arrays h' = h_arrays h /\ h_geometries h' = h_geometries h /\
       h_buffers h'
       = foldl (fun l b => alter (set_data DataNull) b l) (h_buffers h) bs)
    no_throw.
Proof.
  induction bs as [|b bs IH]; intros h Hlive; simpl; [by wp_steps|].
  apply Forall_cons in Hlive as [[bu Hbu] Hlive]. wp_steps.
  eapply wp_mono; [by eapply wp_Buffer_destroy_total| |done].
  cbn beta. intros [] h1 (Ha & Hg & Hb).
  eapply wp_mono; [apply IH| |done].
  - eapply Forall_impl; [exact Hlive|]. intros b' [bu' Hbu']. rewrite Hb.
    destruct (decide (b' = b)) as [->|Hne].
    + rewrite list_lookup_alter_eq, Hbu'. by eexists.
    + rewrite list_lookup_alter_ne by done. by eexists.
  - cbn beta. intros [] h2 (Ha2 & Hg2 & Hb2). split_and!; congruence.
Qed.

(** X6: [destroy()] on a geometry that has an index buffer returns.  It
    sets the cache, the list of buffers and the attribute map to null, and
    releases the data of every buffer of the list and of the index buffer;
    the other Buffers, the typed arrays and the reference to the index buffer
    are as they were. *)
Theorem destroy_with_index this h g bs ib :
  h_geometries h !! this = Some g ->
  buffers g = Some bs ->
  indexBuffer g = Some ib ->
  is_Some (glVertexArrayObjects g) ->
  Forall (fun b => is_Some (h_buffers h !! b)) (ib :: bs) ->
  exists h' g',
    destroy this h = Ok tt h' /\
    h_arrays h' = h_arrays h /\
    h_geometries h' !! this = Some g' /\
    glVertexArrayObjects g' = None /\ buffers g' = None /\
    attributes g' = None /\ indexBuffer g' = Some ib /\
    (forall b, b ∈ ib :: bs ->
       exists bu, h_buffers h' !! b = Some bu /\ data bu = DataNull) /\
    (forall b, b ∉ ib :: bs -> h_buffers h' !! b = h_buffers h !! b).
Proof.
  intros Hg Hbs Hib [vao Hvao] Hlive.
  apply Forall_cons in Hlive as [[ibu Hibu] Hlive].
  cut (wp (destroy this) h
         (fun _ h' =>
            h_arrays h' = h_arrays h /\
            h_geometries h'
            = alter (set_attributes None)
                this
                (alter (set_buffers None) this
                   (alter (set_glVertexArrayObjects None) this
                      (h_geometries h))) /\
            h_buffers h'
            = alter (set_data DataNull) ib
                (foldl (fun l b => alter (set_data DataNull) b l)
                   (h_buffers h) bs))
         no_throw).
  { intros ([] & h' & Hrun & Ha & Hgeo & Hbuf)%wp_total.
    exists h',
      (set_attributes None
         (set_buffers None (set_glVertexArrayObjects None g))).
    split_and!; try done.
    - by rewrite Hgeo, !list_lookup_alter_eq, Hg.
    - intros b Hb. rewrite Hbuf.
      assert (is_Some (h_buffers h !! b)) as [bu Hbu].
      { apply elem_of_cons in Hb as [->|Hb]; [by eexists|].
        rewrite Forall_forall in Hlive. by apply Hlive. }
      destruct (decide (b = ib)) as [->|Hne].
      + rewrite list_lookup_alter_eq, lookup_release_all, Hibu.
        destruct (decide (ib ∈ bs)); by eexists.
      + rewrite list_lookup_alter_ne by done.
        rewrite lookup_release_all, Hbu.
        apply elem_of_cons in Hb as [?|Hb]; [done|].
        rewrite decide_True by done. by eexists.
    - intros b Hb. rewrite Hbuf.
      rewrite list_lookup_alter_ne by (intros ->; apply Hb; left).
      rewrite lookup_release_all. rewrite decide_False; [done|].
      intros ?. apply Hb. by right. }
  unfold destroy. wp_steps. rewrite Hg. wp_steps. rewrite Hvao. wp_steps.
  rewrite Hbs. wp_steps.
  eapply wp_mono; [apply wp_release_all; by heap_simpl| |done].
  cbn beta. heap_simpl. intros [] h1 (Ha1 & Hg1 & Hb1). wp_steps.
  rewrite Hib. wp_steps.
  assert (is_Some (h_buffers h1 !! ib)) as [bu1 Hbu1].
  { rewrite Hb1, lookup_release_all, Hibu.
    destruct (decide (ib ∈ bs)); by eexists. }
  eapply wp_mono; [by eapply (wp_Buffer_destroy_total ib bu1)| |done].
  cbn beta. heap_simpl. intros [] h2 (Ha2 & Hg2 & Hb2). wp_steps.
  split_and!; congruence.
Qed.

Lemma destroy_with_index_witness :
  exists h' g',
    destroy 0 example_heap = Ok tt h' /\
    h_arrays h' = h_arrays example_heap /\
    h_geometries h' !! 0 = Some g' /\
    glVertexArrayObjects g' = None /\ buffers g' = None /\
    attributes g' = None /\ indexBuffer g' = Some 2 /\
    (forall b, b ∈ [2; 0; 1; 2] ->
       exists bu, h_buffers h' !! b = Some bu /\ data bu = DataNull) /\
    (forall b, b ∉ [2; 0; 1; 2] ->
       h_buffers h' !! b = h_buffers example_heap !! b).
Proof.
  apply (destroy_with_index 0 example_heap
           {| buffers := Some [0; 1; 2]; indexBuffer := Some 2;
              attributes :=
                Some [("aVertexPosition"%string,
                       Attribute_new 0 2 false FLOAT None None false);
                      ("aColor"%string,
                       Attribute_new 1 3 false FLOAT None None false)];
              glVertexArrayObjects := Some [] |} [0; 1; 2] 2);
    [reflexivity | reflexivity | reflexivity | by eexists|].
  repeat (apply List.Forall_cons; [by eexists|]). apply List.Forall_nil.
Defined.

(** ** Merge of two geometries *)



(** ** The size of an interleaved array *)

Section Interleaved.
Context `{JSRuntime}.

Lemma length_le_bytes n v : length (le_bytes n v) = n.
Proof. unfold le_bytes. by rewrite length_map, length_seq. Qed.

Lemma length_view_set k bytes i v :
  length (view_set k bytes i v) = length bytes.
Proof.
  unfold view_set. destruct i as [i|]; [|done].
  destruct ((0 <=? i)%Z && (i <? Z.of_nat (length bytes / BYTES_PER_ELEMENT k))%Z)
    eqn:Hi; [|done].
  apply andb_true_iff in Hi as [Hlo%Z.leb_le Hhi%Z.ltb_lt].
  rewrite !length_app, length_take, length_drop, length_le_bytes.
  destruct k; cbn [BYTES_PER_ELEMENT] in *; lia.
Qed.

Lemma length_write_elems k size stride littleOffset vs :
  forall j bytes,
    length (write_elems k size stride littleOffset j vs bytes)
    = length bytes.
Proof.
  induction vs as [|v vs IH]; intros j bytes; simpl; [done|].
  by rewrite IH, length_view_set.
Qed.

Lemma length_write_arrays stride arrays :
  forall littleOffset bytes,
    length (write_arrays stride littleOffset arrays bytes) = length bytes.
Proof.
  induction arrays as [|[array size] arrays IH]; intros littleOffset bytes;
    simpl; [done|].
  rewrite IH. destruct array; [done| |done]. apply length_write_elems.
Qed.

Lemma length_words n : forall bytes,
  length bytes = 4 * n -> length (words bytes) = n.
Proof.
  induction n as [|n IH]; intros bytes Hlen.
  - by destruct bytes.
  - destruct bytes as [|b0 [|b1 [|b2 [|b3 rest]]]]; simpl in Hlen; try lia.
    simpl. f_equal. apply IH. lia.
Qed.

Lemma outSize_typed arrays : forall n,
  Forall (fun a => exists t, a = IsArray t) arrays ->
  fold_left
    (fun acc array =>
       match acc, array_length array with
       | Some n, Some l => Some (n + l)
       | _, _ => None
       end)
    arrays (Some n)
  = Some (n + sum_list (map (fun a => default 0 (array_length a)) arrays)).
Proof.
  induction arrays as [|a arrays IH]; intros n Hall; simpl.
  - f_equal. lia.
  - apply Forall_cons in Hall as [[t ->] Hall]. simpl.
    rewrite IH by done. f_equal. lia.
Qed.

Lemma existsb_is_null_typed arrays :
  Forall (fun a => exists t, a = IsArray t) arrays ->
  existsb is_null arrays = false.
Proof.
  induction 1 as [|a arrays [t ->] _ IH]; simpl; [done|]. exact IH.
Qed.
End Interleaved.

(** X8: [interleaveTypedArrays] on typed arrays returns a new Float32Array
    whose length is the sum of the lengths of the arrays, whatever their
    constructors and the sizes are, and changes nothing else. *)
Theorem interleaveTypedArrays_length `{JSRuntime} arrays sizes h :
  Forall (fun a => exists t, a = IsArray t) arrays ->
  exists ws,
    interleaveTypedArrays arrays sizes h
    = Ok (length (h_arrays h))
        (with_arrays
           (fun l => l ++ [{| ctor := Float32Array; elems := ws |}]) h) /\
    length ws = sum_list (map (fun a => default 0 (array_length a)) arrays).
Proof.
  intros Hall. unfold interleaveTypedArrays.
  rewrite existsb_is_null_typed by done. eexists. split; [reflexivity|].
  apply length_words. rewrite length_write_arrays, repeat_length.
  rewrite outSize_typed by done. simpl. lia.
Qed.

Lemma interleaveTypedArrays_length_witness :
  exists ws,
    interleaveTypedArrays (H := example_runtime)
      [IsArray {| ctor := Float32Array; elems := [0; 1065353216]%Z |};
       IsArray {| ctor := Uint8Array; elems := [255; 0; 0; 255]%Z |}]
      [Fin 2; Fin 1] empty_heap
    = Ok 0
        (with_arrays
           (fun l => l ++ [{| ctor := Float32Array; elems := ws |}])
           empty_heap) /\
    length ws = 2 + (4 + 0).
Proof.
  apply (interleaveTypedArrays_length (H := example_runtime)
           [IsArray {| ctor := Float32Array; elems := [0; 1065353216]%Z |};
            IsArray {| ctor := Uint8Array; elems := [255; 0; 0; 255]%Z |}]
           [Fin 2; Fin 1] empty_heap).
  repeat (apply List.Forall_cons; [by eexists|]). apply List.Forall_nil.
Defined.
